(** * SJSU parking: ingestion job and client-side aggregation

    A shallow embedding of [frontend/api/cron.js] (page fetcher, text
    normalizer, status extractor, ingestion handler), of the
    [useGarageStatus] hook, of the daily-average derivation of
    [AreaChart.tsx] and of the history table of [HistoryTable.tsx] and
    [Dashboard.tsx], with the properties stated about them.

    JavaScript strings are modelled as lists of 8-bit characters (the
    Latin-1 range of UTF-16 code units); integers are modelled in [Z],
    with the rounding of doubles written out where the code computes
    with them. *)

From Stdlib Require Import Ascii String.
From Stdlib Require Import List ZArith Lia Bool Arith.
From Stdlib Require Import Permutation Sorted.
From Stdlib Require DecimalString DecimalZ.
Import ListNotations.

Set Implicit Arguments.

(** ** Strings *)

Abbreviation str := (list ascii).

Definition lit (s : string) : str := list_ascii_of_string s.

Arguments lit s%_string.

Definition code (c : ascii) : N := N_of_ascii c.

Definition chr (n : N) : ascii := ascii_of_N n.

(** White space and line terminators of ECMAScript, restricted to the
    code units below 256: TAB, LF, VT, FF, CR, SP and NBSP. *)
Definition is_ws (c : ascii) : bool :=
  let n := code c in
  ((9 <=? n) && (n <=? 13) || (n =? 32) || (n =? 160))%N.

Definition is_line_terminator (c : ascii) : bool :=
  let n := code c in ((n =? 10) || (n =? 13))%N.

Definition is_digit (c : ascii) : bool :=
  let n := code c in ((48 <=? n) && (n <=? 57))%N.

Definition is_upper (c : ascii) : bool :=
  let n := code c in ((65 <=? n) && (n <=? 90))%N.

Definition is_lower (c : ascii) : bool :=
  let n := code c in ((97 <=? n) && (n <=? 122))%N.

(** [\w] of a regular expression. *)
Definition is_word (c : ascii) : bool :=
  is_upper c || is_lower c || is_digit c || (code c =? 95)%N.

(** [String.prototype.toLowerCase] on one code unit below 256: the
    letters A-Z and the Latin-1 capitals 0xC0-0xDE other than 0xD7. *)
Definition lower_char (c : ascii) : ascii :=
  let n := code c in
  if is_upper c then chr (n + 32)
  else if ((192 <=? n) && (n <=? 222) && negb (n =? 215))%N then chr (n + 32)
  else c.

(** [String.prototype.toLowerCase] on a text of code units below 256.
    On these it works code unit by code unit and keeps the length of
    the text, so that an index into the lower-cased text is an index
    into the text.  That is not so for every JavaScript string (the
    lower-case form of U+0130 is two code units long): the statements
    about texts are statements about texts of code units below 256. *)
Definition toLowerCase (s : str) : str := map lower_char s.

(** Canonicalization of a character under the [i] flag (without [u]):
    the upper-case form when it is a single code unit.  Below 256 this
    is the inverse of [lower_char], except for 0xB5, 0xDF and 0xFF whose
    upper-case forms are not below 256 and are different from every
    other character here. *)
Definition canon (c : ascii) : ascii :=
  let n := code c in
  if is_lower c then chr (n - 32)
  else if ((224 <=? n) && (n <=? 254) && negb (n =? 247))%N then chr (n - 32)
  else c.

Fixpoint drop_ws (s : str) : str :=
  match s with
  | c :: s' => if is_ws c then drop_ws s' else s
  | [] => []
  end.

(** [String.prototype.trim]. *)
Definition trim (s : str) : str := rev (drop_ws (rev (drop_ws s))).

Fixpoint starts_with (p s : str) : bool :=
  match p, s with
  | [], _ => true
  | a :: p', b :: s' => Ascii.eqb a b && starts_with p' s'
  | _ :: _, [] => false
  end.

(** [String.prototype.indexOf] from position [i]; -1 when absent. *)
Fixpoint index_from (p s : str) (i : Z) : Z :=
  if starts_with p s then i
  else match s with
       | _ :: s' => index_from p s' (i + 1)
       | [] => -1
       end.

Definition indexOf (s p : str) : Z := index_from p s 0.

(** [String.prototype.slice] for the indices the code passes, which are
    never negative. *)
Definition slice (s : str) (a b : Z) : str :=
  firstn (Z.to_nat (b - a)) (skipn (Z.to_nat a) s).

(** [String.prototype.replace] with a string pattern: the first
    occurrence only. *)
Fixpoint replace_first (p r s : str) : str :=
  if starts_with p s then r ++ skipn (length p) s
  else match s with
       | c :: s' => c :: replace_first p r s'
       | [] => []
       end.

(** ** Regular expressions

    The backtracking matcher of ECMAScript for the constructs the source
    uses: characters (with or without the [i] flag), character classes,
    sequence, alternation, greedy and lazy quantifiers over a class, one
    capture group, [\b] and [$]. *)

Inductive re : Type :=
| Eps : re
| Cls : (ascii -> bool) -> re
| Seq : re -> re -> re
| Alt : re -> re -> re
| Rep : bool -> nat -> (ascii -> bool) -> re
| Cap : re -> re
| WordB : re
| EndIn : re.

(** The state of a match: the character before the current position,
    the input that is left, and the text of capture group 1. *)
Record mstate : Type := MState {
  m_prev : option ascii;
  m_rest : str;
  m_cap : option str
}.

Definition prev_word (st : mstate) : bool :=
  match m_prev st with Some c => is_word c | None => false end.

Definition next_word (st : mstate) : bool :=
  match m_rest st with c :: _ => is_word c | [] => false end.

Definition or_else {A} (a : option A) (b : option A) : option A :=
  match a with Some _ => a | None => b end.

Section Matcher.
Variable R : Type.

Fixpoint rep_min (p : ascii -> bool) (n : nat) (prev : option ascii)
    (s : str) (k : option ascii -> str -> option R) : option R :=
  match n with
  | O => k prev s
  | S n' =>
      match s with
      | c :: s' => if p c then rep_min p n' (Some c) s' k else None
      | [] => None
      end
  end.

(** Greedy: take one more character first, come back when that fails. *)
Fixpoint rep_greedy (p : ascii -> bool) (prev : option ascii) (s : str)
    (k : option ascii -> str -> option R) : option R :=
  match s with
  | c :: s' =>
      if p c then or_else (rep_greedy p (Some c) s' k) (k prev s)
      else k prev s
  | [] => k prev s
  end.

(** Lazy: try the continuation first, take one more character when it
    fails. *)
Fixpoint rep_lazy (p : ascii -> bool) (prev : option ascii) (s : str)
    (k : option ascii -> str -> option R) : option R :=
  match k prev s with
  | Some r => Some r
  | None =>
      match s with
      | c :: s' => if p c then rep_lazy p (Some c) s' k else None
      | [] => None
      end
  end.

Fixpoint run (r : re) (st : mstate) (k : mstate -> option R) : option R :=
  match r with
  | Eps => k st
  | Cls p =>
      match m_rest st with
      | c :: s' => if p c then k (MState (Some c) s' (m_cap st)) else None
      | [] => None
      end
  | Seq a b => run a st (fun st' => run b st' k)
  | Alt a b => or_else (run a st k) (run b st k)
  | Rep greedy n p =>
      rep_min p n (m_prev st) (m_rest st) (fun prev s =>
        (if greedy then rep_greedy else rep_lazy) p prev s (fun prev' s' =>
          k (MState prev' s' (m_cap st))))
  | Cap a =>
      run a st (fun st' =>
        k (MState (m_prev st') (m_rest st')
             (Some (firstn (length (m_rest st) - length (m_rest st'))
                      (m_rest st)))))
  | WordB => if xorb (prev_word st) (next_word st) then k st else None
  | EndIn => match m_rest st with [] => k st | _ :: _ => None end
  end.
End Matcher.

(** A match that starts at the current position. *)
Definition exec (r : re) (prev : option ascii) (s : str) : option mstate :=
  run r (MState prev s None) (@Some mstate).

(** [String.prototype.match] without the [g] flag: the leftmost match;
    the result is the final state of the match. *)
Fixpoint search_from (r : re) (prev : option ascii) (s : str) : option mstate :=
  match exec r prev s with
  | Some st => Some st
  | None =>
      match s with
      | c :: s' => search_from r (Some c) s'
      | [] => None
      end
  end.

Definition search (r : re) (s : str) : option mstate := search_from r None s.

(** [String.prototype.replace] with the [g] flag and a constant
    replacement.  [skip] counts the characters of the current match that
    are still to be passed over; after an empty match the next character
    is copied. *)
Fixpoint replace_loop (r : re) (rep : str) (skip : nat)
    (prev : option ascii) (s : str) : str :=
  match skip with
  | S n =>
      match s with
      | c :: s' => replace_loop r rep n (Some c) s'
      | [] => []
      end
  | O =>
      match exec r prev s with
      | Some st =>
          match length s - length (m_rest st) with
          | O =>
              rep ++ match s with
                     | c :: s' => c :: replace_loop r rep 0 (Some c) s'
                     | [] => []
                     end
          | S n =>
              rep ++ match s with
                     | c :: s' => replace_loop r rep n (Some c) s'
                     | [] => []
                     end
          end
      | None =>
          match s with
          | c :: s' => c :: replace_loop r rep 0 (Some c) s'
          | [] => []
          end
      end
  end.

Definition replace_all (r : re) (rep s : str) : str :=
  replace_loop r rep 0 None s.

(** Pattern builders. *)
Definition any_char : ascii -> bool := fun _ => true.

Definition dot : ascii -> bool := fun c => negb (is_line_terminator c).

Definition chr_is (a : ascii) : ascii -> bool := fun c => Ascii.eqb c a.

Definition chr_ci (a : ascii) : ascii -> bool :=
  fun c => Ascii.eqb (canon c) (canon a).

Definition one_of (l : str) : ascii -> bool :=
  fun c => existsb (fun a => Ascii.eqb (canon c) (canon a)) l.

Fixpoint literal (ci : bool) (s : str) : re :=
  match s with
  | [] => Eps
  | a :: s' => Seq (Cls (if ci then chr_ci a else chr_is a)) (literal ci s')
  end.

Definition opt (r : re) : re := Alt r Eps.

Definition star (p : ascii -> bool) : re := Rep true 0 p.
Definition plus (p : ascii -> bool) : re := Rep true 1 p.
Definition lazy_star (p : ascii -> bool) : re := Rep false 0 p.
Definition lazy_plus (p : ascii -> bool) : re := Rep false 1 p.

(** ** frontend/api/cron.js: text normalizer *)

(** [/<script[\s\S]*?<\/script>/gi] and [/<style[\s\S]*?<\/style>/gi]. *)
Definition block_re (open close : string) : re :=
  Seq (literal true (lit open))
      (Seq (lazy_star any_char) (literal true (lit close))).

Definition script_re : re := block_re "<script" "</script>".
Definition style_re : re := block_re "<style" "</style>".

(** [/<[^>]+>/g]. *)
Definition not_gt : ascii -> bool := fun c => negb (Ascii.eqb c ">").

Definition tag_re : re :=
  Seq (Cls (chr_is "<")) (Seq (plus not_gt) (Cls (chr_is ">"))).

(** [/&nbsp;/g]. *)
Definition nbsp_re : re := literal false (lit "&nbsp;").

(** [/\s+/g]. *)
Definition spaces_re : re := plus is_ws.

Definition sp : str := [" "%char].

Definition htmlToText (html : str) : str :=
  trim
    (replace_all spaces_re sp
       (replace_all nbsp_re sp
          (replace_all tag_re sp
             (replace_all style_re sp
                (replace_all script_re sp html))))).

(** ** frontend/api/cron.js: last-updated line *)

(** [/\bLast updated\b\s+(.+?)(?:\s+Refresh\b|$)/i]. *)
Definition last_updated_re : re :=
  Seq WordB
    (Seq (literal true (lit "Last updated"))
       (Seq WordB
          (Seq (plus is_ws)
             (Seq (Cap (lazy_plus dot))
                (Alt (Seq (plus is_ws)
                        (Seq (literal true (lit "Refresh")) WordB))
                     EndIn))))).

Definition parseLastUpdated (text : str) : option str :=
  match search last_updated_re text with
  | Some m => option_map trim (m_cap m)
  | None => None
  end.

(** ** frontend/api/cron.js: status extractor *)

Local Open Scope Z_scope.

(** Numbers: the values [Number.parseInt] can return. *)
Inductive number : Type :=
| Num : Z -> number
| NaN : number
| Infinity : number.

(** The double nearest to a non-negative integer (ties to even), as an
    integer; [Infinity] from 2^1024 - 2^970 on.  Integers up to 2^53 are
    kept as they are. *)
Definition to_double (v : Z) : number :=
  if v <? 2 ^ 53 then Num v
  else
    let e := Z.log2 v - 52 in
    let q := v / 2 ^ e in
    let r := v mod 2 ^ e in
    let half := 2 ^ (e - 1) in
    let q' := if (half <? r) || ((r =? half) && Z.odd q) then q + 1 else q in
    if 2 ^ 1024 <=? q' * 2 ^ e then Infinity else Num (q' * 2 ^ e).

Fixpoint take_while (p : ascii -> bool) (s : str) : str :=
  match s with
  | c :: s' => if p c then c :: take_while p s' else []
  | [] => []
  end.

Definition digit_val (c : ascii) : Z := Z.of_N (code c) - 48.

Definition decimal (ds : str) : Z :=
  fold_left (fun acc c => 10 * acc + digit_val c) ds 0.

(** [Number.parseInt(s, 10)]: leading white space, an optional sign,
    then the longest run of digits; [NaN] when there is none. *)
Definition parseInt (s : str) : number :=
  let s1 := drop_ws s in
  let '(neg, s2) :=
    match s1 with
    | c :: t =>
        if Ascii.eqb c "-" then (true, t)
        else if Ascii.eqb c "+" then (false, t)
        else (false, s1)
    | [] => (false, s1)
    end in
  match take_while is_digit s2 with
  | [] => NaN
  | ds =>
      match to_double (decimal ds) with
      | Num v => Num (if neg then - v else v)
      | other => other
      end
  end.

Definition isFinite (n : number) : option Z :=
  match n with Num v => Some v | _ => None end.

Fixpoint str_eqb (a b : str) : bool :=
  match a, b with
  | [], [] => true
  | x :: a', y :: b' => Ascii.eqb x y && str_eqb a' b'
  | _, _ => false
  end.

(** A JavaScript object with string keys that are not array indices:
    entries in insertion order, an assignment to an existing key keeps
    its place. *)
Definition object (V : Type) : Type := list (str * V).

Fixpoint obj_set {V} (o : object V) (k : str) (v : V) : object V :=
  match o with
  | [] => [(k, v)]
  | (k', v') :: o' =>
      if str_eqb k' k then (k, v) :: o' else (k', v') :: obj_set o' k v
  end.

Fixpoint obj_get {V} (o : object V) (k : str) : option V :=
  match o with
  | [] => None
  | (k', v') :: o' => if str_eqb k' k then Some v' else obj_get o' k
  end.

(** [Array.prototype.sort] with a comparator: a stable sort, here by
    insertion. *)
Section Sort.
Variable A : Type.
Variable cmp : A -> A -> Z.

Fixpoint sort_insert (x : A) (l : list A) : list A :=
  match l with
  | [] => [x]
  | y :: l' => if cmp x y <=? 0 then x :: l else y :: sort_insert x l'
  end.

Fixpoint js_sort (l : list A) : list A :=
  match l with
  | [] => []
  | x :: l' => sort_insert x (js_sort l')
  end.
End Sort.

(** [escapeRegExp]: a backslash before each of [.*+?^${}()|[]\]. *)
Definition is_special (c : ascii) : bool :=
  existsb (Ascii.eqb c) (lit ".*+?^${}()|[]\").

Definition escapeRegExp (s : str) : str :=
  flat_map (fun c => if is_special c then ["\"%char; c] else [c]) s.

(** The pattern that [new RegExp] builds from a source text in which
    every syntax character stands behind a backslash, as in the texts
    that [escapeRegExp] returns: a character stands for itself, an
    escaped one for the character after the backslash.  (In other
    source texts an unescaped syntax character is an operator of the
    pattern; those are not read here.) *)
Fixpoint source_literal (ci : bool) (src : str) : re :=
  match src with
  | [] => Eps
  | c :: t =>
      if Ascii.eqb c "\" then
        match t with
        | c' :: t' =>
            Seq (Cls (if ci then chr_ci c' else chr_is c'))
                (source_literal ci t')
        | [] => Eps
        end
      else Seq (Cls (if ci then chr_ci c else chr_is c)) (source_literal ci t)
  end.

Definition garageNames : list str :=
  [lit "South Garage"; lit "North Garage"; lit "West Garage";
   lit "South Campus Garage"].

Record position : Type := Position { p_name : str; p_idx : Z }.

Definition positions (text : str) : list position :=
  js_sort (fun a b => p_idx a - p_idx b)
    (filter (fun x => negb (p_idx x =? -1))
       (map (fun name =>
               Position name (indexOf (toLowerCase text) (toLowerCase name)))
          garageNames)).

(** [name.*?(?:\d+\s+[SNWE].*?)?\s+(Full|\d+\s*%)] with the [i] flag. *)
Definition value_re : re :=
  Alt (literal true (lit "Full"))
      (Seq (plus is_digit) (Seq (star is_ws) (Cls (chr_ci "%")))).

Definition status_pattern (name : str) : re :=
  Seq (source_literal true (escapeRegExp name))
    (Seq (lazy_star dot)
       (Seq (opt (Seq (plus is_digit)
                    (Seq (plus is_ws)
                       (Seq (Cls (one_of (lit "SNWE"))) (lazy_star dot)))))
          (Seq (plus is_ws) (Cap value_re)))).

(** Group 1 of a match; it takes part in every match of
    [status_pattern]. *)
Definition group1 (m : mstate) : str :=
  match m_cap m with Some c => c | None => [] end.

(** The body of the loop over [positions], from index [i] on. *)
Fixpoint statuses_loop (text : str) (ps : list position)
    (statuses : object Z) : object Z :=
  match ps with
  | [] => statuses
  | p :: rest =>
      let nextIdx :=
        match rest with
        | q :: _ => p_idx q
        | [] => Z.of_nat (length text)
        end in
      let segment := slice text (p_idx p) nextIdx in
      match search (status_pattern (p_name p)) segment with
      | None => statuses_loop text rest statuses
      | Some m =>
          let statusText := trim (group1 m) in
          if str_eqb (toLowerCase statusText) (lit "full") then
            statuses_loop text rest (obj_set statuses (p_name p) 100)
          else
            let numberStr := trim (replace_first (lit "%") [] statusText) in
            match isFinite (parseInt numberStr) with
            | Some n => statuses_loop text rest (obj_set statuses (p_name p) n)
            | None => statuses_loop text rest statuses
            end
      end
  end.

Definition parseStatuses (text : str) : object Z :=
  statuses_loop text (positions text) [].

(** ** frontend/api/cron.js: effects

    The handler talks to the network and reads the clock.  Each of these
    is an event of a trace; what the outside world answers is given by
    an environment. *)

Record error : Type := Error {
  e_name : str;
  e_message : str;
  e_cause_code : option str
}.

Inductive text_outcome : Type :=
| TextOk : str -> text_outcome
| TextFails : error -> text_outcome.

Record response : Type := Response {
  ok : bool;
  r_status : Z;
  r_text : text_outcome
}.

(** A record of the store; its status is an integer. *)
Record GarageStatusRow : Type := Row {
  fetched_at : str;
  last_updated : option str;
  garage : str;
  status : Z;
  source_url : str
}.

Record request_init : Type := Init {
  i_method : str;
  i_headers : list (string * str);
  i_body : option (list GarageStatusRow)
}.

(** The [{}] that the page fetch passes. *)
Definition empty_init : request_init := Init (lit "GET") [] None.

Inductive settled : Type :=
| Resolves : response -> settled
| Rejects : error -> settled.

(** How a request of [https.get] ends: the answer arrives whole, with
    a status code (possibly none) and the body; or the request emits an
    [error] event; or its socket, once connected, stays idle for the
    ten seconds of [req.setTimeout] before the answer is whole.  How
    long the whole answer takes plays no part: the timer is restarted
    by every activity of the socket.  (A request that never ends in
    one of these ways leaves the promise pending; such runs are not
    described.) *)
Inductive get_outcome : Type :=
| GetResponse : option Z -> str -> get_outcome
| GetError : error -> get_outcome
| GetIdle : get_outcome.

Record env : Type := Env {
  CRON_SECRET : option str;
  SUPABASE_URL : option str;
  SUPABASE_KEY : option str;
  (** global [fetch]: the time it takes to settle, in ms, and how *)
  net_fetch : str -> request_init -> Z * settled;
  (** [https.get] with [rejectUnauthorized: false] *)
  https_get : str -> get_outcome;
  (** [new Date().toISOString()] after the given number of events *)
  now_iso : nat -> str
}.

Inductive event : Type :=
| EFetch : str -> request_init -> event
| EInsecureGet : str -> event
| EClock : event.

Inductive result (A : Type) : Type :=
| Ok : A -> result A
| Thrown : error -> result A.

Arguments Ok {A} _.
Arguments Thrown {A} _.

Definition M (A : Type) : Type := list event -> result A * list event.

Definition ret {A} (a : A) : M A := fun t => (Ok a, t).

Definition bind {A B} (m : M A) (f : A -> M B) : M B :=
  fun t =>
    match m t with
    | (Ok a, t') => f a t'
    | (Thrown e, t') => (Thrown e, t')
    end.

Definition throw {A} (e : error) : M A := fun t => (Thrown e, t).

Definition try_catch {A} (m : M A) (h : error -> M A) : M A :=
  fun t =>
    match m t with
    | (Ok a, t') => (Ok a, t')
    | (Thrown e, t') => h e t'
    end.

Definition emit (ev : event) : M unit := fun t => (Ok tt, t ++ [ev]).

Notation "x <- c ;; k" := (bind c (fun x => k))
  (at level 61, c at next level, right associativity).
Notation "c ;;; k" := (bind c (fun _ => k))
  (at level 61, right associativity).

(** The rejection of a [fetch] whose signal is aborted. *)
Definition abort_error : error :=
  Error (lit "AbortError") (lit "This operation was aborted") None.

(** [fetchWithTimeout]: the timer aborts the request when [fetchFn] has
    not settled after [timeoutMs]. *)
Definition fetchWithTimeout (E : env) (url : str) (init : request_init)
    (timeoutMs : Z) : M response :=
  emit (EFetch url init) ;;;
  let '(latency, outcome) := net_fetch E url init in
  if latency <? timeoutMs then
    match outcome with
    | Resolves resp => ret resp
    | Rejects e => throw e
    end
  else throw abort_error.

Definition tlsCodes : list str :=
  [lit "UNABLE_TO_VERIFY_LEAF_SIGNATURE";
   lit "DEPTH_ZERO_SELF_SIGNED_CERT";
   lit "SELF_SIGNED_CERT_IN_CHAIN"].

Definition has_code (codes : list str) (code : option str) : bool :=
  match code with
  | Some c => existsb (str_eqb c) codes
  | None => false
  end.

(** The promise around [https.get(url, { rejectUnauthorized: false })]:
    resolved at the end of the answer, rejected by an [error] event,
    among them the one that [req.destroy] emits when the idle timer
    fires. *)
Definition insecure_get (E : env) (url : str) : M response :=
  emit (EInsecureGet url) ;;;
  match https_get E url with
  | GetResponse statusCode data =>
      let status := match statusCode with Some c => c | None => 0 end in
      ret (Response ((200 <=? status) && (status <? 300)) status
             (TextOk data))
  | GetError e => throw e
  | GetIdle =>
      throw (Error (lit "Error") (lit "Timeout fetching garage status page")
               None)
  end.

Definition fetchGarageStatusPage (E : env) (url : str) : M response :=
  try_catch (fetchWithTimeout E url empty_init 10000)
    (fun e =>
       let code := e_cause_code e in
       if negb (has_code tlsCodes code) then throw e
       else insecure_get E url).

(** ** frontend/api/cron.js: the handler *)

Inductive query_value : Type :=
| QAbsent : query_value
| QOne : str -> query_value
| QMany : list str -> query_value.

Record request : Type := Request {
  method : str;
  authorization : option str;
  query_token : query_value
}.

Definition getRequestToken (req : request) : option str :=
  match query_token req with
  | QAbsent => None
  | QOne s => Some s
  | QMany l => hd_error l
  end.

Inductive json : Type :=
| JStr : str -> json
| JNum : Z -> json
| JBool : bool -> json
| JNull : json
| JUndefined : json
| JStatuses : object Z -> json.

Record http_response : Type := Res {
  res_headers : list (string * str);
  res_status : Z;
  res_json : list (string * json)
}.

Definition truthy (v : option str) : option str :=
  match v with
  | Some (c :: s) => Some (c :: s)
  | _ => None
  end.

Definition json_opt (v : option str) (absent : json) : json :=
  match v with Some s => JStr s | None => absent end.

Definition sourceUrl : str :=
  lit "https://sjsuparkingstatus.sjsu.edu/GarageStatusPlain".

(** [String.prototype.replace] with a regular expression without the
    [g] flag: the leftmost match only. *)
Fixpoint replace_re (r : re) (rep : str) (prev : option ascii) (s : str) : str :=
  match exec r prev s with
  | Some st => rep ++ m_rest st
  | None =>
      match s with
      | c :: s' => c :: replace_re r rep (Some c) s'
      | [] => []
      end
  end.

Definition make_rows (fetchedAt : str) (lastUpdated : option str)
    (statuses : object Z) : list GarageStatusRow :=
  map (fun '(garage, status) =>
         Row fetchedAt lastUpdated garage status sourceUrl)
      statuses.

Definition store_init (supabaseKey : str) (rows : list GarageStatusRow)
    : request_init :=
  Init (lit "POST")
    [("apikey"%string, supabaseKey);
     ("Authorization"%string, lit "Bearer " ++ supabaseKey);
     ("Content-Type"%string, lit "application/json");
     ("Prefer"%string, lit "return=minimal")]
    (Some rows).

(** [await resp.text()]: the body, or the error with which reading it
    fails.  (A body that never ends leaves the promise pending, and the
    run without a reply: the timer of [fetchWithTimeout] is cleared by
    then.  Such runs are not described.) *)
Definition read_text (resp : response) : M str :=
  match r_text resp with
  | TextOk s => ret s
  | TextFails e => throw e
  end.

(** [await resp.text().catch(() => "")]. *)
Definition text_or_empty (resp : response) : str :=
  match r_text resp with
  | TextOk s => s
  | TextFails _ => []
  end.

Definition new_date_iso (E : env) : M str :=
  fun t => (Ok (now_iso E (length t)), t ++ [EClock]).

Definition handler (E : env) (req : request) : M http_response :=
  if negb (str_eqb (method req) (lit "GET"))
     && negb (str_eqb (method req) (lit "HEAD")) then
    ret (Res [("Allow"%string, lit "GET, HEAD")] 405
           [("error"%string, JStr (lit "Method not allowed"))])
  else
  match truthy (CRON_SECRET E) with
  | None =>
      ret (Res [] 500
             [("error"%string,
               JStr (lit "CRON_SECRET is not set in the environment"))])
  | Some cronSecret =>
  let auth := match truthy (authorization req) with
              | Some a => a | None => [] end in
  let token := getRequestToken req in
  let authed :=
    str_eqb auth (lit "Bearer " ++ cronSecret)
    || match token with Some t => str_eqb t cronSecret | None => false end in
  if negb authed then
    ret (Res [] 401 [("error"%string, JStr (lit "Unauthorized"))])
  else
  match truthy (SUPABASE_URL E), truthy (SUPABASE_KEY E) with
  | Some supabaseUrl, Some supabaseKey =>
    try_catch
      (pageResp <- fetchGarageStatusPage E sourceUrl ;;
       if negb (ok pageResp) then
         let body := text_or_empty pageResp in
         ret (Res [] 502
                [("error"%string,
                  JStr (lit "Failed to fetch garage status page"));
                 ("status"%string, JNum (r_status pageResp));
                 ("body"%string, JStr (firstn 500 body))])
       else
         html <- read_text pageResp ;;
         let text := htmlToText html in
         let lastUpdated := parseLastUpdated text in
         let statuses := parseStatuses text in
         fetchedAt <- new_date_iso E ;;
         let rows := make_rows fetchedAt lastUpdated statuses in
         if (length rows =? 0)%nat then
           ret (Res [] 200
                  [("ok"%string, JBool true);
                   ("inserted"%string, JNum 0);
                   ("fetchedAt"%string, JStr fetchedAt);
                   ("lastUpdated"%string, json_opt lastUpdated JNull);
                   ("statuses"%string, JStatuses statuses);
                   ("note"%string,
                    JStr (lit "No statuses parsed; nothing inserted"))])
         else
           let endpoint :=
             replace_re (Seq (Cls (chr_is "/")) EndIn) [] None supabaseUrl
             ++ lit "/rest/v1/garage_status" in
           posted <-
             try_catch
               (resp <- fetchWithTimeout E endpoint
                          (store_init supabaseKey rows) 10000 ;;
                ret (inl resp))
               (fun e =>
                  ret (inr (Res [] 502
                              [("error"%string,
                                JStr (lit "Supabase insert failed"));
                               ("message"%string, JStr (e_message e));
                               ("causeCode"%string,
                                json_opt (e_cause_code e) JUndefined);
                               ("fetchedAt"%string, JStr fetchedAt);
                               ("lastUpdated"%string,
                                json_opt lastUpdated JNull);
                               ("statuses"%string, JStatuses statuses)]))) ;;
           match posted with
           | inr failure => ret failure
           | inl resp =>
               if negb (ok resp) then
                 let body := text_or_empty resp in
                 ret (Res [] 502
                        [("error"%string, JStr (lit "Supabase insert failed"));
                         ("status"%string, JNum (r_status resp));
                         ("body"%string, JStr (firstn 2000 body));
                         ("fetchedAt"%string, JStr fetchedAt);
                         ("lastUpdated"%string, json_opt lastUpdated JNull);
                         ("statuses"%string, JStatuses statuses)])
               else
                 ret (Res [] 200
                        [("ok"%string, JBool true);
                         ("inserted"%string, JNum (Z.of_nat (length rows)));
                         ("fetchedAt"%string, JStr fetchedAt);
                         ("lastUpdated"%string, json_opt lastUpdated JNull);
                         ("statuses"%string, JStatuses statuses)])
           end)
      (fun e =>
         ret (Res [] 500
                [("error"%string, JStr (lit "Cron failed"));
                 ("message"%string, JStr (e_message e));
                 ("causeCode"%string, json_opt (e_cause_code e) JUndefined)]))
  | _, _ =>
      ret (Res [] 500
             [("error"%string,
               JStr (lit "SUPABASE_URL or SUPABASE_KEY is not set"))])
  end
  end.

(** ** frontend/src/lib/garages.ts and supabaseClient.ts *)

Definition GARAGES : list str :=
  [lit "South Garage"; lit "North Garage"; lit "West Garage";
   lit "South Campus Garage"].

Definition supabaseEnvError (supabaseUrl supabaseAnonKey : option str)
    : option str :=
  match truthy supabaseUrl, truthy supabaseAnonKey with
  | Some _, Some _ => None
  | _, _ =>
      Some (lit "Missing VITE_SUPABASE_URL and/or VITE_SUPABASE_ANON_KEY. Create frontend/.env from frontend/.env.example.")
  end.

(** ** frontend/src/hooks/useGarageStatus.ts *)

Record GarageStatusState : Type := State {
  rows : list GarageStatusRow;
  isLoading : bool;
  error_message : option str;
  refreshedAt : option Z
}.

Definition initial_state : GarageStatusState := State [] true None None.

(** What the store query returns: [{ data, error }]. *)
Inductive query_result : Type :=
| QueryError : str -> query_result
| QueryData : option (list GarageStatusRow) -> query_result.

(** [fetchRows]: the state after the calls of [setState] it makes, given
    the configuration, the answer of the store and the time of the
    answer.  The client exists exactly when there is no configuration
    error. *)
Definition fetchRows (envError : option str) (client : bool)
    (answer : query_result) (now : Z) (prev : GarageStatusState)
    : GarageStatusState :=
  let prev := State (rows prev) true None (refreshedAt prev) in
  if match envError with Some _ => true | None => false end || negb client
  then
    State (rows prev) false
      (Some match envError with
            | Some e => e
            | None => lit "Supabase client not initialized"
            end)
      (refreshedAt prev)
  else
    match answer with
    | QueryError message =>
        State (rows prev) false (Some message) (refreshedAt prev)
    | QueryData data =>
        State (match data with Some d => d | None => [] end) false None
          (Some now)
    end.

(** A JavaScript [Map] with string keys: [object] with [has]. *)
Definition map_has {V} (m : object V) (k : str) : bool :=
  match obj_get m k with Some _ => true | None => false end.

Definition latestByGarage (rs : list GarageStatusRow)
    : object GarageStatusRow :=
  fold_left
    (fun map row =>
       if negb (map_has map (garage row)) then obj_set map (garage row) row
       else map)
    rs [].

Definition historyByGarage (rs : list GarageStatusRow)
    : object (list GarageStatusRow) :=
  fold_left
    (fun map row =>
       match obj_get map (garage row) with
       | Some arr => obj_set map (garage row) (arr ++ [row])
       | None => obj_set map (garage row) [row]
       end)
    rs [].

(** ** Dates

    Time values are milliseconds since the epoch.  The calendar is the
    proleptic Gregorian one of ECMAScript.  Local time is UTC moved by
    the offset of the time zone, which may change in the course of the
    year. *)

Definition msPerDay : Z := 86400000.

(** The local time zone, in ms: the offset of local time from UTC at an
    instant ([LocalTZA(t, true)] of ECMAScript), and the offset by which
    a local time value is turned into an instant ([LocalTZA(t, false)];
    for a local time that a change of the offset skips or repeats, it
    is the offset before the change). *)
Record zone : Type := Zone {
  offset_at : Z -> Z;
  offset_of_local : Z -> Z
}.

(** Year, month (1-12) and day of month of a day number. *)
Definition civil_from_days (z : Z) : Z * Z * Z :=
  let z := z + 719468 in
  let era := z / 146097 in
  let doe := z - era * 146097 in
  let yoe := (doe - doe / 1460 + doe / 36524 - doe / 146096) / 365 in
  let y := yoe + era * 400 in
  let doy := doe - (365 * yoe + yoe / 4 - yoe / 100) in
  let mp := (5 * doy + 2) / 153 in
  let d := doy - (153 * mp + 2) / 5 + 1 in
  let m := if mp <? 10 then mp + 3 else mp - 9 in
  (if m <=? 2 then y + 1 else y, m, d).

(** Day number of a year, a month (1-12) and a day of month. *)
Definition days_from_civil (y m d : Z) : Z :=
  let y := if m <=? 2 then y - 1 else y in
  let era := y / 400 in
  let yoe := y - era * 400 in
  let doy := (153 * (if 2 <? m then m - 3 else m + 9) + 2) / 5 + d - 1 in
  let doe := yoe * 365 + yoe / 4 - yoe / 100 + doy in
  era * 146097 + doe - 719468.

(** [MakeDay] of ECMAScript. *)
Definition MakeDay (year month date : Z) : Z :=
  let ym := year + month / 12 in
  let mn := month mod 12 in
  days_from_civil ym (mn + 1) 1 + date - 1.

(** [Number.prototype.toString] of an integer of magnitude up to
    2^53, of which it writes every digit.  (Of a larger double it
    writes the shortest decimal that identifies it, and from 10^21 on
    an exponent; that is not described here.) *)
Definition int_to_string (n : Z) : str :=
  list_ascii_of_string (DecimalString.NilZero.string_of_int (Z.to_int n)).

(** [Number(s)] for the parts of a day key, which are runs of digits or
    empty. *)
Definition to_number (s : str) : number :=
  match DecimalString.NilEmpty.uint_of_string (string_of_list_ascii s) with
  | Some u => to_double (Z.of_uint u)
  | None => NaN
  end.

(** [String.prototype.split] at a character. *)
Fixpoint split_on (sep : ascii) (s : str) : list str :=
  match s with
  | [] => [[]]
  | c :: s' =>
      if Ascii.eqb c sep then [] :: split_on sep s'
      else match split_on sep s' with
           | h :: t => (c :: h) :: t
           | [] => [[c]]
           end
  end.

(** ** Doubles

    The statuses are integers held in doubles.  Their sums are again
    integers held in doubles, or an infinity. *)

Inductive double : Type :=
| Fin : Z -> double
| PosInf : double
| NegInf : double.

(** The double nearest to an integer (ties to even); an infinity
    beyond the largest double. *)
Definition round_double (v : Z) : double :=
  match to_double (Z.abs v) with
  | Num w => Fin (Z.sgn v * w)
  | _ => if 0 <? v then PosInf else NegInf
  end.

(** [a + b] for a finite [b]. *)
Definition add_double (a : double) (b : Z) : double :=
  match a with
  | Fin v => round_double (v + b)
  | PosInf => PosInf
  | NegInf => NegInf
  end.

(** The integer nearest to [num / den], the even one of two that are
    equally near. *)
Definition nearest_even (num den : Z) : Z :=
  let q := num / den in
  let r := num mod den in
  if (den <? 2 * r) || ((2 * r =? den) && Z.odd q) then q + 1 else q.

(** [a / (n * 2^e)] as a fraction of two integers. *)
Definition scaled (a n e : Z) : Z * Z :=
  if 0 <=? e then (a, n * 2 ^ e) else (a * 2 ^ (- e), n).

(** The double nearest to the quotient [a / n] of two positive integers
    that are doubles: its significand [m] and its exponent [e], for the
    value [m * 2^e].  The exponent is the one that puts the significand
    between 2^52 and 2^53, and not below -1074. *)
Definition div_double (a n : Z) : Z * Z :=
  let e0 := Z.log2 a - Z.log2 n - 52 in
  let '(num0, den0) := scaled a n e0 in
  let e := Z.max (if 2 ^ 52 * den0 <=? num0 then e0 else e0 - 1) (-1074) in
  let '(num, den) := scaled a n e in
  (nearest_even num den, e).

(** [Math.round] of the double [m * 2^e]: the nearest integer, a half
    goes up. *)
Definition Math_round (m e : Z) : Z :=
  if 0 <=? e then m * 2 ^ e else (2 * m + 2 ^ (- e)) / 2 ^ (1 - e).

(** [Math.round(s / n)] for a sum [s] and a positive integer [n]. *)
Definition round_quotient (s : double) (n : Z) : double :=
  match s with
  | Fin v =>
      if v =? 0 then Fin 0
      else
        let '(m, e) := div_double (Z.abs v) n in
        Fin (Math_round (Z.sgn v * m) e)
  | PosInf => PosInf
  | NegInf => NegInf
  end.

(** ** frontend/src/components/AreaChart.tsx *)

Record DailyData : Type := Daily {
  date : str;
  values : object double
}.

Section AreaChart.

(** The time zone of the browser. *)
Variable zn : zone.

(** [new Date(s).getTime()] of a string; [None] for an invalid date. *)
Variable date_parse : str -> option Z.

(** [Intl.DateTimeFormat(undefined, { month, day }).format]. *)
Variable format_date : option Z -> str.

(** [LocalTime(t)]. *)
Definition LocalTime (t : Z) : Z := t + offset_at zn t.

Definition getFullYear (t : Z) : Z :=
  let '(y, _, _) := civil_from_days (LocalTime t / msPerDay) in y.

Definition getMonth (t : Z) : Z :=
  let '(_, m, _) := civil_from_days (LocalTime t / msPerDay) in m - 1.

Definition getDate (t : Z) : Z :=
  let '(_, _, d) := civil_from_days (LocalTime t / msPerDay) in d.

(** [new Date(year, month, day).getTime()]: the instant of the local
    time 0:00 of that date; a year from 0 to 99 stands for
    1900 + year. *)
Definition new_Date (year month day : Z) : Z :=
  let yr := if (0 <=? year) && (year <=? 99) then 1900 + year else year in
  let t := MakeDay yr month day * msPerDay in
  t - offset_of_local zn t.

Definition getDayKey (t : Z) : str :=
  int_to_string (getFullYear t) ++ lit "-"
  ++ int_to_string (getMonth t) ++ lit "-"
  ++ int_to_string (getDate t).

(** [const [year, month, day] = key.split("-").map(Number)] followed by
    [new Date(year, month, day)]; [None] when a part is missing or not a
    number. *)
Definition key_date (key : str) : option Z :=
  match map to_number (split_on "-" key) with
  | Num year :: Num month :: Num day :: _ => Some (new_Date year month day)
  | _ => None
  end.

(** The comparator of the sort of the days; a [NaN] counts as 0. *)
Definition compare_days (a b : str) : Z :=
  match key_date a, key_date b with
  | Some dateA, Some dateB => dateA - dateB
  | _, _ => 0
  end.

(** The first loop: [dayMap]. *)
Definition add_row (dayMap : object (object (list Z)))
    (row : GarageStatusRow) : object (object (list Z)) :=
  match fetched_at row with
  | [] => dayMap
  | _ :: _ =>
      match date_parse (fetched_at row) with
      | None => dayMap
      | Some t =>
          let dayKey := getDayKey t in
          let dayMap :=
            if negb (map_has dayMap dayKey) then obj_set dayMap dayKey []
            else dayMap in
          let garageMap :=
            match obj_get dayMap dayKey with Some g => g | None => [] end in
          let garageMap :=
            if negb (map_has garageMap (garage row))
            then obj_set garageMap (garage row) []
            else garageMap in
          let arr :=
            match obj_get garageMap (garage row) with
            | Some a => a | None => [] end in
          obj_set dayMap dayKey
            (obj_set garageMap (garage row) (arr ++ [status row]))
      end
  end.

Definition build_dayMap (rs : list GarageStatusRow)
    : object (object (list Z)) :=
  fold_left add_row rs [].

Definition sortedDays (dayMap : object (object (list Z))) : list str :=
  js_sort compare_days (map fst dayMap).

(** [statuses.length > 0
      ? Math.round(statuses.reduce((a, b) => a + b, 0) / statuses.length)
      : 0]. *)
Definition average (statuses : list Z) : double :=
  if (0 <? length statuses)%nat
  then round_quotient (fold_left add_double statuses (Fin 0))
         (Z.of_nat (length statuses))
  else Fin 0.

(** The body of the second loop. *)
Definition data_point (dayMap : object (object (list Z))) (dayKey : str)
    : DailyData :=
  let garageMap :=
    match obj_get dayMap dayKey with Some g => g | None => [] end in
  Daily (format_date (key_date dayKey))
    (fold_left
       (fun dataPoint garage =>
          let statuses :=
            match obj_get garageMap garage with Some a => a | None => [] end in
          obj_set dataPoint garage (average statuses))
       GARAGES []).

Definition dailyData (rs : list GarageStatusRow) : list DailyData :=
  match rs with
  | [] => []
  | _ :: _ =>
      let dayMap := build_dayMap rs in
      match dayMap with
      | [] => []
      | _ :: _ => map (data_point dayMap) (sortedDays dayMap)
      end
  end.

End AreaChart.

(** ** Vocabulary of the statements *)

(** The three codes of a failed verification of the TLS chain. *)
Definition is_tls_code (code : option str) : Prop :=
  code = Some (lit "UNABLE_TO_VERIFY_LEAF_SIGNATURE")
  \/ code = Some (lit "DEPTH_ZERO_SELF_SIGNED_CERT")
  \/ code = Some (lit "SELF_SIGNED_CERT_IN_CHAIN").

(** The events that a computation adds to a trace [t0]. *)
Definition new_events (t0 t : list event) : list event :=
  skipn (length t0) t.

(** The [error] member of the body of a reply: the category under which
    the handler reports a failure. *)
Definition error_label (r : http_response) : option json :=
  option_map snd
    (find (fun kv => String.eqb (fst kv) "error") (res_json r)).

(** The reply of the outer [catch] of the handler. *)
Definition cron_failed (e : error) : http_response :=
  Res [] 500
    [("error"%string, JStr (lit "Cron failed"));
     ("message"%string, JStr (e_message e));
     ("causeCode"%string, json_opt (e_cause_code e) JUndefined)].

(** ** Example runs *)

Definition example_page : str :=
  lit "<html><head><style>p { color: red }</style></head><body><h1>Garage Status</h1><p>Last updated 2/3/2025 10:15:00 AM <a href='#'>Refresh</a></p><h2>South Garage</h2><p>377 S. 7th St., San Jose, CA 95112</p><span> 45 %</span><h2>West Garage</h2><p>350 S. 4th St.</p><span>Full</span><script>var x = '<b>';</script></body></html>".

Definition example_request : request :=
  Request (lit "GET") (Some (lit "Bearer s3cret")) QAbsent.

Definition example_env (page : Z * settled) (fallback : get_outcome)
    (store : Z * settled) : env :=
  Env (Some (lit "s3cret")) (Some (lit "https://db.example/"))
    (Some (lit "key"))
    (fun url _ => if str_eqb url sourceUrl then page else store)
    (fun _ => fallback)
    (fun n => lit "2025-02-03T18:15:0" ++ int_to_string (Z.of_nat n)
              ++ lit ".000Z").

Definition created : settled := Resolves (Response true 201 (TextOk [])).

Definition page_ok : settled :=
  Resolves (Response true 200 (TextOk example_page)).

Definition tls_error : error :=
  Error (lit "TypeError") (lit "fetch failed")
    (Some (lit "DEPTH_ZERO_SELF_SIGNED_CERT")).

Definition refused_error : error :=
  Error (lit "TypeError") (lit "fetch failed") (Some (lit "ECONNREFUSED")).

(** The page answers in time. *)
Definition env_ok : env :=
  example_env (120, page_ok) (GetError refused_error) (80, created).

(** The certificate of the page cannot be verified. *)
Definition env_tls : env :=
  example_env (40, Rejects tls_error)
    (GetResponse (Some 200) example_page) (80, created).

(** The page does not answer within ten seconds. *)
Definition env_slow : env :=
  example_env (10000, page_ok) (GetError refused_error) (80, created).

(** The connection to the page is refused. *)
Definition env_refused : env :=
  example_env (3, Rejects refused_error) (GetError refused_error)
    (80, created).

(** Two decimal digits. *)
Definition two_digits (a b : ascii) : option Z :=
  if is_digit a && is_digit b then Some (10 * digit_val a + digit_val b)
  else None.

(** The instant of a date and a time of day given in UTC, as V8 reads
    them in a time stamp: a month from 1 to 12, a day from 1 to 31 (a
    day past the end of the month counts on into the next month), a
    time of day up to 23:59:59.999, or 24:00:00.000. *)
Definition utc_instant (y mo d h mi se ms : Z) : option Z :=
  if (1 <=? mo) && (mo <=? 12) && (1 <=? d) && (d <=? 31)
     && (((h <=? 23) && (mi <=? 59) && (se <=? 59))
         || ((h =? 24) && (mi =? 0) && (se =? 0) && (ms =? 0)))
  then Some (MakeDay y (mo - 1) d * msPerDay
             + h * 3600000 + mi * 60000 + se * 1000 + ms)
  else None.

(** [Date.parse] on the time stamps of the forms [YYYY-MM-DDTHH:mm:ssZ]
    and [YYYY-MM-DDTHH:mm:ss.sssZ] (the form that [toISOString]
    writes); [None] for a stamp of these forms that is not a date.  The
    other texts that [Date.parse] reads as dates are not read here:
    this function serves the examples, whose stamps are of these
    forms. *)
Definition iso_parse (s : str) : option Z :=
  let fields y1 y2 y3 y4 m1 m2 d1 d2 h1 h2 n1 n2 s1 s2 (ms : option Z) :=
    match two_digits y1 y2, two_digits y3 y4, two_digits m1 m2,
          two_digits d1 d2, two_digits h1 h2, two_digits n1 n2,
          two_digits s1 s2, ms with
    | Some ya, Some yb, Some mo, Some d, Some h, Some mi, Some se, Some ms =>
        utc_instant (100 * ya + yb) mo d h mi se ms
    | _, _, _, _, _, _, _, _ => None
    end in
  match s with
  | [y1; y2; y3; y4; c1; m1; m2; c2; d1; d2; c3; h1; h2; c4; n1; n2; c5;
     s1; s2; c6] =>
      if str_eqb [c1; c2; c3; c4; c5; c6] (lit "--T::Z")
      then fields y1 y2 y3 y4 m1 m2 d1 d2 h1 h2 n1 n2 s1 s2 (Some 0)
      else None
  | [y1; y2; y3; y4; c1; m1; m2; c2; d1; d2; c3; h1; h2; c4; n1; n2; c5;
     s1; s2; c6; f1; f2; f3; c7] =>
      if str_eqb [c1; c2; c3; c4; c5; c6; c7] (lit "--T::.Z")
      then fields y1 y2 y3 y4 m1 m2 d1 d2 h1 h2 n1 n2 s1 s2
             (if is_digit f1 && is_digit f2 && is_digit f3
              then Some (100 * digit_val f1 + 10 * digit_val f2
                         + digit_val f3)
              else None)
      else None
  | _ => None
  end.

(** The instant of a time stamp in that format. *)
Definition iso_instant (s : str) : Z :=
  match iso_parse s with Some t => t | None => 0 end.

(** Records ordered by [fetched_at], the most recent first. *)
Definition descending (instant : str -> Z) (rs : list GarageStatusRow)
    : Prop :=
  Sorted (fun a b => instant (fetched_at b) <= instant (fetched_at a)) rs.

(** The records of the example: garage A at 10:00 (50) and at 14:00
    (70), garage B at 12:00 (100), all on 2024-01-01. *)
Definition rowA50 : GarageStatusRow :=
  Row (lit "2024-01-01T10:00:00Z") None (lit "A") 50 sourceUrl.

Definition rowA70 : GarageStatusRow :=
  Row (lit "2024-01-01T14:00:00Z") None (lit "A") 70 sourceUrl.

Definition rowB100 : GarageStatusRow :=
  Row (lit "2024-01-01T12:00:00Z") None (lit "B") 100 sourceUrl.

(** In the order in which the example lists them. *)
Definition example_as_listed : list GarageStatusRow :=
  [rowA50; rowA70; rowB100].

(** Ordered by [fetched_at], the most recent first. *)
Definition example_descending : list GarageStatusRow :=
  [rowA70; rowB100; rowA50].

(** ** The matches of a pattern

    [matches r st st'] : the pattern [r] can match from the state [st]
    and leave the state [st'].  The matcher [run] finds one of these
    matches, the first in its order of preference, when there is
    one. *)

Definition last_char (x : str) (prev : option ascii) : option ascii :=
  fold_left (fun _ c => Some c) x prev.

Inductive matches : re -> mstate -> mstate -> Prop :=
| M_Eps : forall st, matches Eps st st
| M_Cls : forall p c s prev cap,
    p c = true ->
    matches (Cls p) (MState prev (c :: s) cap) (MState (Some c) s cap)
| M_Seq : forall a b st1 st2 st3,
    matches a st1 st2 -> matches b st2 st3 -> matches (Seq a b) st1 st3
| M_AltL : forall a b st st', matches a st st' -> matches (Alt a b) st st'
| M_AltR : forall a b st st', matches b st st' -> matches (Alt a b) st st'
| M_Rep : forall greedy n p x s prev cap,
    forallb p x = true -> (n <= length x)%nat ->
    matches (Rep greedy n p) (MState prev (x ++ s) cap)
      (MState (last_char x prev) s cap)
| M_Cap : forall a st st',
    matches a st st' ->
    matches (Cap a) st
      (MState (m_prev st') (m_rest st')
         (Some (firstn (length (m_rest st) - length (m_rest st'))
                  (m_rest st))))
| M_WordB : forall st,
    xorb (prev_word st) (next_word st) = true -> matches WordB st st
| M_EndIn : forall prev cap,
    matches EndIn (MState prev [] cap) (MState prev [] cap).

(** The batch of the run in [env_ok]. *)
Definition example_batch : list GarageStatusRow :=
  make_rows (now_iso env_ok 1) (parseLastUpdated (htmlToText example_page))
    (parseStatuses (htmlToText example_page)).

(** All characters. *)
Definition all_chars : str := map ascii_of_nat (seq 0 256).

Definition starts_ws (s : str) : bool :=
  match s with c :: _ => is_ws c | [] => false end.

(** What group 1 of [status_pattern] can hold: "Full" in any case, or
    digits, white space and a percent sign. *)
Definition is_full (c : str) : Prop := toLowerCase c = lit "full".

Definition is_percentage (c ds : str) : Prop :=
  exists ws, c = ds ++ ws ++ lit "%" /\ ds <> []
             /\ forallb is_digit ds = true /\ forallb is_ws ws = true.

(** What the extractor records for a garage: the matched value of a
    part [seg] of the text decides it. *)
Definition recorded_from (text g : str) (v : Z) : Prop :=
  exists (seg : str) (m : mstate),
    (exists a b, text = a ++ seg ++ b)
    /\ search (status_pattern g) seg = Some m
    /\ ((is_full (group1 m) /\ v = 100)
        \/ (exists ds, is_percentage (group1 m) ds
                       /\ to_double (decimal ds) = Num v)).

(** ** What each pattern of the normalizer matches

    For each pattern, the input that is left after a match at the start
    of a text, as a function of the text. *)

Definition same_char (ci : bool) (a c : ascii) : bool :=
  if ci then chr_ci a c else chr_is a c.

(** The text after the prefix [l], when the text starts with it. *)
Fixpoint strip_prefix (ci : bool) (l s : str) : option str :=
  match l with
  | [] => Some s
  | a :: l' =>
      match s with
      | c :: s' => if same_char ci a c then strip_prefix ci l' s' else None
      | [] => None
      end
  end.

(** The text after the first occurrence of [l]. *)
Fixpoint after_first (ci : bool) (l s : str) : option str :=
  match strip_prefix ci l s with
  | Some rest => Some rest
  | None =>
      match s with
      | _ :: s' => after_first ci l s'
      | [] => None
      end
  end.

Fixpoint drop_while (p : ascii -> bool) (s : str) : str :=
  match s with
  | c :: s' => if p c then drop_while p s' else s
  | [] => []
  end.

Definition after_block (open close : string) (s : str) : option str :=
  match strip_prefix true (lit open) s with
  | Some s1 => after_first true (lit close) s1
  | None => None
  end.

Definition after_tag (s : str) : option str :=
  match s with
  | c :: d :: s' =>
      if Ascii.eqb c "<" && not_gt d then
        match drop_while not_gt s' with
        | e :: rest => Some rest
        | [] => None
        end
      else None
  | _ => None
  end.

Definition after_nbsp (s : str) : option str :=
  strip_prefix false (lit "&nbsp;") s.

Definition after_spaces (s : str) : option str :=
  match s with
  | c :: s' => if is_ws c then Some (drop_ws s') else None
  | [] => None
  end.

(** The result of replacing every match by [rep], scanning from the
    left; [f] gives the text after a match at the start. *)
Inductive replaced (f : str -> option str) (rep : str) : str -> str -> Prop :=
| Rp_nil : replaced f rep [] []
| Rp_copy : forall c s t,
    f (c :: s) = None -> replaced f rep s t ->
    replaced f rep (c :: s) (c :: t)
| Rp_match : forall x s t,
    x <> [] -> f (x ++ s) = Some s -> replaced f rep s t ->
    replaced f rep (x ++ s) (rep ++ t).

(** Properties of a normalized text. *)
Definition has_gt (s : str) : bool := existsb (fun c => Ascii.eqb c ">") s.

Definition tag_at (s : str) : bool :=
  match s with
  | c :: d :: s' => Ascii.eqb c "<" && not_gt d && has_gt s'
  | _ => false
  end.

Fixpoint no_tag (s : str) : bool :=
  match s with
  | [] => true
  | _ :: s' => negb (tag_at s) && no_tag s'
  end.

Fixpoint no_nbsp (s : str) : bool :=
  match s with
  | [] => true
  | _ :: s' => negb (starts_with (lit "&nbsp;") s) && no_nbsp s'
  end.

Fixpoint single_spaced (s : str) : bool :=
  match s with
  | [] => true
  | c :: s' =>
      (if is_ws c then Ascii.eqb c " " && negb (starts_ws s') else true)
      && single_spaced s'
  end.

Definition normal_form (s : str) : Prop :=
  no_tag s = true /\ no_nbsp s = true /\ single_spaced s = true
  /\ starts_ws s = false /\ starts_ws (rev s) = false.

(** A [<script>] or [<style>] block: the opening text [o], equal to
    [open] up to case, a content [c] that does not hold the closing
    text, and the closing text [cl], equal to [close] up to case.  The
    content reaches from the end of the tag name to the closing tag: it
    holds the attributes and the [>] of the opening tag as well. *)
Definition block (open close : string) (o c cl : str) : Prop :=
  map canon o = map canon (lit open)
  /\ map canon cl = map canon (lit close)
  /\ after_first true (lit close) c = None.

(** The passes of the normalizer that follow the removal of the script
    blocks. *)
Definition after_scripts (s : str) : str :=
  trim
    (replace_all spaces_re sp
       (replace_all nbsp_re sp
          (replace_all tag_re sp (replace_all style_re sp s)))).

Definition lt_led (b : str) : bool :=
  match b with
  | z :: _ => Ascii.eqb (canon z) "<"
  | [] => false
  end.

Definition no_lt (l : str) : bool :=
  forallb (fun a => negb (Ascii.eqb (canon a) "<")) l.

(** ** A page that lists each garage once

    The text of such a page: some text [pre], then for each garage its
    name as the page writes it, some text [en_mid], a space, the value
    [en_token], and a space before the next name. *)

Record entry : Type := Entry {
  en_name : str;
  en_written : str;
  en_mid : str;
  en_token : str
}.

Definition body (e : entry) (last : bool) : str :=
  en_mid e ++ sp ++ en_token e ++ (if last then [] else sp).

Definition segment (e : entry) (last : bool) : str :=
  en_written e ++ body e last.






(** The number of places at which [p] occurs in [s]. *)
Fixpoint count_from (p s : str) : nat :=
  ((if starts_with p s then 1 else 0)
   + match s with
     | _ :: s' => count_from p s'
     | [] => 0
     end)%nat.

(** The number of occurrences of a name in a text, whatever the case of
    the letters. *)
Definition count_ci (name text : str) : nat :=
  count_from (toLowerCase name) (toLowerCase text).





(** ** Vocabulary of the daily averages *)

(** The instant of a record, when its time stamp is not empty and is a
    valid date. *)
Definition valid_time (date_parse : str -> option Z) (row : GarageStatusRow)
    : option Z :=
  match fetched_at row with
  | [] => None
  | _ :: _ => date_parse (fetched_at row)
  end.

(** The number of the local day of an instant. *)
Definition local_day (zn : zone) (t : Z) : Z :=
  (t + offset_at zn t) / msPerDay.

(** The instants that the code handles without surprise: local years
    from 100 (below, [new Date(year, ...)] adds 1900) to 275760, the
    last year of a Date. *)
Definition in_range (zn : zone) (t : Z) : Prop :=
  100 <= getFullYear zn t <= 275760.

(** A zone whose offset never changes by a whole day or more, as when
    clocks are moved by an hour for the summer. *)
Definition steady (zn : zone) : Prop :=
  forall a b, Z.abs (offset_of_local zn a - offset_of_local zn b) < msPerDay.

(** The local time 0:00 of a day exists in the zone, or is skipped by
    less than a day: the instant that [new Date(year, month, day)]
    gives for the day is an instant of that day. *)
Definition starts_in_day (zn : zone) (day : Z) : Prop :=
  let t := day * msPerDay in
  0 <= offset_at zn (t - offset_of_local zn t) - offset_of_local zn t
    < msPerDay.

(** The zone at a constant offset from UTC. *)
Definition fixed_zone (tz : Z) : zone := Zone (fun _ => tz) (fun _ => tz).

(** The readings of a garage on a day, in the order of the records. *)
Definition statuses_on (zn : zone) (date_parse : str -> option Z)
    (rs : list GarageStatusRow) (day g : str) : list Z :=
  map status
    (filter
       (fun row =>
          match valid_time date_parse row with
          | Some t => str_eqb (getDayKey zn t) day && str_eqb (garage row) g
          | None => false
          end)
       rs).


(** The nearest integer to the quotient of two integers, the second
    positive; a half goes up. *)
Definition round_div (s n : Z) : Z := (2 * s + n) / (2 * n).

Definition sum (l : list Z) : Z := fold_left Z.add l 0.

(** The mean of some integers, rounded to the nearest integer; 0 when
    there is none. *)
Definition mean (l : list Z) : Z :=
  match l with
  | [] => 0
  | _ :: _ => round_div (sum l) (Z.of_nat (length l))
  end.

(** Statuses and a number of records for which the sums of the chart
    are exact in doubles, and their quotients near enough to the true
    ones to round to the same integer: each status times the number of
    records is below 2^52. *)
Definition small_statuses (rs : list GarageStatusRow) : Prop :=
  forall r, In r rs -> Z.abs (status r) * Z.of_nat (length rs) < 2 ^ 52.

(** A check of the calendar arithmetic on one day of a 400-year era. *)
Definition civil_check (doe : Z) : bool :=
  let yoe := (doe - doe / 1460 + doe / 36524 - doe / 146096) / 365 in
  let doy := doe - (365 * yoe + yoe / 4 - yoe / 100) in
  let mp := (5 * doy + 2) / 153 in
  let d := doy - (153 * mp + 2) / 5 + 1 in
  (0 <=? yoe) && (yoe <=? 399) && (0 <=? mp) && (mp <=? 11)
  && (1 <=? d) && (d <=? 31).

Fixpoint all_from (n : nat) (z : Z) (P : Z -> bool) : bool :=
  match n with
  | O => true
  | S n' => P z && all_from n' (z + 1) P
  end.

(** The example with the names of two known garages for A and B. *)
Definition known_example : list GarageStatusRow :=
  [Row (lit "2024-01-01T10:00:00Z") None (lit "South Garage") 50 sourceUrl;
   Row (lit "2024-01-01T14:00:00Z") None (lit "South Garage") 70 sourceUrl;
   Row (lit "2024-01-01T12:00:00Z") None (lit "North Garage") 100 sourceUrl].


(** Pacific time with the daylight saving time of 2024: clocks are an
    hour ahead from 10 March, 2:00 (10:00 UTC), to 3 November, 2:00
    (9:00 UTC). *)
Definition pacific_2024 : zone :=
  Zone
    (fun t =>
       if (1710064800000 <=? t) && (t <? 1730624400000)
       then -25200000 else -28800000)
    (fun t =>
       if (1710039600000 <=? t) && (t <? 1730599200000)
       then -25200000 else -28800000).

(** The readings that [dayMap] holds for a garage on a day. *)
Definition readings (dayMap : object (object (list Z))) (day g : str)
    : list Z :=
  match obj_get dayMap day with
  | Some garageMap =>
      match obj_get garageMap g with Some a => a | None => [] end
  | None => []
  end.

(** The instant that the sort computes for a day key. *)
Definition day_instant (zn : zone) (key : str) : Z :=
  match key_date zn key with Some x => x | None => 0 end.

(** The days of the chart, in its order. *)
Definition days_of (zn : zone) (date_parse : str -> option Z)
    (rs : list GarageStatusRow) : list str :=
  sortedDays zn (build_dayMap zn date_parse rs).

(** A date format for the examples. *)
Definition example_format (d : option Z) : str :=
  match d with
  | Some _ => lit "Jan 1"
  | None => lit "Invalid Date"
  end.

(** ** frontend/src/hooks/useGarageStatus.ts: the other derived values *)

(** [latestFetchedAt]: [new Date(top)] when the first record has a time
    stamp that is not empty; the inner [None] is an invalid date. *)
Definition latestFetchedAt (date_parse : str -> option Z)
    (rs : list GarageStatusRow) : option (option Z) :=
  match rs with
  | [] => None
  | row :: _ =>
      match fetched_at row with
      | [] => None
      | _ :: _ => Some (date_parse (fetched_at row))
      end
  end.

(** The hook over time: the calls of [fetchRows] (the first one on
    mount, then one per interval or per click on Refresh), each with the
    answer of the store and the time of that answer, one after the
    other.  The configuration is read once, when the module of the
    client is loaded: the client exists exactly when there is no
    configuration error. *)
Definition refreshes (supabaseUrl supabaseAnonKey : option str)
    (answers : list (query_result * Z)) : GarageStatusState :=
  let envError := supabaseEnvError supabaseUrl supabaseAnonKey in
  let client := match envError with Some _ => false | None => true end in
  fold_left
    (fun state '(answer, now) => fetchRows envError client answer now state)
    answers initial_state.

(** ** frontend/src/components/HistoryTable.tsx and pages/Dashboard.tsx *)

(** [props.rows.slice(0, 25)]. *)
Definition HistoryTable (rs : list GarageStatusRow) : list GarageStatusRow :=
  firstn 25 rs.

(** The rows of the history tab of a garage:
    [<HistoryTable rows={historyByGarage.get(garage) ?? []} />]. *)
Definition history_tab (rs : list GarageStatusRow) (garage : str)
    : list GarageStatusRow :=
  HistoryTable
    (match obj_get (historyByGarage rs) garage with
     | Some arr => arr
     | None => []
     end).

(** The text of the badge of a row:
    [r.status === 100 ? "Full" : `${r.status}%`]. *)
Definition badge (status : Z) : str :=
  if status =? 100 then lit "Full" else int_to_string status ++ lit "%".

(** ** Vocabulary of the further properties *)

(** The records of a garage, in the order of the list. *)
Definition rows_of (g : str) (rs : list GarageStatusRow)
    : list GarageStatusRow :=
  filter (fun r => str_eqb (garage r) g) rs.

(** The garages of a list of records, each once, in the order of their
    first record. *)
Fixpoint first_seen (seen : list str) (rs : list GarageStatusRow)
    : list str :=
  match rs with
  | [] => []
  | r :: rs' =>
      if existsb (str_eqb (garage r)) seen then first_seen seen rs'
      else garage r :: first_seen (garage r :: seen) rs'
  end.

(** The data of the last successful read among [answers], and its time. *)
Fixpoint last_read (answers : list (query_result * Z))
    : option (list GarageStatusRow * Z) :=
  match answers with
  | [] => None
  | (answer, now) :: rest =>
      match last_read rest with
      | Some x => Some x
      | None =>
          match answer with
          | QueryData data =>
              Some (match data with Some d => d | None => [] end, now)
          | QueryError _ => None
          end
      end
  end.

(** The instant of a time stamp, 0 when it is not a valid date. *)
Definition instant_of (date_parse : str -> option Z) (s : str) : Z :=
  match date_parse s with Some t => t | None => 0 end.

(** The error that a call of [fetchRows] leaves, given the answer. *)
Definition error_of (answer : query_result * Z) : option str :=
  match answer with
  | (QueryError message, _) => Some message
  | (QueryData _, _) => None
  end.

(** ** Vocabulary of the runs of the handler *)

(** The request is a GET or a HEAD. *)
Definition allowed (req : request) : Prop :=
  method req = lit "GET" \/ method req = lit "HEAD".

(** The request presents the secret: as a bearer token in the
    [Authorization] header, or as the query parameter [token] (the
    first one when the parameter is given several times). *)
Definition presents (req : request) (secret : str) : Prop :=
  authorization req = Some (lit "Bearer " ++ secret)
  \/ query_token req = QOne secret
  \/ exists rest, query_token req = QMany (secret :: rest).

(** The configuration value is set and not empty. *)
Definition is_set (v : option str) (s : str) : Prop :=
  v = Some s /\ s <> [].

(** The request for the page. *)
Definition page_request : event := EFetch sourceUrl empty_init.

(** The address of the table of the store, for a configured address
    [supabaseUrl]: [`${supabaseUrl.replace(/\/$/, "")}/rest/v1/garage_status`]. *)
Definition endpoint_of (supabaseUrl : str) : str :=
  replace_re (Seq (Cls (chr_is "/")) EndIn) [] None supabaseUrl
  ++ lit "/rest/v1/garage_status".

(** The reply to a run whose write to the store failed with an error. *)
Definition insert_failed (e : error) (fetchedAt : str)
    (lastUpdated : option str) (statuses : object Z) : http_response :=
  Res [] 502
    [("error"%string, JStr (lit "Supabase insert failed"));
     ("message"%string, JStr (e_message e));
     ("causeCode"%string, json_opt (e_cause_code e) JUndefined);
     ("fetchedAt"%string, JStr fetchedAt);
     ("lastUpdated"%string, json_opt lastUpdated JNull);
     ("statuses"%string, JStatuses statuses)].

(** The reply to a run whose write the store refused. *)
Definition insert_refused (resp : response) (fetchedAt : str)
    (lastUpdated : option str) (statuses : object Z) : http_response :=
  Res [] 502
    [("error"%string, JStr (lit "Supabase insert failed"));
     ("status"%string, JNum (r_status resp));
     ("body"%string, JStr (firstn 2000 (text_or_empty resp)));
     ("fetchedAt"%string, JStr fetchedAt);
     ("lastUpdated"%string, json_opt lastUpdated JNull);
     ("statuses"%string, JStatuses statuses)].

(** The reply to a run that wrote [n] records. *)
Definition inserted (n : nat) (fetchedAt : str)
    (lastUpdated : option str) (statuses : object Z) : http_response :=
  Res [] 200
    [("ok"%string, JBool true);
     ("inserted"%string, JNum (Z.of_nat n));
     ("fetchedAt"%string, JStr fetchedAt);
     ("lastUpdated"%string, json_opt lastUpdated JNull);
     ("statuses"%string, JStatuses statuses)].

(** The reply that follows the answer of the store to the write. *)
Definition reply_to_write (answer : Z * settled) (n : nat) (fetchedAt : str)
    (lastUpdated : option str) (statuses : object Z) : http_response :=
  let '(latency, outcome) := answer in
  if latency <? 10000 then
    match outcome with
    | Resolves resp =>
        if ok resp then inserted n fetchedAt lastUpdated statuses
        else insert_refused resp fetchedAt lastUpdated statuses
    | Rejects e => insert_failed e fetchedAt lastUpdated statuses
    end
  else insert_failed abort_error fetchedAt lastUpdated statuses.

(** The request passes the checks that precede the run. *)
Definition cleared (E : env) (req : request) : Prop :=
  allowed req
  /\ (exists secret, is_set (CRON_SECRET E) secret /\ presents req secret)
  /\ (exists url, is_set (SUPABASE_URL E) url)
  /\ (exists key, is_set (SUPABASE_KEY E) key).

(** The site answers with an error page. *)
Definition env_down : env :=
  example_env
    (50, Resolves (Response false 503 (TextOk (lit "Service Unavailable"))))
    (GetError refused_error) (80, created).

(** The site answers with a page that names no garage. *)
Definition env_blank : env :=
  example_env
    (50, Resolves
           (Response true 200
              (TextOk (lit "<html><body><p>Under maintenance</p></body></html>"))))
    (GetError refused_error) (80, created).

(** ** Vocabulary of the last-updated line *)

(** The text ends, or starts, with a character of a word. *)
Definition ends_word (s : str) : bool :=
  match last_char s None with Some c => is_word c | None => false end.

Definition starts_word (s : str) : bool :=
  match s with c :: _ => is_word c | [] => false end.

(** White space, then the word Refresh in any case. *)
Definition refresh_follows (post : str) : Prop :=
  exists ws r rest,
    post = ws ++ r ++ rest /\ ws <> [] /\ forallb is_ws ws = true
    /\ toLowerCase r = lit "refresh" /\ starts_word rest = false.

(** The end of [last_updated_re]: [(?:\s+Refresh\b|$)]. *)
Definition refresh_part : re :=
  Alt (Seq (plus is_ws) (Seq (literal true (lit "Refresh")) WordB)) EndIn.

(** The page that the site delivers, by the request that verifies the
    certificate (an answer within ten seconds) or, after a failure of
    that verification, by the one that skips it (an answer that arrives
    whole): an ok status and the text [html]. *)
Definition page_delivered (E : env) (html : str) : Prop :=
  (exists latency resp,
     net_fetch E sourceUrl empty_init = (latency, Resolves resp)
     /\ latency < 10000 /\ ok resp = true /\ r_text resp = TextOk html)
  \/ (exists latency e statusCode,
        net_fetch E sourceUrl empty_init = (latency, Rejects e)
        /\ latency < 10000 /\ is_tls_code (e_cause_code e)
        /\ https_get E sourceUrl = GetResponse (Some statusCode) html
        /\ 200 <= statusCode < 300).

(** ** Vocabulary of the escaping

    The syntax characters of a pattern ([SyntaxCharacter] of ECMAScript).
    Outside a class and without a backslash in front, each of them is
    an operator of the pattern; behind a backslash it stands for
    itself, as every other character does without one. *)
Definition syntax_character (c : ascii) : bool :=
  existsb (Ascii.eqb c) (lit "^$\.*+?()[]{}|").

(** [escaped_literal src s]: the source text [src] writes the text [s]
    with a backslash in front of each syntax character, and of no other
    character. *)
Inductive escaped_literal : str -> str -> Prop :=
| EL_nil : escaped_literal [] []
| EL_plain : forall c src s,
    syntax_character c = false -> escaped_literal src s ->
    escaped_literal (c :: src) (c :: s)
| EL_escaped : forall c src s,
    syntax_character c = true -> escaped_literal src s ->
    escaped_literal ("\"%char :: c :: src) (c :: s).

(** * Properties *)

Unset Implicit Arguments.

(** ** Strings and objects *)

Lemma str_eqb_eq (a b : str) : str_eqb a b = true <-> a = b.
Proof.
  revert b; induction a as [|x a IH]; intros [|y b]; simpl;
    try (split; (discriminate || reflexivity)).
  rewrite andb_true_iff, Ascii.eqb_eq, IH.
  split; [intros [-> ->]; reflexivity | intros H; inversion H; auto].
Qed.

Lemma str_eqb_refl (a : str) : str_eqb a a = true.
Proof. apply str_eqb_eq; reflexivity. Qed.

Lemma str_eqb_neq (a b : str) : str_eqb a b = false <-> a <> b.
Proof.
  rewrite <- str_eqb_eq. destruct (str_eqb a b); split; congruence.
Qed.

(** ** Page fetcher *)

Lemma has_code_tls (code : option str) :
  has_code tlsCodes code = true <-> is_tls_code code.
Proof.
  unfold is_tls_code, has_code, tlsCodes. destruct code as [c|]; simpl.
  - rewrite !orb_true_iff, !str_eqb_eq. split.
    + intros [H|[H|[H|H]]]; try discriminate; subst; auto.
    + intros [H|[H|H]]; inversion H; auto.
  - split; [discriminate | intros [H|[H|H]]; discriminate].
Qed.

Lemma fetchWithTimeout_trace (E : env) (url : str) (init : request_init)
    (ms : Z) (t0 : list event) :
  snd (fetchWithTimeout E url init ms t0) = t0 ++ [EFetch url init].
Proof.
  unfold fetchWithTimeout, bind, emit.
  destruct (net_fetch E url init) as [latency [resp|e]];
    destruct (latency <? ms); reflexivity.
Qed.

Lemma insecure_get_trace (E : env) (url : str) (t : list event) :
  snd (insecure_get E url t) = t ++ [EInsecureGet url].
Proof.
  unfold insecure_get, bind, emit.
  destruct (https_get E url) as [c d|e|]; reflexivity.
Qed.

Lemma app_one_neq {A} (l : list A) (x : A) : l ++ [x] <> l.
Proof.
  intros H. apply (f_equal (@length A)) in H.
  rewrite length_app in H; simpl in H; lia.
Qed.

(** C2: when the first request fails with [e], the request that skips
    the verification of the certificate is made exactly when the cause
    code of [e] is one of the three TLS codes; with any other error the
    fetcher makes no further request and fails with [e] itself. *)
Theorem fallback_iff_tls_code (E : env) (url : str) (t0 t1 : list event)
    (e : error) :
  fetchWithTimeout E url empty_init 10000 t0 = (Thrown e, t1) ->
  t1 = t0 ++ [EFetch url empty_init]
  /\ (snd (fetchGarageStatusPage E url t0) = t1 ++ [EInsecureGet url]
      <-> is_tls_code (e_cause_code e))
  /\ (fetchGarageStatusPage E url t0 = (Thrown e, t1)
      <-> ~ is_tls_code (e_cause_code e)).
Proof.
  intros H.
  assert (Ht1 : t1 = t0 ++ [EFetch url empty_init]).
  { rewrite <- (fetchWithTimeout_trace E url empty_init 10000 t0), H.
    reflexivity. }
  split; [exact Ht1|].
  unfold fetchGarageStatusPage, try_catch. rewrite H.
  rewrite <- has_code_tls.
  destruct (has_code tlsCodes (e_cause_code e)) eqn:Hc; simpl.
  - rewrite insecure_get_trace. split; split; auto; try congruence.
    intros Heq. apply (f_equal snd) in Heq.
    rewrite insecure_get_trace in Heq. simpl in Heq.
    exfalso; exact (@app_one_neq _ _ _ Heq).
  - unfold throw; simpl. split; split; auto; try congruence.
    intros Heq. symmetry in Heq. exfalso; exact (@app_one_neq _ _ _ Heq).
Qed.

Lemma fallback_iff_tls_code_witness :
  fetchWithTimeout env_tls sourceUrl empty_init 10000 []
  = (Thrown tls_error, [EFetch sourceUrl empty_init])
  /\ (snd (fetchGarageStatusPage env_tls sourceUrl [])
      = [EFetch sourceUrl empty_init] ++ [EInsecureGet sourceUrl]
      <-> is_tls_code (e_cause_code tls_error)).
Proof.
  split; [reflexivity|].
  apply (@fallback_iff_tls_code env_tls sourceUrl []
           [EFetch sourceUrl empty_init] tls_error).
  reflexivity.
Defined.

Lemma fetchGarageStatusPage_trace (E : env) (url : str) (t0 : list event) :
  snd (fetchGarageStatusPage E url t0) = t0 ++ [EFetch url empty_init]
  \/ snd (fetchGarageStatusPage E url t0)
     = t0 ++ [EFetch url empty_init; EInsecureGet url].
Proof.
  unfold fetchGarageStatusPage, try_catch.
  pose proof (fetchWithTimeout_trace E url empty_init 10000 t0) as Ht.
  destruct (fetchWithTimeout E url empty_init 10000 t0) as [[resp|e] t1];
    simpl in Ht; subst t1; [left; reflexivity|].
  destruct (has_code tlsCodes (e_cause_code e)); simpl.
  - right. rewrite insecure_get_trace, <- app_assoc. reflexivity.
  - left. reflexivity.
Qed.

Lemma new_events_app (t0 l : list event) : new_events t0 (t0 ++ l) = l.
Proof.
  unfold new_events. rewrite skipn_app, skipn_all, Nat.sub_diag.
  reflexivity.
Qed.

Lemma new_events_same (t0 : list event) : new_events t0 t0 = [].
Proof. unfold new_events. apply skipn_all. Qed.

(** ** Ingestion handler: a page fetch that runs out of time *)

Lemma page_timeout (E : env) (t0 : list event) :
  10000 <= fst (net_fetch E sourceUrl empty_init) ->
  fetchGarageStatusPage E sourceUrl t0
  = (Thrown abort_error, t0 ++ [EFetch sourceUrl empty_init]).
Proof.
  intros Hl. unfold fetchGarageStatusPage, try_catch, fetchWithTimeout,
    bind, emit.
  destruct (net_fetch E sourceUrl empty_init) as [latency outcome].
  simpl in Hl. destruct (Z.ltb_spec latency 10000); [lia|].
  reflexivity.
Qed.

(** C10 (as the code has it): a run whose page request is aborted by the
    ten-second timer ends in the reply of the outer [catch]: status 500
    with the label "Cron failed", the message of the abort and no cause
    code; nothing else is requested. *)
Theorem page_timeout_is_cron_failed (E : env) (req : request)
    (t0 t : list event) (r : result http_response) :
  handler E req t0 = (r, t) ->
  In (EFetch sourceUrl empty_init) (new_events t0 t) ->
  10000 <= fst (net_fetch E sourceUrl empty_init) ->
  r = Ok (cron_failed abort_error)
  /\ t = t0 ++ [EFetch sourceUrl empty_init].
Proof.
  unfold handler. intros H Hin Hslow.
  destruct (negb (str_eqb (method req) (lit "GET"))
            && negb (str_eqb (method req) (lit "HEAD"))).
  { inversion H; subst. rewrite new_events_same in Hin. destruct Hin. }
  destruct (truthy (CRON_SECRET E)) as [cronSecret|].
  2:{ inversion H; subst. rewrite new_events_same in Hin. destruct Hin. }
  match type of H with (if ?c then _ else _) _ = _ => destruct c end.
  { inversion H; subst. rewrite new_events_same in Hin. destruct Hin. }
  destruct (truthy (SUPABASE_URL E)) as [supabaseUrl|].
  2:{ inversion H; subst. rewrite new_events_same in Hin. destruct Hin. }
  destruct (truthy (SUPABASE_KEY E)) as [supabaseKey|].
  2:{ inversion H; subst. rewrite new_events_same in Hin. destruct Hin. }
  unfold try_catch, bind in H. rewrite (page_timeout E t0 Hslow) in H.
  unfold ret in H. inversion H; subst. split; reflexivity.
Qed.

Lemma page_timeout_is_cron_failed_witness :
  handler env_slow example_request []
  = (Ok (cron_failed abort_error), [EFetch sourceUrl empty_init])
  /\ In (EFetch sourceUrl empty_init)
       (new_events [] [EFetch sourceUrl empty_init])
  /\ 10000 <= fst (net_fetch env_slow sourceUrl empty_init)
  /\ Ok (cron_failed abort_error) = Ok (cron_failed abort_error)
  /\ [EFetch sourceUrl empty_init] = [] ++ [EFetch sourceUrl empty_init].
Proof.
  assert (H1 : handler env_slow example_request []
               = (Ok (cron_failed abort_error),
                  [EFetch sourceUrl empty_init])) by reflexivity.
  assert (H2 : In (EFetch sourceUrl empty_init)
                 (new_events [] [EFetch sourceUrl empty_init]))
    by (left; reflexivity).
  assert (H3 : 10000 <= fst (net_fetch env_slow sourceUrl empty_init))
    by (vm_compute; discriminate).
  split; [exact H1|]. split; [exact H2|]. split; [exact H3|].
  exact (@page_timeout_is_cron_failed env_slow example_request [] _ _
           H1 H2 H3).
Defined.

(** C10 (as stated) fails: the reply to a run whose page request timed
    out carries the same status and the same label as the reply to a run
    whose connection was refused at once; there is no label for a
    timeout. *)
Lemma timeout_has_no_category_of_its_own :
  exists slow refused : http_response,
    fst (handler env_slow example_request []) = Ok slow
    /\ fst (handler env_refused example_request []) = Ok refused
    /\ 10000 <= fst (net_fetch env_slow sourceUrl empty_init)
    /\ fst (net_fetch env_refused sourceUrl empty_init) < 10000
    /\ res_status slow = res_status refused
    /\ error_label slow = error_label refused
    /\ error_label slow = Some (JStr (lit "Cron failed")).
Proof.
  exists (cron_failed abort_error), (cron_failed refused_error).
  repeat split; try reflexivity.
Qed.

(** ** Aggregation layer: a failed read *)

(** C6: after a failed read the state holds the record set it held
    before, and so the views derived from it; it carries the message of
    the failure and is not loading. *)
Theorem read_failure_keeps_rows (message : str) (now : Z)
    (prev : GarageStatusState) :
  let next := fetchRows None true (QueryError message) now prev in
  rows next = rows prev
  /\ error_message next = Some message
  /\ isLoading next = false
  /\ refreshedAt next = refreshedAt prev
  /\ latestByGarage (rows next) = latestByGarage (rows prev)
  /\ historyByGarage (rows next) = historyByGarage (rows prev)
  /\ (forall tz parse fmt,
        dailyData tz parse fmt (rows next)
        = dailyData tz parse fmt (rows prev)).
Proof. simpl. repeat split; reflexivity. Qed.

(** ** Objects and maps *)

Lemma obj_get_set {V} (o : object V) (k g : str) (v : V) :
  obj_get (obj_set o k v) g = if str_eqb k g then Some v else obj_get o g.
Proof.
  induction o as [|[k' v'] o IH]; simpl.
  - reflexivity.
  - destruct (str_eqb k' k) eqn:Hk; simpl.
    + apply str_eqb_eq in Hk; subst k'. destruct (str_eqb k g); reflexivity.
    + rewrite IH. destruct (str_eqb k' g) eqn:Hg; [|reflexivity].
      apply str_eqb_eq in Hg; subst k'.
      apply str_eqb_neq in Hk.
      destruct (str_eqb k g) eqn:Hkg; [|reflexivity].
      apply str_eqb_eq in Hkg; congruence.
Qed.

Lemma obj_set_keys {V} (o : object V) (k : str) (v : V) :
  map fst (obj_set o k v)
  = if map_has o k then map fst o else map fst o ++ [k].
Proof.
  unfold map_has. induction o as [|[k' v'] o IH]; simpl.
  - reflexivity.
  - destruct (str_eqb k' k) eqn:Hk; simpl.
    + apply str_eqb_eq in Hk; subst; reflexivity.
    + rewrite IH. destruct (obj_get o k); reflexivity.
Qed.

Lemma obj_get_None {V} (o : object V) (k : str) :
  obj_get o k = None <-> ~ In k (map fst o).
Proof.
  induction o as [|[k' v'] o IH]; simpl.
  - split; auto.
  - destruct (str_eqb k' k) eqn:Hk.
    + apply str_eqb_eq in Hk. split; [discriminate | intros H; tauto].
    + apply str_eqb_neq in Hk. rewrite IH. tauto.
Qed.

Lemma obj_get_In {V} (o : object V) (k : str) (v : V) :
  obj_get o k = Some v -> In (k, v) o.
Proof.
  induction o as [|[k' v'] o IH]; simpl; [discriminate|].
  destruct (str_eqb k' k) eqn:Hk.
  - apply str_eqb_eq in Hk. intros H; inversion H; subst; auto.
  - auto.
Qed.

Lemma obj_set_NoDup {V} (o : object V) (k : str) (v : V) :
  NoDup (map fst o) -> NoDup (map fst (obj_set o k v)).
Proof.
  intros H. rewrite obj_set_keys. unfold map_has.
  destruct (obj_get o k) eqn:Hg; [exact H|].
  apply obj_get_None in Hg.
  apply NoDup_app; [exact H | constructor; [simpl; tauto | constructor] |].
  intros x Hx [Hk|[]]. subst; tauto.
Qed.

Lemma obj_set_In {V} (o : object V) (k g : str) (v w : V) :
  In (g, w) (obj_set o k v) -> (g = k /\ w = v) \/ In (g, w) o.
Proof.
  induction o as [|[k' v'] o IH]; simpl.
  - intros [H|[]]; inversion H; auto.
  - destruct (str_eqb k' k); simpl.
    + intros [H|H]; [inversion H; auto | auto].
    + intros [H|H]; [auto | destruct (IH H); auto].
Qed.

(** ** Aggregation layer: the latest record of each garage *)

Lemma latestByGarage_fold (rs : list GarageStatusRow)
    (acc : object GarageStatusRow) (g : str) :
  obj_get
    (fold_left
       (fun map row =>
          if negb (map_has map (garage row))
          then obj_set map (garage row) row else map) rs acc) g
  = match obj_get acc g with
    | Some r => Some r
    | None => find (fun r => str_eqb (garage r) g) rs
    end.
Proof.
  revert acc; induction rs as [|row rs IH]; intros acc; simpl.
  - destruct (obj_get acc g); reflexivity.
  - rewrite IH. unfold map_has.
    destruct (obj_get acc (garage row)) eqn:Hrow; simpl.
    + destruct (obj_get acc g) eqn:Hg; [reflexivity|].
      destruct (str_eqb (garage row) g) eqn:Heq; [|reflexivity].
      apply str_eqb_eq in Heq. congruence.
    + rewrite obj_get_set.
      destruct (str_eqb (garage row) g) eqn:Heq.
      * apply str_eqb_eq in Heq. rewrite <- Heq, Hrow. reflexivity.
      * destruct (obj_get acc g); reflexivity.
Qed.

Lemma latestByGarage_find (rs : list GarageStatusRow) (g : str) :
  obj_get (latestByGarage rs) g = find (fun r => str_eqb (garage r) g) rs.
Proof. unfold latestByGarage. rewrite latestByGarage_fold. reflexivity. Qed.

Lemma descending_head (instant : str -> Z) (r : GarageStatusRow)
    (rs : list GarageStatusRow) :
  descending instant (r :: rs) ->
  descending instant rs
  /\ forall r', In r' rs -> instant (fetched_at r') <= instant (fetched_at r).
Proof.
  intros H. apply Sorted_StronglySorted in H.
  - inversion H as [|? ? Hs Hall]; subst. split.
    + apply StronglySorted_Sorted; exact Hs.
    + intros r' Hin. rewrite Forall_forall in Hall. auto.
  - intros a b c Hab Hbc. lia.
Qed.

Lemma find_most_recent (instant : str -> Z) (rs : list GarageStatusRow)
    (g : str) (r : GarageStatusRow) :
  descending instant rs ->
  find (fun r => str_eqb (garage r) g) rs = Some r ->
  forall r', In r' rs -> garage r' = g ->
    instant (fetched_at r') <= instant (fetched_at r).
Proof.
  induction rs as [|x rs IH]; simpl; [discriminate|].
  intros Hd Hf r' Hin Hg. apply descending_head in Hd as [Hd Hx].
  destruct (str_eqb (garage x) g) eqn:Heq.
  - inversion Hf; subst x. destruct Hin as [->|Hin]; [lia | auto].
  - destruct Hin as [->|Hin].
    + apply str_eqb_neq in Heq. congruence.
    + eauto.
Qed.

(** C5 (amended in its example): the latest-by-garage derivation maps a
    garage to the first record of the list that bears its name, and
    maps no garage that does not occur; when the list is ordered by
    [fetched_at], most recent first, that record is the most recent one
    of the garage.  On the records of the example in the order in which
    they are listed it yields the record with status 50 for A and the
    one with status 100 for B; on the same records ordered most recent
    first it yields the record with status 70 for A. *)
Theorem latest_is_first_record (instant : str -> Z)
    (rs : list GarageStatusRow) :
  descending instant rs ->
  (forall g, obj_get (latestByGarage rs) g
             = find (fun r => str_eqb (garage r) g) rs)
  /\ (forall g r, obj_get (latestByGarage rs) g = Some r ->
        In r rs /\ garage r = g
        /\ forall r', In r' rs -> garage r' = g ->
             instant (fetched_at r') <= instant (fetched_at r))
  /\ (forall g, obj_get (latestByGarage rs) g = None
                <-> ~ In g (map garage rs))
  /\ latestByGarage example_as_listed
     = [(lit "A", rowA50); (lit "B", rowB100)]
  /\ latestByGarage example_descending
     = [(lit "A", rowA70); (lit "B", rowB100)].
Proof.
  intros Hd. split; [apply latestByGarage_find|].
  split; [|split; [|split; reflexivity]].
  - intros g r Hg. rewrite latestByGarage_find in Hg.
    pose proof (find_some _ _ Hg) as [Hin Heq].
    apply str_eqb_eq in Heq. repeat split; auto.
    apply find_most_recent; assumption.
  - intros g. rewrite latestByGarage_find. split.
    + intros Hn Hin. apply in_map_iff in Hin as [r [Hr Hin]].
      pose proof (find_none _ _ Hn _ Hin) as Hf. simpl in Hf.
      apply str_eqb_neq in Hf. congruence.
    + intros Hn. destruct (find _ rs) as [r|] eqn:Hf; [|reflexivity].
      apply find_some in Hf as [Hin Heq]. apply str_eqb_eq in Heq.
      exfalso; apply Hn. apply in_map_iff. eauto.
Qed.

Lemma example_descending_sorted : descending iso_instant example_descending.
Proof.
  unfold descending, example_descending.
  repeat constructor; vm_compute; discriminate.
Qed.

Lemma latest_is_first_record_witness :
  descending iso_instant example_descending
  /\ obj_get (latestByGarage example_descending) (lit "A")
     = find (fun r => str_eqb (garage r) (lit "A")) example_descending.
Proof.
  split; [exact example_descending_sorted|].
  apply (@latest_is_first_record iso_instant example_descending
           example_descending_sorted).
Defined.

(** C5 (as stated) fails in its example: the records of the example are
    not listed most recent first; ordered so, garage A is mapped to the
    record with status 70 (of 14:00), not to the one with status 50. *)
Lemma example_latest_of_A_is_70 :
  descending iso_instant example_descending
  /\ Permutation example_descending example_as_listed
  /\ ~ descending iso_instant example_as_listed
  /\ obj_get (latestByGarage example_descending) (lit "A") = Some rowA70
  /\ obj_get (latestByGarage example_descending) (lit "A") <> Some rowA50.
Proof.
  split; [exact example_descending_sorted|].
  split.
  { unfold example_descending, example_as_listed.
    apply Permutation_sym.
    apply (@Permutation_cons_app _ _ [rowA70; rowB100] [] rowA50).
    simpl. apply Permutation_refl. }
  split.
  { intros H. apply descending_head in H as [_ H].
    specialize (H rowA70 (or_introl eq_refl)). vm_compute in H.
    apply H; reflexivity. }
  split; [reflexivity | discriminate].
Qed.

(** ** Status extractor: the keys of the result *)

Lemma statuses_loop_NoDup (text : str) (ps : list position)
    (acc : object Z) :
  NoDup (map fst acc) -> NoDup (map fst (statuses_loop text ps acc)).
Proof.
  revert acc; induction ps as [|p ps IH]; intros acc Hacc; simpl; auto.
  destruct (search _ _) as [m|]; auto.
  destruct (str_eqb _ _); auto using obj_set_NoDup.
  destruct (isFinite _); auto using obj_set_NoDup.
Qed.

Lemma parseStatuses_NoDup (text : str) :
  NoDup (map fst (parseStatuses text)).
Proof. apply statuses_loop_NoDup. constructor. Qed.

Lemma make_rows_entries (fetchedAt : str) (lastUpdated : option str)
    (statuses : object Z) :
  map (fun row => (garage row, status row))
    (make_rows fetchedAt lastUpdated statuses) = statuses.
Proof.
  unfold make_rows. rewrite map_map.
  induction statuses as [|[g v] o IH]; simpl; congruence.
Qed.

Lemma make_rows_garages (fetchedAt : str) (lastUpdated : option str)
    (statuses : object Z) :
  map garage (make_rows fetchedAt lastUpdated statuses) = map fst statuses.
Proof.
  unfold make_rows. rewrite map_map.
  induction statuses as [|[g v] o IH]; simpl; congruence.
Qed.


(** ** The matcher finds matches, and finds one when there is one *)

Lemma last_char_app (x y : str) (prev : option ascii) :
  last_char (x ++ y) prev = last_char y (last_char x prev).
Proof. unfold last_char. apply fold_left_app. Qed.

Section MatcherFacts.
Variable R : Type.

Lemma rep_min_sound (p : ascii -> bool) (n : nat) (prev : option ascii)
    (s : str) (k : option ascii -> str -> option R) (x : R) :
  rep_min p n prev s k = Some x ->
  exists y s', s = y ++ s' /\ forallb p y = true /\ length y = n
               /\ k (last_char y prev) s' = Some x.
Proof.
  revert prev s; induction n as [|n IH]; intros prev s; simpl.
  - intros H. exists [], s. auto.
  - destruct s as [|c s]; [discriminate|].
    destruct (p c) eqn:Hc; [|discriminate].
    intros H. apply IH in H as [y [s' [-> [Hy [Hl Hk]]]]].
    exists (c :: y), s'. simpl. rewrite Hc, Hy, Hl. auto.
Qed.

Lemma rep_min_complete (p : ascii -> bool) (n : nat) (prev : option ascii)
    (s : str) (k : option ascii -> str -> option R) :
  rep_min p n prev s k = None ->
  forall y s', s = y ++ s' -> forallb p y = true -> length y = n ->
               k (last_char y prev) s' = None.
Proof.
  revert prev s; induction n as [|n IH]; intros prev s; simpl.
  - intros H [|c y] s' -> _ Hl; [exact H | discriminate].
  - intros H [|c y] s' -> Hy Hl; [discriminate|].
    simpl in *. apply andb_true_iff in Hy as [Hc Hy]. rewrite Hc in H.
    apply (IH _ _ H); auto.
Qed.

Lemma rep_greedy_sound (p : ascii -> bool) (prev : option ascii) (s : str)
    (k : option ascii -> str -> option R) (x : R) :
  rep_greedy p prev s k = Some x ->
  exists y s', s = y ++ s' /\ forallb p y = true
               /\ k (last_char y prev) s' = Some x.
Proof.
  revert prev; induction s as [|c s IH]; intros prev; simpl.
  - intros H. exists [], []. auto.
  - destruct (p c) eqn:Hc.
    + destruct (rep_greedy p (Some c) s k) eqn:Hg; simpl.
      * intros H; inversion H; subst.
        apply IH in Hg as [y [s' [-> [Hy Hk]]]].
        exists (c :: y), s'. simpl. rewrite Hc, Hy. auto.
      * intros H. exists [], (c :: s). auto.
    + intros H. exists [], (c :: s). auto.
Qed.

Lemma rep_greedy_complete (p : ascii -> bool) (prev : option ascii)
    (s : str) (k : option ascii -> str -> option R) :
  rep_greedy p prev s k = None ->
  forall y s', s = y ++ s' -> forallb p y = true ->
               k (last_char y prev) s' = None.
Proof.
  revert prev; induction s as [|c s IH]; intros prev; simpl.
  - intros H y s' Hs _. symmetry in Hs.
    apply app_eq_nil in Hs as [-> ->]. exact H.
  - intros H [|d y] s' Hs Hy.
    + simpl in Hs; subst s'. simpl.
      destruct (p c); [|exact H].
      destruct (rep_greedy p (Some c) s k); [discriminate | exact H].
    + simpl in Hs. inversion Hs; subst d s. clear Hs.
      simpl in Hy. apply andb_true_iff in Hy as [Hc Hy]. rewrite Hc in H.
      destruct (rep_greedy p (Some c) (y ++ s') k) eqn:Hg; [discriminate|].
      apply (IH _ Hg); auto.
Qed.

Lemma rep_lazy_sound (p : ascii -> bool) (prev : option ascii) (s : str)
    (k : option ascii -> str -> option R) (x : R) :
  rep_lazy p prev s k = Some x ->
  exists y s', s = y ++ s' /\ forallb p y = true
               /\ k (last_char y prev) s' = Some x.
Proof.
  revert prev; induction s as [|c s IH]; intros prev; simpl.
  - destruct (k prev []) eqn:Hk; [|discriminate].
    intros H; inversion H; subst. exists [], []. auto.
  - destruct (k prev (c :: s)) eqn:Hk.
    + intros H; inversion H; subst. exists [], (c :: s). auto.
    + destruct (p c) eqn:Hc; [|discriminate].
      intros H. apply IH in H as [y [s' [-> [Hy Hk']]]].
      exists (c :: y), s'. simpl. rewrite Hc, Hy. auto.
Qed.

Lemma rep_lazy_complete (p : ascii -> bool) (prev : option ascii)
    (s : str) (k : option ascii -> str -> option R) :
  rep_lazy p prev s k = None ->
  forall y s', s = y ++ s' -> forallb p y = true ->
               k (last_char y prev) s' = None.
Proof.
  revert prev; induction s as [|c s IH]; intros prev; simpl.
  - destruct (k prev []) eqn:Hk; [discriminate|].
    intros _ y s' Hs _. symmetry in Hs.
    apply app_eq_nil in Hs as [-> ->]. exact Hk.
  - destruct (k prev (c :: s)) eqn:Hk; [discriminate|].
    intros H [|d y] s' Hs Hy.
    + simpl in Hs; subst s'. exact Hk.
    + simpl in Hs. inversion Hs; subst d s. clear Hs.
      simpl in Hy. apply andb_true_iff in Hy as [Hc Hy]. rewrite Hc in H.
      apply (IH _ H); auto.
Qed.

Lemma run_sound (r : re) :
  forall (st : mstate) (k : mstate -> option R) (x : R),
    run r st k = Some x ->
    exists st', matches r st st' /\ k st' = Some x.
Proof.
  induction r as [|p|a IHa b IHb|a IHa b IHb|g n p|a IHa| |];
    intros st k x; simpl.
  - intros H. exists st. split; [constructor | exact H].
  - destruct st as [prev [|c s] cap]; simpl; [discriminate|].
    destruct (p c) eqn:Hc; [|discriminate].
    intros H. eexists. split; [constructor; exact Hc | exact H].
  - intros H. apply IHa in H as [st1 [Ha H]].
    apply IHb in H as [st2 [Hb H]].
    exists st2. split; [econstructor; eauto | exact H].
  - destruct (run a st k) eqn:Ha; simpl.
    + intros H; inversion H; subst.
      apply IHa in Ha as [st' [Ha Hk]]. exists st'.
      split; [apply M_AltL; exact Ha | exact Hk].
    + intros H. apply IHb in H as [st' [Hb Hk]]. exists st'.
      split; [apply M_AltR; exact Hb | exact Hk].
  - intros H. apply rep_min_sound in H as [y [s' [Hs [Hy [Hl H]]]]].
    assert (Hrest : exists z s'', s' = z ++ s'' /\ forallb p z = true
              /\ k (MState (last_char z (last_char y (m_prev st))) s''
                      (m_cap st)) = Some x).
    { destruct g; [apply rep_greedy_sound in H | apply rep_lazy_sound in H];
        exact H. }
    destruct Hrest as [z [s'' [-> [Hz Hk]]]].
    exists (MState (last_char (y ++ z) (m_prev st)) s'' (m_cap st)).
    split.
    + destruct st as [prev s cap]; simpl in *. subst s.
      rewrite app_assoc. constructor.
      * rewrite forallb_app, Hy, Hz. reflexivity.
      * rewrite length_app. lia.
    + rewrite last_char_app. exact Hk.
  - intros H. apply IHa in H as [st' [Ha Hk]].
    eexists. split; [apply M_Cap; exact Ha | exact Hk].
  - destruct (xorb (prev_word st) (next_word st)) eqn:Hw; [|discriminate].
    intros H. exists st. split; [constructor; exact Hw | exact H].
  - destruct st as [prev [|c s] cap]; simpl; [|discriminate].
    intros H. eexists. split; [constructor | exact H].
Qed.

Lemma run_complete (r : re) :
  forall (st : mstate) (k : mstate -> option R),
    run r st k = None ->
    forall st', matches r st st' -> k st' = None.
Proof.
  induction r as [|p|a IHa b IHb|a IHa b IHb|g n p|a IHa| |];
    intros st k H st' Hm; simpl in H; inversion Hm; subst; simpl in *.
  - exact H.
  - match goal with Hp : p _ = true |- _ => rewrite Hp in H end. exact H.
  - match goal with
    | Ha : matches a _ ?st2, Hb : matches b ?st2 _ |- _ =>
        exact (IHb _ _ (IHa _ _ H _ Ha) _ Hb)
    end.
  - destruct (run a st k) eqn:Ha; [discriminate|]. eapply IHa; eauto.
  - destruct (run a st k) eqn:Ha; [discriminate|]. eapply IHb; eauto.
  - match goal with Hx : forallb p ?x = true, Hl : (n <= length ?x)%nat |- _ =>
      rename x into y; rename Hx into Hy
    end.
    assert (Hsplit : exists y1 y2, y = y1 ++ y2 /\ length y1 = n).
    { exists (firstn n y), (skipn n y). rewrite firstn_skipn, length_firstn.
      split; [reflexivity | lia]. }
    destruct Hsplit as [y1 [y2 [-> Hl1]]].
    rewrite forallb_app in Hy. apply andb_true_iff in Hy as [Hy1 Hy2].
    rewrite <- app_assoc in H.
    pose proof (rep_min_complete _ _ _ _ _ H y1 (y2 ++ s) eq_refl Hy1 Hl1)
      as Hk.
    rewrite last_char_app.
    destruct g;
      [eapply rep_greedy_complete in Hk | eapply rep_lazy_complete in Hk];
      eauto.
  - eapply (IHa _ _ H); eauto.
  - match goal with Hw : xorb _ _ = true |- _ => rewrite Hw in H end.
    exact H.
  - exact H.
Qed.

End MatcherFacts.

Lemma matches_consumed (r : re) (st st' : mstate) :
  matches r st st' ->
  exists x, m_rest st = x ++ m_rest st'
            /\ m_prev st' = last_char x (m_prev st).
Proof.
  induction 1; simpl.
  - exists []; auto.
  - exists [c]; auto.
  - destruct IHmatches1 as [x [Hx Hp]], IHmatches2 as [y [Hy Hq]].
    exists (x ++ y). rewrite Hx, Hy, app_assoc, last_char_app, <- Hp.
    auto.
  - assumption.
  - assumption.
  - exists x; auto.
  - assumption.
  - exists []; auto.
  - exists []; auto.
Qed.

Lemma firstn_consumed (x s : str) :
  firstn (length (x ++ s) - length s) (x ++ s) = x.
Proof.
  rewrite length_app, Nat.add_sub, firstn_app, Nat.sub_diag, firstn_all.
  simpl. apply app_nil_r.
Qed.

Lemma matches_Seq_inv (a b : re) (st st' : mstate) :
  matches (Seq a b) st st' ->
  exists st1, matches a st st1 /\ matches b st1 st'.
Proof. intros H; inversion H; subst; eauto. Qed.

Lemma matches_Alt_inv (a b : re) (st st' : mstate) :
  matches (Alt a b) st st' -> matches a st st' \/ matches b st st'.
Proof. intros H; inversion H; subst; auto. Qed.

Lemma matches_Eps_inv (st st' : mstate) : matches Eps st st' -> st' = st.
Proof. intros H; inversion H; subst; auto. Qed.

Lemma matches_Cls_inv (p : ascii -> bool) (st st' : mstate) :
  matches (Cls p) st st' ->
  exists c s, m_rest st = c :: s /\ p c = true
              /\ st' = MState (Some c) s (m_cap st).
Proof. intros H; inversion H; subst; simpl; eauto. Qed.

Lemma matches_Rep_inv (g : bool) (n : nat) (p : ascii -> bool)
    (st st' : mstate) :
  matches (Rep g n p) st st' ->
  exists x, m_rest st = x ++ m_rest st' /\ forallb p x = true
            /\ (n <= length x)%nat
            /\ st' = MState (last_char x (m_prev st)) (m_rest st') (m_cap st).
Proof. intros H; inversion H; subst; simpl; eauto 6. Qed.

Lemma matches_Cap_inv (a : re) (st st' : mstate) :
  matches (Cap a) st st' ->
  exists st1 x, matches a st st1 /\ m_rest st = x ++ m_rest st1
                /\ st' = MState (m_prev st1) (m_rest st1) (Some x).
Proof.
  intros H; inversion H; subst.
  match goal with Ha : matches a st ?s1 |- _ =>
    destruct (matches_consumed _ _ _ Ha) as [x [Hx _]];
    exists s1, x; split; [exact Ha|]; split; [exact Hx|];
    rewrite Hx, firstn_consumed; reflexivity
  end.
Qed.

(** A literal under the [i] flag matches the texts that are equal to it
    up to case. *)
Lemma matches_literal_ci (l : str) (st st' : mstate) :
  matches (literal true l) st st' ->
  exists x, m_rest st = x ++ m_rest st' /\ map canon x = map canon l
            /\ m_cap st' = m_cap st.
Proof.
  revert st; induction l as [|a l IH]; intros st H; simpl in H.
  - apply matches_Eps_inv in H; subst. exists []; auto.
  - apply matches_Seq_inv in H as [st1 [H1 H2]].
    apply matches_Cls_inv in H1 as [c [s [Hs [Hc ->]]]].
    apply IH in H2 as [x [Hx [Hm Hcap]]]. simpl in *.
    exists (c :: x). rewrite Hs, Hx. simpl.
    unfold chr_ci in Hc. apply Ascii.eqb_eq in Hc. rewrite Hc, Hm. auto.
Qed.

(** ** Characters *)

Lemma in_all_chars (c : ascii) : In c all_chars.
Proof.
  unfold all_chars. apply in_map_iff. exists (nat_of_ascii c).
  split; [apply ascii_nat_embedding|].
  apply in_seq. pose proof (nat_ascii_bounded c). lia.
Qed.

Lemma for_all_chars (P : ascii -> bool) :
  forallb P all_chars = true -> forall c, P c = true.
Proof.
  intros H c. rewrite forallb_forall in H. apply H, in_all_chars.
Qed.

Lemma canon_lower (c a : ascii) :
  canon c = canon a <-> lower_char c = lower_char a.
Proof.
  assert (H : forall c a, Bool.eqb (Ascii.eqb (canon c) (canon a))
                 (Ascii.eqb (lower_char c) (lower_char a)) = true).
  { intros c' a'.
    pose proof (for_all_chars (fun x => forallb (fun y =>
      Bool.eqb (Ascii.eqb (canon x) (canon y))
        (Ascii.eqb (lower_char x) (lower_char y))) all_chars)) as Hall.
    specialize (Hall ltac:(vm_compute; reflexivity) c').
    rewrite forallb_forall in Hall. apply Hall, in_all_chars. }
  specialize (H c a). apply Bool.eqb_prop in H.
  rewrite <- !Ascii.eqb_eq, H. tauto.
Qed.

Ltac char_fact :=
  match goal with
  | |- forall c : ascii, @?P c = true =>
      exact (for_all_chars P ltac:(vm_compute; reflexivity))
  end.

Lemma digit_not_ws : forall c, implb (is_digit c) (negb (is_ws c)) = true.
Proof. char_fact. Qed.

Lemma digit_not_sign :
  forall c, implb (is_digit c)
              (negb (Ascii.eqb c "-") && negb (Ascii.eqb c "+")
               && negb (Ascii.eqb c "%")
               && negb (Ascii.eqb (lower_char c) "f")) = true.
Proof. char_fact. Qed.

Lemma ws_not_percent :
  forall c, implb (is_ws c) (negb (Ascii.eqb c "%")) = true.
Proof. char_fact. Qed.

Lemma lower_letter_not_ws :
  forall c, implb (is_lower (lower_char c)) (negb (is_ws c)) = true.
Proof. char_fact. Qed.

Lemma digit_val_bounds :
  forall c, implb (is_digit c)
              ((0 <=? digit_val c) && (digit_val c <=? 9)) = true.
Proof. char_fact. Qed.

Lemma implb_elim (a b : bool) : implb a b = true -> a = true -> b = true.
Proof. destruct a, b; simpl; auto. Qed.

Lemma map_canon_lower (x l : str) :
  map canon x = map canon l -> toLowerCase x = toLowerCase l.
Proof.
  revert l; induction x as [|c x IH]; intros [|a l] H; simpl in *;
    try discriminate; auto.
  inversion H as [[Hc Hx]]. apply canon_lower in Hc. rewrite Hc.
  f_equal. apply IH, Hx.
Qed.

(** ** Trimming and parsing the matched value *)

Lemma drop_ws_id (s : str) : starts_ws s = false -> drop_ws s = s.
Proof. destruct s as [|c s]; simpl; auto. intros ->; reflexivity. Qed.

Lemma drop_ws_app (w s : str) :
  forallb is_ws w = true -> drop_ws (w ++ s) = drop_ws s.
Proof.
  induction w as [|c w IH]; simpl; auto.
  intros H. apply andb_true_iff in H as [-> H]. auto.
Qed.

Lemma trim_id (s : str) :
  starts_ws s = false -> starts_ws (rev s) = false -> trim s = s.
Proof.
  intros H1 H2. unfold trim.
  rewrite (drop_ws_id s H1), (drop_ws_id _ H2). apply rev_involutive.
Qed.

Lemma starts_ws_digits (ds s : str) :
  ds <> [] -> forallb is_digit ds = true -> starts_ws (ds ++ s) = false.
Proof.
  destruct ds as [|c ds]; [congruence|]. simpl. intros _ H.
  apply andb_true_iff in H as [Hc _].
  pose proof (implb_elim _ _ (digit_not_ws c) Hc) as Hw.
  apply negb_true_iff in Hw. exact Hw.
Qed.

Lemma starts_ws_rev_digits (ds : str) :
  forallb is_digit ds = true -> starts_ws (rev ds) = false.
Proof.
  intros H. destruct (rev ds) as [|c r] eqn:Hr; [reflexivity|]. simpl.
  assert (Hin : In c ds) by (apply in_rev; rewrite Hr; left; reflexivity).
  rewrite forallb_forall in H. specialize (H c Hin).
  pose proof (implb_elim _ _ (digit_not_ws c) H) as Hw.
  apply negb_true_iff in Hw. exact Hw.
Qed.

Lemma trim_digits_ws (ds ws : str) :
  ds <> [] -> forallb is_digit ds = true -> forallb is_ws ws = true ->
  trim (ds ++ ws) = ds.
Proof.
  intros Hne Hd Hw. unfold trim.
  rewrite (drop_ws_id _ (starts_ws_digits ds ws Hne Hd)).
  rewrite rev_app_distr, drop_ws_app.
  - rewrite (drop_ws_id _ (starts_ws_rev_digits ds Hd)).
    apply rev_involutive.
  - rewrite forallb_forall in *. intros c Hc. apply Hw, in_rev, Hc.
Qed.

Lemma replace_first_percent (x rest : str) :
  forallb (fun c => negb (Ascii.eqb c "%")) x = true ->
  replace_first (lit "%") [] (x ++ lit "%" ++ rest) = x ++ rest.
Proof.
  induction x as [|c x IH]; [reflexivity|].
  intros H. simpl in H. apply andb_true_iff in H as [Hc H].
  apply negb_true_iff in Hc. rewrite Ascii.eqb_sym in Hc.
  change (replace_first (lit "%") [] ((c :: x) ++ lit "%" ++ rest))
    with (if Ascii.eqb "%" c && true
          then [] ++ skipn 1 ((c :: x) ++ lit "%" ++ rest)
          else c :: replace_first (lit "%") [] (x ++ lit "%" ++ rest)).
  rewrite Hc. simpl andb. cbv iota. rewrite (IH H). reflexivity.
Qed.

Lemma decimal_acc_nonneg (ds : str) (acc : Z) :
  forallb is_digit ds = true -> 0 <= acc ->
  0 <= fold_left (fun a c => 10 * a + digit_val c) ds acc.
Proof.
  revert acc; induction ds as [|c ds IH]; intros acc H Ha;
    cbn [fold_left]; auto.
  cbn [forallb] in H. apply andb_true_iff in H as [Hc H].
  apply IH; [exact H|].
  pose proof (implb_elim _ _ (digit_val_bounds c) Hc) as Hb.
  apply andb_true_iff in Hb as [Hb _]. apply Z.leb_le in Hb. lia.
Qed.

Lemma decimal_nonneg (ds : str) :
  forallb is_digit ds = true -> 0 <= decimal ds.
Proof. intros H. apply decimal_acc_nonneg; [exact H | lia]. Qed.

Lemma to_double_nonneg (n v : Z) : 0 <= n -> to_double n = Num v -> 0 <= v.
Proof.
  unfold to_double. intros Hn.
  destruct (n <? 2 ^ 53); [intros H; inversion H; subst; exact Hn|].
  cbv zeta.
  match goal with
  | |- (if _ <=? ?q * ?p then _ else _) = _ -> _ =>
      set (q' := q); set (p' := p)
  end.
  destruct (2 ^ 1024 <=? q' * p'); [discriminate|].
  intros H; inversion H; subst v.
  assert (Hdiv : 0 <= n / 2 ^ (Z.log2 n - 52)).
  { destruct (Z.le_gt_cases 0 (Z.log2 n - 52)) as [He|He].
    - apply Z.div_pos; [lia | apply Z.pow_pos_nonneg; lia].
    - rewrite (Z.pow_neg_r 2 _ He), Z.div_0_r. lia. }
  assert (0 <= q') by (unfold q'; destruct (_ || _); lia).
  apply Z.mul_nonneg_nonneg; [assumption | apply Z.pow_nonneg; lia].
Qed.

Lemma take_while_all (p : ascii -> bool) (s : str) :
  forallb p s = true -> take_while p s = s.
Proof.
  induction s as [|c s IH]; simpl; auto.
  intros H. apply andb_true_iff in H as [-> H]. f_equal; auto.
Qed.

Lemma parseInt_digits (ds : str) :
  ds <> [] -> forallb is_digit ds = true ->
  parseInt ds = to_double (decimal ds).
Proof.
  intros Hne Hd. unfold parseInt.
  rewrite (drop_ws_id ds)
    by (rewrite <- (app_nil_r ds); apply starts_ws_digits; assumption).
  destruct ds as [|c ds]; [congruence|].
  pose proof Hd as Hd'. simpl in Hd'. apply andb_true_iff in Hd' as [Hc _].
  pose proof (implb_elim _ _ (digit_not_sign c) Hc) as Hs.
  repeat (apply andb_true_iff in Hs as [Hs ?]).
  repeat match goal with H : negb _ = true |- _ =>
    apply negb_true_iff in H; try rewrite H end.
  rewrite (take_while_all _ _ Hd).
  destruct (to_double (decimal (c :: ds))); reflexivity.
Qed.

(** ** Status extractor: what group 1 holds *)

Lemma search_from_exec (r : re) (prev : option ascii) (s : str)
    (m : mstate) :
  search_from r prev s = Some m ->
  exists prev' a s', s = a ++ s' /\ exec r prev' s' = Some m.
Proof.
  revert prev; induction s as [|c s IH]; intros prev; simpl.
  - destruct (exec r prev []) eqn:He; [|discriminate].
    intros H; inversion H; subst. exists prev, [], []. auto.
  - destruct (exec r prev (c :: s)) eqn:He.
    + intros H; inversion H; subst. exists prev, [], (c :: s). auto.
    + intros H. apply IH in H as [prev' [a [s' [-> H]]]].
      exists prev', (c :: a), s'. auto.
Qed.

Lemma percent_only : forall c, implb (chr_ci "%" c) (Ascii.eqb c "%") = true.
Proof. char_fact. Qed.

Lemma matches_value_re (st st' : mstate) :
  matches value_re st st' ->
  exists x, m_rest st = x ++ m_rest st'
            /\ (is_full x \/ exists ds, is_percentage x ds).
Proof.
  intros H. apply matches_Alt_inv in H as [H|H].
  - apply matches_literal_ci in H as [x [Hx [Hc _]]].
    exists x. split; [exact Hx|]. left.
    apply map_canon_lower in Hc. exact Hc.
  - apply matches_Seq_inv in H as [st1 [H1 H]].
    apply matches_Seq_inv in H as [st2 [H2 H3]].
    apply matches_Rep_inv in H1 as [ds [Hds [Hd [Hl _]]]].
    apply matches_Rep_inv in H2 as [ws [Hws [Hw _]]].
    apply matches_Cls_inv in H3 as [c [s [Hs [Hc ->]]]].
    pose proof (implb_elim _ _ (percent_only c) Hc) as Hp.
    apply Ascii.eqb_eq in Hp; subst c. simpl.
    exists (ds ++ ws ++ lit "%").
    split.
    + rewrite Hds, Hws, Hs, <- !app_assoc. reflexivity.
    + right. exists ds, ws. repeat split; auto.
      destruct ds; simpl in Hl; [lia | discriminate].
Qed.

Lemma status_capture (name : str) (prev : option ascii) (s : str)
    (m : mstate) :
  exec (status_pattern name) prev s = Some m ->
  is_full (group1 m) \/ exists ds, is_percentage (group1 m) ds.
Proof.
  unfold exec. intros H.
  apply run_sound in H as [st' [H Heq]]. inversion Heq; subst st'.
  unfold status_pattern in H.
  apply matches_Seq_inv in H as [st1 [_ H]].
  apply matches_Seq_inv in H as [st2 [_ H]].
  apply matches_Seq_inv in H as [st3 [_ H]].
  apply matches_Seq_inv in H as [st4 [_ H]].
  apply matches_Cap_inv in H as [st5 [x [H [Hx ->]]]].
  apply matches_value_re in H as [y [Hy Hv]].
  rewrite Hx in Hy. apply app_inv_tail in Hy. subst y.
  exact Hv.
Qed.

Lemma exec_cap (name : str) (prev : option ascii) (s : str) (m : mstate) :
  exec (status_pattern name) prev s = Some m -> exists c, m_cap m = Some c.
Proof.
  unfold exec. intros H.
  apply run_sound in H as [st' [H Heq]]. inversion Heq; subst st'.
  unfold status_pattern in H.
  apply matches_Seq_inv in H as [st1 [_ H]].
  apply matches_Seq_inv in H as [st2 [_ H]].
  apply matches_Seq_inv in H as [st3 [_ H]].
  apply matches_Seq_inv in H as [st4 [_ H]].
  apply matches_Cap_inv in H as [st5 [x [_ [_ ->]]]].
  exists x. reflexivity.
Qed.

(** The value that the loop records for a matched text. *)
Lemma full_is_trimmed (c : str) : is_full c -> trim c = c.
Proof.
  unfold is_full. intros H.
  destruct c as [|c1 [|c2 [|c3 [|c4 [|c5 c]]]]]; try discriminate.
  simpl in H. injection H as H1 H2 H3 H4.
  assert (W : forall c l, lower_char c = l -> is_lower l = true ->
                          is_ws c = false).
  { intros c l <- Hl.
    pose proof (implb_elim _ _ (lower_letter_not_ws c) Hl) as Hn.
    apply negb_true_iff in Hn. exact Hn. }
  apply trim_id; simpl.
  - apply (W _ _ H1); reflexivity.
  - apply (W _ _ H4); reflexivity.
Qed.

Lemma percentage_value (c ds : str) :
  is_percentage c ds ->
  str_eqb (toLowerCase (trim c)) (lit "full") = false
  /\ parseInt (trim (replace_first (lit "%") [] (trim c)))
     = to_double (decimal ds).
Proof.
  intros [ws [-> [Hne [Hd Hw]]]].
  assert (Ht : trim (ds ++ ws ++ lit "%") = ds ++ ws ++ lit "%").
  { apply trim_id.
    - apply starts_ws_digits; assumption.
    - rewrite !rev_app_distr. reflexivity. }
  rewrite Ht. split.
  - destruct ds as [|d ds]; [congruence|].
    simpl in Hd. apply andb_true_iff in Hd as [Hd _].
    pose proof (implb_elim _ _ (digit_not_sign d) Hd) as Hs.
    repeat (apply andb_true_iff in Hs as [Hs ?]).
    match goal with H : negb (Ascii.eqb (lower_char d) _) = true |- _ =>
      apply negb_true_iff in H; cbn [app toLowerCase map lit
        list_ascii_of_string str_eqb]; rewrite H end.
    reflexivity.
  - rewrite app_assoc.
    rewrite <- (app_nil_r (lit "%")) at 2.
    rewrite replace_first_percent.
    + rewrite app_nil_r, trim_digits_ws by assumption.
      apply parseInt_digits; assumption.
    + rewrite forallb_app. apply andb_true_iff. split.
      * rewrite forallb_forall in *. intros x Hx.
        pose proof (implb_elim _ _ (digit_not_sign x) (Hd x Hx)) as Hs.
        repeat (apply andb_true_iff in Hs as [Hs ?]). assumption.
      * rewrite forallb_forall in *. intros x Hx.
        exact (implb_elim _ _ (ws_not_percent x) (Hw x Hx)).
Qed.

(** ** Sorting *)

Section SortFacts.
Variable A : Type.
Variable cmp : A -> A -> Z.

Lemma sort_insert_perm (x : A) (l : list A) :
  Permutation (sort_insert cmp x l) (x :: l).
Proof.
  induction l as [|y l IH]; simpl; [apply Permutation_refl|].
  destruct (cmp x y <=? 0); [apply Permutation_refl|].
  apply perm_trans with (y :: x :: l);
    [apply perm_skip; exact IH | apply perm_swap].
Qed.

Lemma js_sort_perm (l : list A) : Permutation (js_sort cmp l) l.
Proof.
  induction l as [|x l IH]; simpl; [apply Permutation_refl|].
  apply perm_trans with (x :: js_sort cmp l);
    [apply sort_insert_perm | apply perm_skip; exact IH].
Qed.

End SortFacts.

Lemma positions_names (text : str) (p : position) :
  In p (positions text) -> In (p_name p) garageNames.
Proof.
  unfold positions. intros H.
  apply (Permutation_in _ (js_sort_perm _ _ _)) in H.
  apply filter_In in H as [H _].
  apply in_map_iff in H as [name [<- Hn]]. exact Hn.
Qed.

Lemma slice_part (text : str) (a b : Z) :
  exists x y, text = x ++ slice text a b ++ y.
Proof.
  unfold slice.
  exists (firstn (Z.to_nat a) text),
         (skipn (Z.to_nat (b - a)) (skipn (Z.to_nat a) text)).
  rewrite firstn_skipn, firstn_skipn. reflexivity.
Qed.

(** ** Status extractor: the values *)

Lemma statuses_loop_values (text : str) (ps : list position)
    (acc : object Z) :
  (forall g v, In (g, v) acc -> 0 <= v /\ recorded_from text g v) ->
  forall g v, In (g, v) (statuses_loop text ps acc) ->
              0 <= v /\ recorded_from text g v.
Proof.
  revert acc; induction ps as [|p ps IH]; intros acc Hacc;
    cbn [statuses_loop]; auto.
  set (nextIdx := match ps with
                  | q :: _ => p_idx q
                  | [] => Z.of_nat (length text)
                  end).
  destruct (search (status_pattern (p_name p)) (slice text (p_idx p) nextIdx))
    as [m|] eqn:Hs; [|apply IH, Hacc].
  pose proof Hs as Hs'.
  apply search_from_exec in Hs' as [prev' [a [s' [_ He]]]].
  apply status_capture in He.
  destruct (str_eqb (toLowerCase (trim (group1 m))) (lit "full")) eqn:Hfull.
  - apply IH. intros g v Hin.
    apply obj_set_In in Hin as [[-> ->]|Hin]; [|apply Hacc, Hin].
    split; [lia|]. exists (slice text (p_idx p) nextIdx), m.
    split; [apply slice_part|]. split; [exact Hs|]. left.
    split; [|reflexivity].
    destruct He as [He|[ds He]]; [exact He|].
    apply percentage_value in He as [He _]. congruence.
  - destruct He as [He|[ds He]].
    { rewrite (full_is_trimmed _ He) in Hfull. unfold is_full in He.
      rewrite He in Hfull. discriminate. }
    pose proof (percentage_value _ _ He) as [_ Hp]. rewrite Hp.
    destruct (to_double (decimal ds)) as [n| |] eqn:Hn; simpl;
      try (apply IH, Hacc).
    apply IH. intros g v Hin.
    apply obj_set_In in Hin as [[-> ->]|Hin]; [|apply Hacc, Hin].
    split.
    + apply (to_double_nonneg (decimal ds)); [|exact Hn].
      destruct He as [ws [_ [_ [Hd _]]]]. apply decimal_nonneg, Hd.
    + exists (slice text (p_idx p) nextIdx), m.
      split; [apply slice_part|]. split; [exact Hs|]. right.
      exists ds. split; assumption.
Qed.

Lemma statuses_loop_keys (text : str) (ps : list position)
    (acc : object Z) (g : str) :
  In g (map fst (statuses_loop text ps acc)) ->
  In g (map fst acc) \/ In g (map p_name ps).
Proof.
  revert acc; induction ps as [|p ps IH]; intros acc;
    cbn [statuses_loop map In]; auto.
  assert (Hset : forall v, In g (map fst (obj_set acc (p_name p) v)) ->
                   In g (map fst acc) \/ p_name p = g).
  { intros v. rewrite obj_set_keys. destruct (map_has acc (p_name p)); auto.
    rewrite in_app_iff. simpl. tauto. }
  destruct (search _ _) as [m|]; [|intros H; apply IH in H; tauto].
  destruct (str_eqb _ _).
  - intros H. apply IH in H as [H|H]; [apply Hset in H|]; tauto.
  - destruct (isFinite _).
    + intros H. apply IH in H as [H|H]; [apply Hset in H|]; tauto.
    + intros H; apply IH in H; tauto.
Qed.

(** Group 1 takes part in every match of the pattern. *)
Lemma group1_participates (name s : str) (m : mstate) :
  search (status_pattern name) s = Some m -> m_cap m = Some (group1 m).
Proof.
  intros H. apply search_from_exec in H as [prev [a [s' [_ H]]]].
  apply exec_cap in H as [c Hc]. unfold group1. rewrite Hc. reflexivity.
Qed.

(** C3 (as the code has it): every value that the extractor records is
    a non-negative integer, of one of the four known garages: 100 when
    the matched text is "Full" in any case, and otherwise the number
    written before the percent sign, whatever its size (as a double);
    the records of a run carry these values as they are. *)
Theorem status_values (text g : str) (v : Z) :
  In (g, v) (parseStatuses text) ->
  0 <= v /\ In g garageNames /\ recorded_from text g v
  /\ (forall fetchedAt lastUpdated,
        map (fun row => (garage row, status row))
          (make_rows fetchedAt lastUpdated (parseStatuses text))
        = parseStatuses text).
Proof.
  intros H.
  pose proof (statuses_loop_values text (positions text) []
                ltac:(intros ? ? []) g v H) as [Hv Hr].
  split; [exact Hv|]. split; [|split; [exact Hr|]].
  - assert (Hk : In g (map fst (parseStatuses text)))
      by (apply in_map_iff; exists (g, v); auto).
    apply statuses_loop_keys in Hk as [[]|Hk].
    apply in_map_iff in Hk as [p [<- Hp]]. apply (positions_names text), Hp.
  - intros fetchedAt lastUpdated. apply make_rows_entries.
Qed.

Lemma status_values_witness :
  In (lit "South Garage", 250) (parseStatuses (lit "South Garage 250%"))
  /\ 0 <= 250
  /\ recorded_from (lit "South Garage 250%") (lit "South Garage") 250.
Proof.
  assert (H : In (lit "South Garage", 250)
                (parseStatuses (lit "South Garage 250%")))
    by (vm_compute; left; reflexivity).
  split; [exact H|].
  destruct (status_values _ _ _ H) as [H0 [_ [Hr _]]].
  split; [exact H0 | exact Hr].
Defined.

(** C3 (as stated) fails: a page that shows 250% yields the status
    250, which is above 100. *)
Lemma status_above_100 :
  parseStatuses (lit "South Garage 250%") = [(lit "South Garage", 250)]
  /\ ~ (0 <= 250 <= 100).
Proof. split; [vm_compute; reflexivity | lia]. Qed.

(** ** The replacement loop *)

Lemma replace_loop_skip (r : re) (rep : str) (x s : str)
    (prev : option ascii) :
  replace_loop r rep (length x) prev (x ++ s)
  = replace_loop r rep 0 (last_char x prev) s.
Proof.
  revert prev; induction x as [|c x IH]; intros prev; [reflexivity|].
  simpl. apply IH.
Qed.

Lemma replace_loop_match (r : re) (rep : str) (x s : str)
    (prev : option ascii) (st : mstate) :
  x <> [] -> exec r prev (x ++ s) = Some st -> m_rest st = s ->
  replace_loop r rep 0 prev (x ++ s)
  = rep ++ replace_loop r rep 0 (last_char x prev) s.
Proof.
  intros Hx He Hs. destruct x as [|c x]; [congruence|].
  cbn [replace_loop app]. cbn [app] in He. rewrite He, Hs.
  replace (length (c :: x ++ s) - length s)%nat with (S (length x))
    by (cbn [length]; rewrite length_app; lia).
  rewrite replace_loop_skip. reflexivity.
Qed.

Lemma replace_loop_copy (r : re) (rep : str) (c : ascii) (s : str)
    (prev : option ascii) :
  exec r prev (c :: s) = None ->
  replace_loop r rep 0 prev (c :: s)
  = c :: replace_loop r rep 0 (Some c) s.
Proof. intros He. cbn [replace_loop]. rewrite He. reflexivity. Qed.

Section Replaced.
Variable r : re.
Variable f : str -> option str.
Variable rep : str.
Hypothesis exec_f :
  forall prev s, option_map m_rest (exec r prev s) = f s.
Hypothesis f_consumes :
  forall s rest, f s = Some rest -> exists x, x <> [] /\ s = x ++ rest.

Lemma replace_loop_replaced (n : nat) :
  forall s prev, (length s <= n)%nat ->
                 replaced f rep s (replace_loop r rep 0 prev s).
Proof.
  induction n as [|n IH]; intros s prev Hn.
  - destruct s; [|simpl in Hn; lia].
    cbn [replace_loop]. pose proof (exec_f prev []) as He.
    destruct (exec r prev []) as [st|]; simpl in He.
    + symmetry in He. apply f_consumes in He as [x [Hx He]].
      destruct x; [congruence | discriminate].
    + constructor.
  - pose proof (exec_f prev s) as He.
    destruct (exec r prev s) as [st|] eqn:Hex; simpl in He; symmetry in He.
    + pose proof (f_consumes _ _ He) as [x [Hx Hs]].
      rewrite Hs at 2.
      rewrite (replace_loop_match r rep x (m_rest st) prev st Hx);
        [|rewrite <- Hs; exact Hex | reflexivity].
      rewrite Hs at 1. apply Rp_match; [exact Hx | rewrite <- Hs; exact He|].
      apply IH. rewrite Hs, length_app in Hn.
      destruct x; [congruence | simpl in Hn; lia].
    + destruct s as [|c s]; [cbn [replace_loop]; rewrite Hex; constructor|].
      rewrite replace_loop_copy by exact Hex.
      apply Rp_copy; [exact He|]. apply IH. simpl in Hn; lia.
Qed.

Lemma replace_all_replaced (s : str) : replaced f rep s (replace_all r rep s).
Proof. apply (replace_loop_replaced (length s)). lia. Qed.

End Replaced.

Lemma replaced_inv (f : str -> option str) (rep s t : str) :
  replaced f rep s t ->
  (s = [] /\ t = [])
  \/ (exists c s' t', s = c :: s' /\ f s = None /\ t = c :: t'
                        /\ replaced f rep s' t')
  \/ (exists x s' t', s = x ++ s' /\ x <> [] /\ f s = Some s'
                        /\ t = rep ++ t' /\ replaced f rep s' t').
Proof.
  destruct 1 as [|c s t Hf H|x s t Hx Hf H].
  - left; auto.
  - right; left. exists c, s, t. auto.
  - right; right. exists x, s, t. auto.
Qed.

Lemma replaced_fun (f : str -> option str) (rep s t1 t2 : str) :
  replaced f rep s t1 -> replaced f rep s t2 -> t1 = t2.
Proof.
  intros H1; revert t2; induction H1 as [|c s t Hf H1 IH|x s t Hx Hf H1 IH];
    intros t2 H2; apply replaced_inv in H2;
    destruct H2 as [[Hs Ht]|[[c' [s' [t' [Hs [Hf' [Ht H2]]]]]]
                             |[y [s' [t' [Hs [Hy [Hf' [Ht H2]]]]]]]]];
    subst t2; try congruence.
  - symmetry in Hs. apply app_eq_nil in Hs as [-> _]. congruence.
  - inversion Hs; subst c' s'. f_equal. apply IH, H2.
  - apply app_eq_nil in Hs as [-> _]. congruence.
  - assert (s' = s) by congruence. subst s'. f_equal. apply IH, H2.
Qed.

(** ** What the patterns of the normalizer match *)

Lemma run_literal (R : Type) (ci : bool) (l : str) :
  forall (st : mstate) (k : mstate -> option R),
    run (literal ci l) st k
    = match strip_prefix ci l (m_rest st) with
      | Some rest =>
          k (MState (last_char (firstn (length l) (m_rest st)) (m_prev st))
               rest (m_cap st))
      | None => None
      end.
Proof.
  induction l as [|a l IH]; intros [prev s cap] k; [reflexivity|].
  cbn [literal run strip_prefix m_rest m_prev m_cap length].
  destruct s as [|c s]; [reflexivity|].
  replace ((if ci then chr_ci a else chr_is a) c) with (same_char ci a c)
    by (destruct ci; reflexivity).
  destruct (same_char ci a c); [|reflexivity].
  rewrite IH. reflexivity.
Qed.

Lemma strip_prefix_split (ci : bool) (l s rest : str) :
  strip_prefix ci l s = Some rest ->
  exists x, s = x ++ rest /\ length x = length l
            /\ if ci then map canon x = map canon l else x = l.
Proof.
  revert s; induction l as [|a l IH]; intros s; simpl.
  - intros H; inversion H; subst. exists []. destruct ci; auto.
  - destruct s as [|c s]; [discriminate|].
    destruct (same_char ci a c) eqn:Hc; [|discriminate].
    intros H. apply IH in H as [x [-> [Hl Hx]]].
    exists (c :: x). simpl. rewrite Hl. repeat split.
    unfold same_char, chr_ci, chr_is in Hc.
    destruct ci; apply Ascii.eqb_eq in Hc; congruence.
Qed.

Lemma strip_prefix_app (ci : bool) (l x rest : str) :
  length x = length l ->
  (if ci then map canon x = map canon l else x = l) ->
  strip_prefix ci l (x ++ rest) = Some rest.
Proof.
  revert x; induction l as [|a l IH]; intros [|c x] Hl Hx;
    try discriminate; [reflexivity|].
  simpl in *.
  assert (Hc : same_char ci a c = true).
  { unfold same_char, chr_ci, chr_is.
    destruct ci; apply Ascii.eqb_eq; inversion Hx; auto. }
  rewrite Hc. apply IH; [lia|].
  destruct ci; inversion Hx; auto.
Qed.

Lemma lazy_then_literal (l : str) (cap : option str) :
  forall (s : str) (prev : option ascii),
    option_map m_rest
      (rep_lazy any_char prev s (fun prev' s' =>
         run (literal true l) (MState prev' s' cap) (@Some mstate)))
    = after_first true l s.
Proof.
  induction s as [|c s IH]; intros prev;
    cbn [rep_lazy after_first]; rewrite run_literal;
    cbn [m_rest]; destruct (strip_prefix true l _); try reflexivity.
  cbn [any_char]. apply IH.
Qed.

Lemma exec_block (open close : string) (prev : option ascii) (s : str) :
  option_map m_rest (exec (block_re open close) prev s)
  = after_block open close s.
Proof.
  unfold exec, block_re, after_block. cbn [run].
  rewrite run_literal. cbn [m_rest m_prev m_cap].
  destruct (strip_prefix true (lit open) s) as [s1|]; [|reflexivity].
  unfold lazy_star. cbn [run rep_min m_rest m_prev m_cap].
  apply lazy_then_literal.
Qed.

Lemma exec_nbsp (prev : option ascii) (s : str) :
  option_map m_rest (exec nbsp_re prev s) = after_nbsp s.
Proof.
  unfold exec, nbsp_re, after_nbsp. rewrite run_literal. cbn [m_rest].
  destruct (strip_prefix false (lit "&nbsp;") s); reflexivity.
Qed.

Lemma rep_greedy_total (p : ascii -> bool)
    (k : option ascii -> str -> option mstate) :
  (forall prev s, k prev s <> None) ->
  forall s prev,
    rep_greedy p prev s k
    = k (last_char (take_while p s) prev) (drop_while p s).
Proof.
  intros Hk. induction s as [|c s IH]; intros prev; [reflexivity|].
  cbn [rep_greedy take_while drop_while]. destruct (p c); [|reflexivity].
  rewrite IH. cbn [last_char fold_left].
  destruct (k _ (drop_while p s)) eqn:Hd; [reflexivity|].
  exfalso; exact (Hk _ _ Hd).
Qed.

Lemma rep_greedy_max (p : ascii -> bool)
    (k : option ascii -> str -> option mstate) :
  (forall prev c s, p c = true -> k prev (c :: s) = None) ->
  forall s prev,
    rep_greedy p prev s k
    = k (last_char (take_while p s) prev) (drop_while p s).
Proof.
  intros Hk. induction s as [|c s IH]; intros prev; [reflexivity|].
  cbn [rep_greedy take_while drop_while]. destruct (p c) eqn:Hc;
    [|reflexivity].
  rewrite IH, (Hk prev c s Hc). cbn [last_char fold_left].
  destruct (k _ (drop_while p s)); reflexivity.
Qed.

Lemma drop_while_head (p : ascii -> bool) (s : str) (c : ascii) (rest : str) :
  drop_while p s = c :: rest -> p c = false.
Proof.
  induction s as [|d s IH]; simpl; [discriminate|].
  destruct (p d) eqn:Hd; [exact IH|].
  intros H; inversion H; subst; exact Hd.
Qed.

Lemma exec_tag (prev : option ascii) (s : str) :
  option_map m_rest (exec tag_re prev s) = after_tag s.
Proof.
  unfold exec, tag_re, after_tag, plus.
  cbn [run rep_min m_rest m_prev m_cap].
  destruct s as [|c [|d s]]; [reflexivity| |].
  - unfold chr_is. destruct (Ascii.eqb c "<"); reflexivity.
  - unfold chr_is at 1. destruct (Ascii.eqb c "<"); [|reflexivity].
    cbn [andb]. destruct (not_gt d) eqn:Hd; [|reflexivity].
    rewrite rep_greedy_max.
    + destruct (drop_while not_gt s) as [|e rest] eqn:Hdrop; [reflexivity|].
      apply drop_while_head in Hdrop. unfold not_gt in Hdrop.
      apply negb_false_iff in Hdrop. unfold chr_is. rewrite Hdrop.
      reflexivity.
    + intros prev' e s' He. unfold not_gt in He. apply negb_true_iff in He.
      unfold chr_is. rewrite He. reflexivity.
Qed.

Lemma drop_while_ws (s : str) : drop_while is_ws s = drop_ws s.
Proof. induction s as [|c s IH]; simpl; [|rewrite IH]; reflexivity. Qed.

Lemma exec_spaces (prev : option ascii) (s : str) :
  option_map m_rest (exec spaces_re prev s) = after_spaces s.
Proof.
  unfold exec, spaces_re, after_spaces, plus.
  cbn [run rep_min m_rest m_prev m_cap].
  destruct s as [|c s]; [reflexivity|].
  destruct (is_ws c); [|reflexivity].
  rewrite rep_greedy_total by discriminate.
  cbn [option_map m_rest]. rewrite drop_while_ws. reflexivity.
Qed.

Lemma after_first_suffix (ci : bool) (l s rest : str) :
  after_first ci l s = Some rest ->
  exists a x, s = a ++ x ++ rest /\ length x = length l
              /\ if ci then map canon x = map canon l else x = l.
Proof.
  induction s as [|c s IH]; cbn [after_first].
  - destruct (strip_prefix ci l []) eqn:Hp; [|discriminate].
    intros H; inversion H; subst.
    apply strip_prefix_split in Hp as [x [Hx Hl]]. exists [], x. auto.
  - destruct (strip_prefix ci l (c :: s)) eqn:Hp.
    + intros H; inversion H; subst.
      apply strip_prefix_split in Hp as [x [Hx Hl]]. exists [], x. auto.
    + intros H. apply IH in H as [a [x [-> Hl]]]. exists (c :: a), x. auto.
Qed.

Lemma take_drop_while (p : ascii -> bool) (s : str) :
  take_while p s ++ drop_while p s = s.
Proof.
  induction s as [|c s IH]; simpl; [reflexivity|].
  destruct (p c); simpl; [rewrite IH|]; reflexivity.
Qed.

Lemma after_block_consumes (open close : string) (s rest : str) :
  lit open <> [] ->
  after_block open close s = Some rest ->
  exists x, x <> [] /\ s = x ++ rest.
Proof.
  unfold after_block. intros Ho.
  destruct (strip_prefix true (lit open) s) as [s1|] eqn:Hp; [|discriminate].
  intros H. apply strip_prefix_split in Hp as [o [-> [Hl _]]].
  apply after_first_suffix in H as [a [x [-> _]]].
  exists (o ++ a ++ x). split.
  - destruct o; [|discriminate]. destruct (lit open); [congruence|].
    discriminate.
  - rewrite <- !app_assoc. reflexivity.
Qed.

Lemma after_tag_consumes (s rest : str) :
  after_tag s = Some rest -> exists x, x <> [] /\ s = x ++ rest.
Proof.
  unfold after_tag. destruct s as [|c [|d s]]; try discriminate.
  destruct (Ascii.eqb c "<" && not_gt d); [|discriminate].
  destruct (drop_while not_gt s) as [|e r] eqn:Hd; [discriminate|].
  intros H; inversion H; subst r.
  exists (c :: d :: take_while not_gt s ++ [e]). split; [discriminate|].
  simpl. rewrite <- app_assoc. simpl. rewrite <- Hd, take_drop_while.
  reflexivity.
Qed.

Lemma after_nbsp_consumes (s rest : str) :
  after_nbsp s = Some rest -> exists x, x <> [] /\ s = x ++ rest.
Proof.
  unfold after_nbsp. intros H.
  apply strip_prefix_split in H as [x [-> [Hl _]]].
  exists x. split; [|reflexivity]. destruct x; discriminate.
Qed.

Lemma drop_ws_suffix (s : str) : exists w, s = w ++ drop_ws s
                                           /\ forallb is_ws w = true.
Proof.
  induction s as [|c s [w [IH Hw]]]; simpl.
  - exists []. auto.
  - destruct (is_ws c) eqn:Hc.
    + exists (c :: w). simpl. rewrite Hc, Hw, <- IH. auto.
    + exists []. auto.
Qed.

Lemma after_spaces_consumes (s rest : str) :
  after_spaces s = Some rest -> exists x, x <> [] /\ s = x ++ rest.
Proof.
  unfold after_spaces. destruct s as [|c s]; [discriminate|].
  destruct (is_ws c); [|discriminate].
  intros H; inversion H; subst.
  destruct (drop_ws_suffix s) as [w [Hw _]].
  exists (c :: w). split; [discriminate|]. simpl. rewrite <- Hw. reflexivity.
Qed.

Lemma strip_script (s : str) :
  replaced (after_block "<script" "</script>") sp s
    (replace_all script_re sp s).
Proof.
  apply replace_all_replaced.
  - intros; apply exec_block.
  - intros s' rest. apply after_block_consumes. discriminate.
Qed.

Lemma strip_style (s : str) :
  replaced (after_block "<style" "</style>") sp s
    (replace_all style_re sp s).
Proof.
  apply replace_all_replaced.
  - intros; apply exec_block.
  - intros s' rest. apply after_block_consumes. discriminate.
Qed.

Lemma strip_tags (s : str) :
  replaced after_tag sp s (replace_all tag_re sp s).
Proof.
  apply replace_all_replaced;
    [intros; apply exec_tag | apply after_tag_consumes].
Qed.

Lemma strip_nbsp (s : str) :
  replaced after_nbsp sp s (replace_all nbsp_re sp s).
Proof.
  apply replace_all_replaced;
    [intros; apply exec_nbsp | apply after_nbsp_consumes].
Qed.

Lemma strip_spaces (s : str) :
  replaced after_spaces sp s (replace_all spaces_re sp s).
Proof.
  apply replace_all_replaced;
    [intros; apply exec_spaces | apply after_spaces_consumes].
Qed.

(** A pass changes nothing when each of its matches is the replacement
    itself. *)
Lemma replaced_same (f : str -> option str) (rep s t : str) :
  replaced f rep s t ->
  (forall a b rest, s = a ++ b -> f b = Some rest -> b = rep ++ rest) ->
  t = s.
Proof.
  induction 1 as [|c s t Hf H IH|x s t Hx Hf H IH]; intros Hall.
  - reflexivity.
  - f_equal. apply IH. intros a b rest Hs. apply (Hall (c :: a)).
    rewrite Hs. reflexivity.
  - pose proof (Hall [] (x ++ s) s eq_refl Hf) as Hrep.
    apply app_inv_tail in Hrep. subst x. f_equal.
    apply IH. intros a b rest Hs. apply (Hall (rep ++ a)).
    rewrite Hs, app_assoc. reflexivity.
Qed.

Lemma has_gt_app (a b : str) : has_gt (a ++ b) = has_gt a || has_gt b.
Proof. unfold has_gt. apply existsb_app. Qed.

Lemma replaced_has_gt (f : str -> option str) (s t : str) :
  replaced f sp s t -> has_gt t = true -> has_gt s = true.
Proof.
  induction 1 as [|c s t Hf H IH|x s t Hx Hf H IH]; intros Ht.
  - exact Ht.
  - cbn [has_gt existsb] in *. apply orb_true_iff in Ht as [Ht|Ht].
    + rewrite Ht. reflexivity.
    + apply orb_true_iff. right. apply IH, Ht.
  - rewrite has_gt_app. apply orb_true_iff. right. apply IH.
    exact Ht.
Qed.

Lemma replaced_head (f : str -> option str) (rep : str) (c : ascii)
    (s t : str) :
  replaced f rep (c :: s) t -> f (c :: s) = None ->
  exists t', t = c :: t' /\ replaced f rep s t'.
Proof.
  intros H Hf. apply replaced_inv in H.
  destruct H as [[Hs _]|[[c' [s' [t' [Hs [_ [Ht H]]]]]]
                         |[x [s' [t' [_ [_ [Hf' _]]]]]]]].
  - discriminate.
  - inversion Hs; subst. eauto.
  - congruence.
Qed.

(** A tag in the result of a pass that leaves [>] alone was a tag
    before the pass. *)
Lemma tag_at_back (f : str -> option str) (s t : str) :
  (forall s', f (">"%char :: s') = None) ->
  replaced f sp s t ->
  tag_at ("<"%char :: t) = true -> tag_at ("<"%char :: s) = true.
Proof.
  intros Hgt H Ht. cbn [tag_at] in *.
  destruct t as [|d t]; [discriminate|].
  apply andb_true_iff in Ht as [Hd Ht]. cbn [andb] in Hd.
  pose proof (replaced_has_gt _ _ _ H) as Hmono.
  destruct s as [|d' s].
  { apply replaced_inv in H.
    destruct H as [[_ H]|[[? [? [? [H _]]]]|[x [? [? [H [Hx _]]]]]]];
      try discriminate.
    symmetry in H. apply app_eq_nil in H as [-> _]. congruence. }
  destruct (not_gt d') eqn:Hd'.
  - cbn [andb]. cbn [has_gt existsb] in Hmono.
    unfold not_gt in Hd'. apply negb_true_iff in Hd'. rewrite Hd' in Hmono.
    apply Hmono. cbn [orb]. unfold not_gt in Hd. apply negb_true_iff in Hd.
    rewrite Hd. exact Ht.
  - unfold not_gt in Hd'. apply negb_false_iff, Ascii.eqb_eq in Hd'.
    subst d'. apply replaced_head in H as [t' [Heq _]]; [|apply Hgt].
    inversion Heq; subst d. discriminate.
Qed.

Lemma no_tag_suffix (a b : str) : no_tag (a ++ b) = true -> no_tag b = true.
Proof.
  induction a as [|c a IH]; [auto|]. cbn [app no_tag].
  intros H. apply andb_true_iff in H as [_ H]. auto.
Qed.

Lemma no_tag_at (s : str) : no_tag s = true -> tag_at s = false.
Proof.
  destruct s as [|c s]; [reflexivity|]. cbn [no_tag].
  intros H. apply andb_true_iff in H as [H _].
  apply negb_true_iff in H. exact H.
Qed.

Lemma no_tag_replaced (f : str -> option str) (s t : str) :
  (forall s', f (">"%char :: s') = None) ->
  replaced f sp s t -> no_tag s = true -> no_tag t = true.
Proof.
  intros Hgt. induction 1 as [|c s t Hf H IH|x s t Hx Hf H IH]; intros Hs.
  - reflexivity.
  - cbn [no_tag] in *. apply andb_true_iff in Hs as [Hc Hs].
    rewrite (IH Hs), andb_true_r. apply negb_true_iff.
    apply negb_true_iff in Hc.
    destruct (tag_at (c :: t)) eqn:Ht; [|reflexivity].
    assert (c = "<"%char).
    { cbn [tag_at] in Ht. destruct t; [discriminate|].
      apply andb_true_iff in Ht as [Ht _].
      apply andb_true_iff in Ht as [Ht _]. apply Ascii.eqb_eq, Ht. }
    subst c. rewrite (tag_at_back f s t Hgt H Ht) in Hc. discriminate.
  - apply no_tag_suffix in Hs. cbn [sp app no_tag].
    rewrite (IH Hs). destruct t; reflexivity.
Qed.

Lemma after_tag_gt (s : str) : after_tag (">"%char :: s) = None.
Proof. destruct s; reflexivity. Qed.

Lemma after_nbsp_gt (s : str) : after_nbsp (">"%char :: s) = None.
Proof. reflexivity. Qed.

Lemma after_spaces_gt (s : str) : after_spaces (">"%char :: s) = None.
Proof. reflexivity. Qed.

Lemma no_tag_after_tags (s t : str) :
  replaced after_tag sp s t -> no_tag t = true.
Proof.
  induction 1 as [|c s t Hf H IH|x s t Hx Hf H IH].
  - reflexivity.
  - cbn [no_tag]. rewrite IH, andb_true_r. apply negb_true_iff.
    destruct (tag_at (c :: t)) eqn:Ht; [|reflexivity].
    assert (c = "<"%char).
    { cbn [tag_at] in Ht. destruct t; [discriminate|].
      apply andb_true_iff in Ht as [Ht _].
      apply andb_true_iff in Ht as [Ht _]. apply Ascii.eqb_eq, Ht. }
    subst c.
    assert (Hs : tag_at ("<"%char :: s) = true)
      by (apply (tag_at_back after_tag s t); auto using after_tag_gt).
    cbn [tag_at] in Hs. destruct s as [|d s]; [discriminate|].
    apply andb_true_iff in Hs as [Hd Hg]. cbn [andb] in Hd.
    unfold after_tag in Hf. rewrite Hd in Hf.
    destruct (drop_while not_gt s) as [|e r] eqn:Hdrop; [|discriminate].
    exfalso. clear -Hg Hdrop.
    induction s as [|c s IH]; [discriminate|].
    cbn [has_gt existsb drop_while] in *. unfold not_gt in Hdrop.
    destruct (Ascii.eqb c ">"); [discriminate|]. cbn [negb orb] in *.
    auto.
  - cbn [sp app no_tag]. rewrite IH. destruct t; reflexivity.
Qed.

(** A text without a space that starts the result of a pass started the
    text before the pass. *)
Lemma starts_with_back (f : str -> option str) (q : str) :
  forallb (fun c => negb (Ascii.eqb c " ")) q = true ->
  forall s t, replaced f sp s t ->
              starts_with q t = true -> starts_with q s = true.
Proof.
  induction q as [|a q IH]; [reflexivity|].
  intros Hq s t H Ht. cbn [forallb] in Hq.
  apply andb_true_iff in Hq as [Ha Hq].
  apply replaced_inv in H.
  destruct H as [[-> ->]|[[c [s' [t' [-> [_ [-> H]]]]]]
                         |[x [s' [t' [_ [_ [_ [-> _]]]]]]]]].
  - discriminate.
  - cbn [starts_with] in *. apply andb_true_iff in Ht as [Hc Ht].
    rewrite Hc. apply (IH Hq _ _ H Ht).
  - cbn [sp app starts_with] in Ht. apply andb_true_iff in Ht as [Hc _].
    apply negb_true_iff in Ha. congruence.
Qed.

Lemma strip_prefix_starts_with (l s : str) :
  strip_prefix false l s = None <-> starts_with l s = false.
Proof.
  revert s; induction l as [|a l IH]; intros s; simpl.
  - split; discriminate.
  - destruct s as [|c s]; [tauto|].
    unfold same_char, chr_is. rewrite (Ascii.eqb_sym c a).
    destruct (Ascii.eqb a c); simpl; [apply IH | tauto].
Qed.

Lemma no_nbsp_suffix (a b : str) : no_nbsp (a ++ b) = true -> no_nbsp b = true.
Proof.
  induction a as [|c a IH]; [auto|]. cbn [app no_nbsp].
  intros H. apply andb_true_iff in H as [_ H]. auto.
Qed.

Lemma no_nbsp_replaced (f : str -> option str) (s t : str) :
  replaced f sp s t ->
  no_nbsp s = true \/ f = after_nbsp -> no_nbsp t = true.
Proof.
  induction 1 as [|c s t Hf H IH|x s t Hx Hf H IH]; intros Hs.
  - reflexivity.
  - cbn [no_nbsp].
    assert (Hc : starts_with (lit "&nbsp;") (c :: s) = false).
    { destruct Hs as [Hs| ->].
      - cbn [no_nbsp] in Hs. apply andb_true_iff in Hs as [Hs _].
        apply negb_true_iff in Hs. exact Hs.
      - apply strip_prefix_starts_with. exact Hf. }
    assert (Ht : no_nbsp t = true).
    { apply IH. destruct Hs as [Hs|Hs]; [left|right; exact Hs].
      cbn [no_nbsp] in Hs. apply andb_true_iff in Hs as [_ Hs]. exact Hs. }
    rewrite Ht, andb_true_r. apply negb_true_iff.
    destruct (starts_with (lit "&nbsp;") (c :: t)) eqn:Hst; [|reflexivity].
    rewrite (starts_with_back f (lit "&nbsp;") eq_refl (c :: s) (c :: t)
               (@Rp_copy f sp c s t Hf H) Hst) in Hc.
    discriminate.
  - assert (Ht : no_nbsp t = true).
    { apply IH. destruct Hs as [Hs|Hs]; [left|right; exact Hs].
      apply no_nbsp_suffix in Hs. exact Hs. }
    cbn [sp app no_nbsp]. rewrite Ht. reflexivity.
Qed.

Lemma starts_ws_drop_ws (s : str) : starts_ws (drop_ws s) = false.
Proof.
  induction s as [|c s IH]; [reflexivity|]. simpl.
  destruct (is_ws c) eqn:Hc; [exact IH | simpl; exact Hc].
Qed.

Lemma spaces_head (s t : str) :
  replaced after_spaces sp s t -> starts_ws s = false -> starts_ws t = false.
Proof.
  intros H Hs. apply replaced_inv in H.
  destruct H as [[-> ->]|[[c [s' [t' [-> [_ [-> H]]]]]]
                         |[x [s' [t' [Heq [_ [Hf _]]]]]]]].
  - reflexivity.
  - exact Hs.
  - unfold after_spaces in Hf. destruct s as [|c s]; [discriminate|].
    simpl in Hs. rewrite Hs in Hf. discriminate.
Qed.

Lemma single_spaced_after_spaces (s t : str) :
  replaced after_spaces sp s t -> single_spaced t = true.
Proof.
  induction 1 as [|c s t Hf H IH|x s t Hx Hf H IH].
  - reflexivity.
  - cbn [single_spaced]. rewrite IH, andb_true_r.
    unfold after_spaces in Hf. destruct (is_ws c); [discriminate|].
    reflexivity.
  - cbn [sp app single_spaced]. rewrite IH, andb_true_r.
    change (is_ws " ") with true. cbn iota.
    change (Ascii.eqb " " " ") with true. cbn [andb].
    apply negb_true_iff. apply (spaces_head s t H).
    unfold after_spaces in Hf. destruct (x ++ s) as [|c s0]; [discriminate|].
    destruct (is_ws c); [|discriminate].
    inversion Hf. apply starts_ws_drop_ws.
Qed.

(** ** Trimming *)

Lemma trim_split (s : str) :
  exists w1 w2, s = w1 ++ trim s ++ w2.
Proof.
  unfold trim.
  destruct (drop_ws_suffix s) as [w1 [H1 _]].
  destruct (drop_ws_suffix (rev (drop_ws s))) as [w2 [H2 _]].
  exists w1, (rev w2).
  rewrite <- rev_app_distr, <- H2, rev_involutive. exact H1.
Qed.

Lemma trim_trimmed (s : str) :
  starts_ws (trim s) = false /\ starts_ws (rev (trim s)) = false.
Proof.
  unfold trim. split.
  - remember (rev (drop_ws s)) as r eqn:Hr.
    assert (Hs : starts_ws (rev r) = false)
      by (subst r; rewrite rev_involutive; apply starts_ws_drop_ws).
    clear Hr. induction r as [|c r IH]; [reflexivity|].
    simpl. destruct (is_ws c) eqn:Hc.
    + apply IH. simpl in Hs. destruct (rev r) as [|d r'] eqn:Hrev.
      * simpl in Hs. congruence.
      * exact Hs.
    + exact Hs.
  - rewrite rev_involutive. apply starts_ws_drop_ws.
Qed.

Lemma tag_at_app (b w : str) : tag_at b = true -> tag_at (b ++ w) = true.
Proof.
  destruct b as [|c [|d b]]; try discriminate. cbn [tag_at app].
  intros H. apply andb_true_iff in H as [H1 H2].
  rewrite H1, has_gt_app, H2. reflexivity.
Qed.

Lemma no_tag_prefix (a w : str) : no_tag (a ++ w) = true -> no_tag a = true.
Proof.
  induction a as [|c a IH]; [reflexivity|]. cbn [app no_tag].
  intros H. apply andb_true_iff in H as [H1 H2].
  rewrite (IH H2), andb_true_r. apply negb_true_iff.
  apply negb_true_iff in H1.
  destruct (tag_at (c :: a)) eqn:Ht; [|reflexivity].
  apply (tag_at_app _ w) in Ht. cbn [app] in Ht. congruence.
Qed.

Lemma starts_with_app (p b w : str) :
  starts_with p b = true -> starts_with p (b ++ w) = true.
Proof.
  revert b; induction p as [|a p IH]; intros [|c b]; simpl; auto;
    try discriminate.
  intros H. apply andb_true_iff in H as [-> H]. simpl. auto.
Qed.

Lemma no_nbsp_prefix (a w : str) : no_nbsp (a ++ w) = true -> no_nbsp a = true.
Proof.
  induction a as [|c a IH]; [reflexivity|]. cbn [app no_nbsp].
  intros H. apply andb_true_iff in H as [H1 H2].
  rewrite (IH H2), andb_true_r. apply negb_true_iff.
  apply negb_true_iff in H1.
  destruct (starts_with (lit "&nbsp;") (c :: a)) eqn:Ht; [|reflexivity].
  apply (starts_with_app _ _ w) in Ht. cbn [app] in Ht. congruence.
Qed.

Lemma single_spaced_suffix (a b : str) :
  single_spaced (a ++ b) = true -> single_spaced b = true.
Proof.
  induction a as [|c a IH]; [auto|]. cbn [app single_spaced].
  intros H. apply andb_true_iff in H as [_ H]. auto.
Qed.

Lemma single_spaced_prefix (a w : str) :
  single_spaced (a ++ w) = true -> single_spaced a = true.
Proof.
  induction a as [|c a IH]; [reflexivity|]. cbn [app single_spaced].
  intros H. apply andb_true_iff in H as [H1 H2].
  rewrite (IH H2), andb_true_r.
  destruct (is_ws c); [|reflexivity].
  apply andb_true_iff in H1 as [-> H1]. cbn [andb].
  destruct a as [|d a]; [reflexivity | exact H1].
Qed.

(** The normalizer yields a text in normal form. *)
Lemma htmlToText_normal_form (html : str) : normal_form (htmlToText html).
Proof.
  unfold htmlToText.
  set (s1 := replace_all script_re sp html).
  set (s2 := replace_all style_re sp s1).
  set (s3 := replace_all tag_re sp s2).
  set (s4 := replace_all nbsp_re sp s3).
  set (s5 := replace_all spaces_re sp s4).
  pose proof (strip_tags s2) as H3. fold s3 in H3.
  pose proof (strip_nbsp s3) as H4. fold s4 in H4.
  pose proof (strip_spaces s4) as H5. fold s5 in H5.
  assert (T3 : no_tag s3 = true) by (apply (no_tag_after_tags _ _ H3)).
  assert (T4 : no_tag s4 = true)
    by (apply (no_tag_replaced _ _ _ after_nbsp_gt H4 T3)).
  assert (T5 : no_tag s5 = true)
    by (apply (no_tag_replaced _ _ _ after_spaces_gt H5 T4)).
  assert (N4 : no_nbsp s4 = true)
    by (apply (no_nbsp_replaced _ _ _ H4); right; reflexivity).
  assert (N5 : no_nbsp s5 = true)
    by (apply (no_nbsp_replaced _ _ _ H5); left; exact N4).
  assert (S5 : single_spaced s5 = true)
    by (apply (single_spaced_after_spaces _ _ H5)).
  destruct (trim_split s5) as [w1 [w2 Hs]].
  destruct (trim_trimmed s5) as [Ha Hb].
  unfold normal_form. rewrite Hs in T5, N5, S5.
  repeat split.
  - apply no_tag_suffix in T5. apply no_tag_prefix in T5. exact T5.
  - apply no_nbsp_suffix in N5. apply no_nbsp_prefix in N5. exact N5.
  - apply single_spaced_suffix in S5. apply single_spaced_prefix in S5.
    exact S5.
  - exact Ha.
  - exact Hb.
Qed.

(** ** A text in normal form is left as it is *)

Lemma canon_lt_gt :
  forall c, implb (Ascii.eqb (canon c) "<") (Ascii.eqb c "<")
            && implb (Ascii.eqb (canon c) ">") (Ascii.eqb c ">")
            && implb (Ascii.eqb (canon c) "S") (not_gt c) = true.
Proof. char_fact. Qed.

Lemma has_gt_canon (x l : str) :
  map canon x = map canon l -> has_gt l = true -> has_gt x = true.
Proof.
  revert l; induction x as [|c x IH]; intros [|a l] H; try discriminate.
  simpl in H. inversion H as [[Hc Hx]]. cbn [has_gt existsb].
  intros Hl. apply orb_true_iff in Hl as [Ha|Hl].
  - apply Ascii.eqb_eq in Ha. subst a.
    pose proof (canon_lt_gt c) as Hf.
    apply andb_true_iff in Hf as [Hf _]. apply andb_true_iff in Hf as [_ Hf].
    change (canon ">") with ">"%char in Hc.
    rewrite Hc in Hf. simpl in Hf. rewrite Hf. reflexivity.
  - apply orb_true_iff. right. apply (IH l Hx Hl).
Qed.

Lemma block_is_tag (open close : string) (o' : str) (s rest : str) :
  lit open = "<"%char :: "s"%char :: o' ->
  has_gt (lit close) = true ->
  after_block open close s = Some rest -> tag_at s = true.
Proof.
  unfold after_block. intros Ho Hc.
  destruct (strip_prefix true (lit open) s) as [s1|] eqn:Hp; [|discriminate].
  intros H. apply strip_prefix_split in Hp as [o [-> [_ Hm]]].
  apply after_first_suffix in H as [a [x [-> [_ Hx]]]].
  cbv iota in Hm, Hx. rewrite Ho in Hm. destruct o as [|c [|d o]]; try discriminate.
  simpl in Hm. inversion Hm as [[H1 H2 H3]].
  pose proof (canon_lt_gt c) as Hf.
  apply andb_true_iff in Hf as [Hf _]. apply andb_true_iff in Hf as [Hf _].
  change (canon "<") with "<"%char in H1. rewrite H1 in Hf. simpl in Hf.
  pose proof (canon_lt_gt d) as Hg. apply andb_true_iff in Hg as [_ Hg].
  change (canon "s") with "S"%char in H2. rewrite H2 in Hg. simpl in Hg.
  cbn [app tag_at]. rewrite Hf, Hg. cbn [andb].
  rewrite !has_gt_app, (has_gt_canon x (lit close) Hx Hc).
  rewrite !orb_true_r. reflexivity.
Qed.

Lemma tag_is_tag (s rest : str) : after_tag s = Some rest -> tag_at s = true.
Proof.
  unfold after_tag. destruct s as [|c [|d s]]; try discriminate.
  destruct (Ascii.eqb c "<" && not_gt d) eqn:Hcd; [|discriminate].
  destruct (drop_while not_gt s) as [|e r] eqn:Hd; [discriminate|].
  intros _. cbn [tag_at]. rewrite Hcd. cbn [andb].
  pose proof (drop_while_head _ _ _ _ Hd) as He.
  rewrite <- (take_drop_while not_gt s), Hd, has_gt_app.
  cbn [has_gt existsb]. unfold not_gt in He. apply negb_false_iff in He.
  rewrite He. rewrite orb_true_r. reflexivity.
Qed.

Lemma no_nbsp_at (s : str) :
  no_nbsp s = true -> starts_with (lit "&nbsp;") s = false.
Proof.
  destruct s as [|c s]; [reflexivity|]. cbn [no_nbsp].
  intros H. apply andb_true_iff in H as [H _].
  apply negb_true_iff in H. exact H.
Qed.

Lemma normal_form_fixed (t : str) : normal_form t -> htmlToText t = t.
Proof.
  intros [T [N [S [Ha Hb]]]]. unfold htmlToText.
  assert (H1 : replace_all script_re sp t = t).
  { apply (replaced_same _ _ _ _ (strip_script t)).
    intros a b rest -> Hf. apply no_tag_suffix in T.
    apply (block_is_tag _ _ (lit "cript")) in Hf; try reflexivity.
    rewrite (no_tag_at _ T) in Hf. discriminate. }
  rewrite H1.
  assert (H2 : replace_all style_re sp t = t).
  { apply (replaced_same _ _ _ _ (strip_style t)).
    intros a b rest -> Hf. apply no_tag_suffix in T.
    apply (block_is_tag _ _ (lit "tyle")) in Hf; try reflexivity.
    rewrite (no_tag_at _ T) in Hf. discriminate. }
  rewrite H2.
  assert (H3 : replace_all tag_re sp t = t).
  { apply (replaced_same _ _ _ _ (strip_tags t)).
    intros a b rest -> Hf. apply no_tag_suffix in T.
    apply tag_is_tag in Hf. rewrite (no_tag_at _ T) in Hf. discriminate. }
  rewrite H3.
  assert (H4 : replace_all nbsp_re sp t = t).
  { apply (replaced_same _ _ _ _ (strip_nbsp t)).
    intros a b rest -> Hf. apply no_nbsp_suffix in N.
    apply no_nbsp_at in N. apply strip_prefix_starts_with in N.
    unfold after_nbsp in Hf. congruence. }
  rewrite H4.
  assert (H5 : replace_all spaces_re sp t = t).
  { apply (replaced_same _ _ _ _ (strip_spaces t)).
    intros a b rest -> Hf. apply single_spaced_suffix in S.
    unfold after_spaces in Hf. destruct b as [|c b]; [discriminate|].
    cbn [single_spaced] in S. destruct (is_ws c); [|discriminate].
    apply andb_true_iff in S as [S _]. apply andb_true_iff in S as [Sc Sb].
    apply Ascii.eqb_eq in Sc. subst c. apply negb_true_iff in Sb.
    inversion Hf. rewrite (drop_ws_id _ Sb). reflexivity. }
  rewrite H5. apply trim_id; assumption.
Qed.

(** C9: the normalizer is idempotent. *)
Theorem htmlToText_idempotent (s : str) :
  htmlToText (htmlToText s) = htmlToText s.
Proof. apply normal_form_fixed, htmlToText_normal_form. Qed.

(** ** Blocks

    Looking for a text with a single [<], at its start, in front of a
    block. *)

Lemma strip_prefix_short (ci : bool) (l a : str) :
  (length a < length l)%nat -> strip_prefix ci l a = None.
Proof.
  revert a; induction l as [|x l IH]; intros a Hl; simpl in *; [lia|].
  destruct a as [|c a]; [reflexivity|].
  destruct (same_char ci x c); [|reflexivity]. apply IH. simpl in Hl; lia.
Qed.

Lemma strip_prefix_long (ci : bool) (l a b : str) :
  (length l <= length a)%nat ->
  strip_prefix ci l (a ++ b)
  = option_map (fun r => r ++ b) (strip_prefix ci l a).
Proof.
  revert a; induction l as [|x l IH]; intros a Hl; [reflexivity|].
  destruct a as [|c a]; [simpl in Hl; lia|]. cbn [app strip_prefix].
  destruct (same_char ci x c); [|reflexivity]. apply IH. simpl in Hl; lia.
Qed.

Lemma strip_prefix_overlap (l a b : str) :
  no_lt l = true -> (length a < length l)%nat -> lt_led b = true ->
  strip_prefix true l (a ++ b) = None.
Proof.
  revert l; induction a as [|c a IH]; intros [|x l] Hn Hl Hb;
    simpl in Hl; try lia.
  - destruct b as [|z b]; [discriminate|]. cbn [app strip_prefix].
    cbn [no_lt forallb] in Hn. apply andb_true_iff in Hn as [Hx _].
    cbn [lt_led] in Hb. apply Ascii.eqb_eq in Hb.
    unfold same_char, chr_ci. rewrite Hb.
    apply negb_true_iff in Hx. rewrite Ascii.eqb_sym, Hx. reflexivity.
  - cbn [app strip_prefix]. destruct (same_char true x c); [|reflexivity].
    cbn [no_lt forallb] in Hn. apply andb_true_iff in Hn as [_ Hn].
    apply IH; [exact Hn | lia | exact Hb].
Qed.

Lemma strip_prefix_straddle (l a b : str) :
  no_lt (tl l) = true -> a <> [] -> (length a < length l)%nat ->
  lt_led b = true -> strip_prefix true l (a ++ b) = None.
Proof.
  intros Hn Ha Hl Hb. destruct a as [|c a]; [congruence|].
  destruct l as [|x l]; [simpl in Hl; lia|].
  cbn [app strip_prefix]. destruct (same_char true x c); [|reflexivity].
  apply strip_prefix_overlap; [exact Hn | simpl in Hl; lia | exact Hb].
Qed.

Lemma after_first_before_block (l a b : str) :
  no_lt (tl l) = true -> lt_led b = true ->
  after_first true l (a ++ b)
  = match after_first true l a with
    | Some r => Some (r ++ b)
    | None => after_first true l b
    end.
Proof.
  intros Hn Hb. induction a as [|c a IH].
  - cbn [app after_first].
    destruct (strip_prefix true l []) as [r|] eqn:Hp; [|reflexivity].
    destruct l; [|discriminate]. inversion Hp; subst r.
    destruct b; reflexivity.
  - cbn [app after_first].
    destruct (Nat.le_gt_cases (length l) (length (c :: a))) as [Hl|Hl].
    + change (c :: a ++ b) with ((c :: a) ++ b).
      rewrite (strip_prefix_long true l (c :: a) b Hl).
      destruct (strip_prefix true l (c :: a)); [reflexivity | exact IH].
    + change (c :: a ++ b) with ((c :: a) ++ b).
      rewrite (strip_prefix_straddle l (c :: a) b Hn ltac:(discriminate)
                 Hl Hb).
      rewrite (strip_prefix_short true l (c :: a) Hl). exact IH.
Qed.

Lemma canon_lt_led (x l : str) :
  map canon x = map canon l -> lt_led l = true -> lt_led x = true.
Proof.
  destruct x as [|c x], l as [|a l]; try discriminate.
  simpl. intros H Ha. inversion H as [[Hc _]].
  apply Ascii.eqb_eq in Ha. apply Ascii.eqb_eq. congruence.
Qed.

Lemma after_first_here (ci : bool) (l s rest : str) :
  strip_prefix ci l s = Some rest -> after_first ci l s = Some rest.
Proof. intros H. destruct s; cbn [after_first]; rewrite H; reflexivity. Qed.

Lemma after_first_none (ci : bool) (l a b : str) :
  after_first ci l (a ++ b) = None -> strip_prefix ci l b = None.
Proof.
  induction a as [|c a IH]; cbn [app].
  - destruct b; cbn [after_first];
      destruct (strip_prefix ci l _); congruence.
  - cbn [after_first]. destruct (strip_prefix ci l (c :: a ++ b));
      [discriminate | exact IH].
Qed.

Lemma replaced_step (f : str -> option str) (rep s s' t : str) :
  s <> [] -> replaced f rep s t -> f s = Some s' ->
  exists t', t = rep ++ t' /\ replaced f rep s' t'.
Proof.
  intros Hs H Hf. apply replaced_inv in H.
  destruct H as [[H _]|[[c [s0 [t' [_ [Hn _]]]]]
                        |[x [s0 [t' [_ [_ [Hf' [-> H]]]]]]]]];
    try congruence.
  assert (s0 = s') by congruence. subst s0. eauto.
Qed.

Section BlockRemoval.
Variables open close : string.
Hypothesis open_lt : lt_led (lit open) = true.
Hypothesis open_tail : no_lt (tl (lit open)) = true.
Hypothesis close_lt : lt_led (lit close) = true.
Hypothesis close_tail : no_lt (tl (lit close)) = true.
Hypothesis close_not_in_open :
  forall o c, map canon o = map canon (lit open) ->
    after_first true (lit close) (o ++ c) = after_first true (lit close) c.

Lemma same_length (x l : str) :
  map canon x = map canon l -> length x = length l.
Proof.
  intros H. apply (f_equal (@length ascii)) in H.
  rewrite !length_map in H. exact H.
Qed.

Lemma block_end (o c cl post : str) :
  block open close o c cl ->
  after_first true (lit close) (o ++ c ++ cl ++ post) = Some post.
Proof.
  intros [Ho [Hcl Hc]]. rewrite (close_not_in_open o _ Ho).
  rewrite (after_first_before_block (lit close) c (cl ++ post) close_tail).
  - rewrite Hc. apply after_first_here.
    apply strip_prefix_app; [apply same_length|]; exact Hcl.
  - destruct cl as [|z cl].
    + destruct (lit close); discriminate.
    + apply (canon_lt_led (z :: cl) (lit close) Hcl close_lt).
Qed.

Lemma block_led (o c cl post : str) :
  block open close o c cl -> lt_led (o ++ c ++ cl ++ post) = true.
Proof.
  intros [Ho _]. destruct o as [|z o].
  - destruct (lit open); discriminate.
  - apply (canon_lt_led (z :: o) (lit open) Ho open_lt).
Qed.

Lemma block_step (pre o c cl post : str) :
  block open close o c cl ->
  after_block open close (pre ++ o ++ c ++ cl ++ post)
  = match strip_prefix true (lit open) pre with
    | Some r =>
        match after_first true (lit close) r with
        | Some r' => Some (r' ++ o ++ c ++ cl ++ post)
        | None => Some post
        end
    | None => match pre with [] => Some post | _ :: _ => None end
    end.
Proof.
  intros Hb. unfold after_block.
  destruct (Nat.le_gt_cases (length (lit open)) (length pre)) as [Hl|Hl].
  - rewrite (strip_prefix_long true (lit open) pre _ Hl).
    destruct (strip_prefix true (lit open) pre) as [r|] eqn:Hp; simpl.
    + rewrite (after_first_before_block (lit close) r _ close_tail
                 (block_led o c cl post Hb)).
      rewrite (block_end o c cl post Hb). reflexivity.
    + destruct pre; [|reflexivity].
      destruct (lit open); [discriminate | simpl in Hl; lia].
  - rewrite (strip_prefix_short true (lit open) pre Hl).
    destruct pre as [|d pre].
    + cbn [app]. destruct Hb as [Ho [Hcl Hc]].
      rewrite (strip_prefix_app true (lit open) o _ (same_length _ _ Ho) Ho).
      rewrite (after_first_before_block (lit close) c (cl ++ post)
                 close_tail).
      * rewrite Hc. apply after_first_here.
        apply strip_prefix_app; [apply same_length|]; exact Hcl.
      * destruct cl as [|z cl].
        -- destruct (lit close); discriminate.
        -- apply (canon_lt_led (z :: cl) (lit close) Hcl close_lt).
    + rewrite (strip_prefix_straddle (lit open) (d :: pre) _ open_tail
                 ltac:(discriminate) Hl (block_led o c cl post Hb)).
      reflexivity.
Qed.

(** The result of the pass does not depend on the content of a
    block. *)
Lemma block_removed (o c1 c2 cl post : str) :
  block open close o c1 cl -> block open close o c2 cl ->
  forall (n : nat) (pre t1 t2 : str),
    (length pre <= n)%nat ->
    replaced (after_block open close) sp (pre ++ o ++ c1 ++ cl ++ post) t1 ->
    replaced (after_block open close) sp (pre ++ o ++ c2 ++ cl ++ post) t2 ->
    t1 = t2.
Proof.
  intros B1 B2. induction n as [|n IH]; intros pre t1 t2 Hn H1 H2.
  - destruct pre; [|simpl in Hn; lia].
    pose proof (block_step [] o c1 cl post B1) as F1.
    pose proof (block_step [] o c2 cl post B2) as F2.
    assert (Hnone : strip_prefix true (lit open) [] = None)
      by (destruct (lit open); [discriminate | reflexivity]).
    rewrite Hnone in F1, F2. cbn [app] in *.
    assert (N1 : o ++ c1 ++ cl ++ post <> [])
      by (intros E; pose proof (block_led o c1 cl post B1) as L;
          rewrite E in L; discriminate).
    assert (N2 : o ++ c2 ++ cl ++ post <> [])
      by (intros E; pose proof (block_led o c2 cl post B2) as L;
          rewrite E in L; discriminate).
    destruct (replaced_step _ _ _ _ _ N1 H1 F1) as [u1 [-> R1]].
    destruct (replaced_step _ _ _ _ _ N2 H2 F2) as [u2 [-> R2]].
    f_equal. exact (replaced_fun _ _ _ _ _ R1 R2).
  - pose proof (block_step pre o c1 cl post B1) as F1.
    pose proof (block_step pre o c2 cl post B2) as F2.
    assert (N1 : pre ++ o ++ c1 ++ cl ++ post <> []).
    { intros E. apply app_eq_nil in E as [_ E].
      pose proof (block_led o c1 cl post B1) as L.
      rewrite E in L; discriminate. }
    assert (N2 : pre ++ o ++ c2 ++ cl ++ post <> []).
    { intros E. apply app_eq_nil in E as [_ E].
      pose proof (block_led o c2 cl post B2) as L.
      rewrite E in L; discriminate. }
    destruct (strip_prefix true (lit open) pre) as [r|] eqn:Hp.
    + destruct (after_first true (lit close) r) as [r'|] eqn:Ha.
      * destruct (replaced_step _ _ _ _ _ N1 H1 F1) as [u1 [-> R1]].
        destruct (replaced_step _ _ _ _ _ N2 H2 F2) as [u2 [-> R2]].
        f_equal. apply (IH r'); [|exact R1 | exact R2].
        apply strip_prefix_split in Hp as [x [-> [Hx _]]].
        apply after_first_suffix in Ha as [a [y [-> _]]].
        rewrite !length_app in Hn.
        destruct (lit open); [discriminate|].
        simpl in Hx. lia.
      * destruct (replaced_step _ _ _ _ _ N1 H1 F1) as [u1 [-> R1]].
        destruct (replaced_step _ _ _ _ _ N2 H2 F2) as [u2 [-> R2]].
        f_equal. exact (replaced_fun _ _ _ _ _ R1 R2).
    + destruct pre as [|d pre].
      * cbn [app] in *.
        destruct (replaced_step _ _ _ _ _ N1 H1 F1) as [u1 [-> R1]].
        destruct (replaced_step _ _ _ _ _ N2 H2 F2) as [u2 [-> R2]].
        f_equal. exact (replaced_fun _ _ _ _ _ R1 R2).
      * cbn [app] in *.
        destruct (replaced_head _ _ _ _ _ H1 F1) as [u1 [-> R1]].
        destruct (replaced_head _ _ _ _ _ H2 F2) as [u2 [-> R2]].
        f_equal. apply (IH pre); [simpl in Hn; lia | exact R1 | exact R2].
Qed.

End BlockRemoval.

Lemma script_open_has_no_close (o c : str) :
  map canon o = map canon (lit "<script") ->
  after_first true (lit "</script>") (o ++ c)
  = after_first true (lit "</script>") c.
Proof.
  intros H.
  destruct o as [|o0 [|o1 [|o2 [|o3 [|o4 [|o5 [|o6 [|o7 o]]]]]]]];
    try discriminate.
  simpl in H. injection H as H0 H1 H2 H3 H4 H5 H6.
  cbn [app after_first strip_prefix lit list_ascii_of_string].
  unfold same_char, chr_ci.
  rewrite H0, H1, H2, H3, H4, H5, H6. reflexivity.
Qed.

Lemma style_open_has_no_close (o c : str) :
  map canon o = map canon (lit "<style") ->
  after_first true (lit "</style>") (o ++ c)
  = after_first true (lit "</style>") c.
Proof.
  intros H.
  destruct o as [|o0 [|o1 [|o2 [|o3 [|o4 [|o5 [|o6 o]]]]]]];
    try discriminate.
  simpl in H. injection H as H0 H1 H2 H3 H4 H5.
  cbn [app after_first strip_prefix lit list_ascii_of_string].
  unfold same_char, chr_ci.
  rewrite H0, H1, H2, H3, H4, H5. reflexivity.
Qed.

Lemma script_pass_ignores_content (pre o c1 c2 cl post : str) :
  block "<script" "</script>" o c1 cl ->
  block "<script" "</script>" o c2 cl ->
  replace_all script_re sp (pre ++ o ++ c1 ++ cl ++ post)
  = replace_all script_re sp (pre ++ o ++ c2 ++ cl ++ post).
Proof.
  intros B1 B2.
  apply (block_removed "<script" "</script>" eq_refl eq_refl eq_refl
           eq_refl script_open_has_no_close o c1 c2 cl post B1 B2
           (length pre) pre _ _ (Nat.le_refl _));
    apply strip_script.
Qed.

Lemma style_pass_ignores_content (pre o c1 c2 cl post : str) :
  block "<style" "</style>" o c1 cl ->
  block "<style" "</style>" o c2 cl ->
  replace_all style_re sp (pre ++ o ++ c1 ++ cl ++ post)
  = replace_all style_re sp (pre ++ o ++ c2 ++ cl ++ post).
Proof.
  intros B1 B2.
  apply (block_removed "<style" "</style>" eq_refl eq_refl eq_refl
           eq_refl style_open_has_no_close o c1 c2 cl post B1 B2
           (length pre) pre _ _ (Nat.le_refl _));
    apply strip_style.
Qed.

Lemma no_script_no_change (s : str) :
  after_first true (lit "<script") s = None ->
  replace_all script_re sp s = s.
Proof.
  intros H. apply (replaced_same _ _ _ _ (strip_script s)).
  intros a b rest -> Hf. apply after_first_none in H.
  unfold after_block in Hf. rewrite H in Hf. discriminate.
Qed.

(** X30: the output of the normalizer does not depend on the content
    of a script block, whatever that content is: nothing of it
    survives.  The passes after the removal of the script blocks do not
    depend on the content of a style block, so that the content of a
    style block does not survive either when the script pass leaves
    the block in place, as it does in a page without [<script]. *)
Theorem block_content_does_not_survive :
  (forall pre o c1 c2 cl post,
     block "<script" "</script>" o c1 cl ->
     block "<script" "</script>" o c2 cl ->
     htmlToText (pre ++ o ++ c1 ++ cl ++ post)
     = htmlToText (pre ++ o ++ c2 ++ cl ++ post))
  /\ (forall pre o c1 c2 cl post,
        block "<style" "</style>" o c1 cl ->
        block "<style" "</style>" o c2 cl ->
        after_scripts (pre ++ o ++ c1 ++ cl ++ post)
        = after_scripts (pre ++ o ++ c2 ++ cl ++ post))
  /\ (forall s, htmlToText s = after_scripts (replace_all script_re sp s))
  /\ (forall s, after_first true (lit "<script") s = None ->
                htmlToText s = after_scripts s).
Proof.
  split; [|split; [|split]].
  - intros pre o c1 c2 cl post B1 B2. unfold htmlToText.
    rewrite (script_pass_ignores_content pre o c1 c2 cl post B1 B2).
    reflexivity.
  - intros pre o c1 c2 cl post B1 B2. unfold after_scripts.
    rewrite (style_pass_ignores_content pre o c1 c2 cl post B1 B2).
    reflexivity.
  - reflexivity.
  - intros s H. unfold htmlToText, after_scripts.
    rewrite (no_script_no_change s H). reflexivity.
Qed.

Lemma block_content_does_not_survive_witness :
  block "<script" "</script>" (lit "<SCRIPT") (lit ">if (a<b) s = 'Full';")
    (lit "</script>")
  /\ block "<script" "</script>" (lit "<SCRIPT") (lit ">") (lit "</script>")
  /\ htmlToText (lit "<p>West Garage" ++ lit "<SCRIPT"
                 ++ lit ">if (a<b) s = 'Full';" ++ lit "</script>"
                 ++ lit " 20%</p>")
     = htmlToText (lit "<p>West Garage" ++ lit "<SCRIPT" ++ lit ">"
                   ++ lit "</script>" ++ lit " 20%</p>").
Proof.
  assert (B1 : block "<script" "</script>" (lit "<SCRIPT")
                 (lit ">if (a<b) s = 'Full';") (lit "</script>"))
    by (repeat split; reflexivity).
  assert (B2 : block "<script" "</script>" (lit "<SCRIPT") (lit ">")
                 (lit "</script>"))
    by (repeat split; reflexivity).
  split; [exact B1|]. split; [exact B2|].
  exact (proj1 block_content_does_not_survive _ _ _ _ _ _ B1 B2).
Defined.

(** C8: the normalizer at a style block whose content opens a script
    block that is closed after the end of the style block.  The script
    pass runs first and takes the closing tag of the style block away,
    so that the style pass finds no block: the content [x] of the style
    block stays in the output, where the same page with an empty style
    block gives [z w]. *)
Lemma style_content_survives :
  htmlToText (lit "<style>x<script>y</style>z</script>w") = lit "x w"
  /\ block "<style" "</style>" (lit "<style") (lit ">x<script>y")
       (lit "</style>")
  /\ block "<style" "</style>" (lit "<style") (lit ">") (lit "</style>")
  /\ htmlToText (lit "<style" ++ lit ">x<script>y" ++ lit "</style>"
                 ++ lit "z</script>w") = lit "x w"
  /\ htmlToText (lit "<style" ++ lit ">" ++ lit "</style>"
                 ++ lit "z</script>w") = lit "z w".
Proof. repeat split; vm_compute; reflexivity. Qed.

(** ** Status extractor: a page that lists each garage once *)




Lemma percent_not_digit_ws :
  is_digit "%" = false /\ is_ws "%" = false.
Proof. split; reflexivity. Qed.







Lemma matches_literal_intro (l : str) :
  forall (x s : str) (prev : option ascii) (cap : option str),
    map canon x = map canon l ->
    matches (literal true l) (MState prev (x ++ s) cap)
      (MState (last_char x prev) s cap).
Proof.
  induction l as [|a l IH]; intros [|c x] s prev cap H; try discriminate.
  - constructor.
  - simpl in H. inversion H as [[Hc Hx]]. cbn [literal app].
    apply M_Seq with (MState (Some c) (x ++ s) cap).
    + constructor. unfold chr_ci. apply Ascii.eqb_eq. exact Hc.
    + apply (IH x s (Some c) cap Hx).
Qed.

Lemma exec_matches (r : re) (prev : option ascii) (s : str) (m : mstate) :
  exec r prev s = Some m -> matches r (MState prev s None) m.
Proof.
  unfold exec. intros H. apply run_sound in H as [st' [Hm Hk]].
  inversion Hk; subst. exact Hm.
Qed.

Lemma matches_exec (r : re) (prev : option ascii) (s : str) (st' : mstate) :
  matches r (MState prev s None) st' -> exists m, exec r prev s = Some m.
Proof.
  intros Hm. unfold exec.
  destruct (run r (MState prev s None) (@Some mstate)) as [m|] eqn:Hr;
    [eauto|].
  pose proof (run_complete _ r _ _ Hr _ Hm). discriminate.
Qed.

Lemma app_same_length {A} (a b c d : list A) :
  a ++ b = c ++ d -> length a = length c -> a = c /\ b = d.
Proof.
  revert c; induction a as [|x a IH]; intros [|y c] H Hl;
    try discriminate; [auto|].
  simpl in H. inversion H; subst. simpl in Hl.
  destruct (IH c) as [-> ->]; auto.
Qed.

Lemma lower_same_canon (x l : str) :
  toLowerCase x = toLowerCase l -> map canon x = map canon l.
Proof.
  revert l; induction x as [|c x IH]; intros [|a l] H; simpl in *;
    try discriminate; auto.
  inversion H as [[Hc Hx]]. apply canon_lower in Hc. rewrite Hc.
  f_equal. apply IH, Hx.
Qed.



(** The place of a name that occurs once. *)
Lemma count_from_here (p b : str) :
  starts_with p b = true -> (1 <= count_from p b)%nat.
Proof. intros H. destruct b; cbn [count_from]; rewrite H; lia. Qed.

Lemma count_from_app (p a b : str) :
  (count_from p b <= count_from p (a ++ b))%nat.
Proof.
  induction a as [|c a IH]; [reflexivity|]. cbn [app count_from]. lia.
Qed.


Lemma starts_with_self (l r : str) : starts_with l (l ++ r) = true.
Proof.
  induction l as [|a l IH]; [reflexivity|]. simpl.
  rewrite Ascii.eqb_refl. exact IH.
Qed.



(** Sorting by a key. *)
Section SortByKey.
Variable A : Type.
Variable key : A -> Z.

Lemma sort_insert_sorted (x : A) (l : list A) :
  StronglySorted (fun a b => key a <= key b) l ->
  StronglySorted (fun a b => key a <= key b)
    (sort_insert (fun a b => key a - key b) x l).
Proof.
  induction 1 as [|y l Hs IH Hall]; cbn [sort_insert].
  - repeat constructor.
  - destruct (Z.leb_spec (key x - key y) 0) as [Hle|Hgt].
    + constructor; [constructor; assumption|].
      constructor; [lia|].
      rewrite Forall_forall in *. intros z Hz. specialize (Hall z Hz). lia.
    + constructor; [exact IH|].
      rewrite Forall_forall in *. intros z Hz.
      apply (Permutation_in _ (sort_insert_perm _ _ x l)) in Hz.
      destruct Hz as [<-|Hz]; [lia | auto].
Qed.

Lemma js_sort_sorted (l : list A) :
  StronglySorted (fun a b => key a <= key b)
    (js_sort (fun a b => key a - key b) l).
Proof.
  induction l as [|x l IH]; cbn [js_sort]; [constructor|].
  apply sort_insert_sorted, IH.
Qed.

Lemma sorted_perm_unique (l1 l2 : list A) :
  StronglySorted (fun a b => key a <= key b) l1 ->
  StronglySorted (fun a b => key a < key b) l2 ->
  Permutation l1 l2 -> l1 = l2.
Proof.
  intros H1; revert l2; induction H1 as [|x l1 Hs1 IH Hall1];
    intros l2 H2 Hp.
  - apply Permutation_nil in Hp. subst; reflexivity.
  - destruct l2 as [|y l2];
      [apply Permutation_sym, Permutation_nil in Hp; discriminate|].
    inversion H2 as [|? ? Hs2 Hall2]; subst.
    rewrite Forall_forall in Hall1, Hall2.
    assert (Hxy : x = y).
    { assert (Hx : In x (y :: l2))
        by (apply (Permutation_in _ Hp); left; reflexivity).
      assert (Hy : In y (x :: l1))
        by (apply (Permutation_in _ (Permutation_sym Hp)); left;
            reflexivity).
      destruct Hx as [Hx|Hx]; [auto|].
      destruct Hy as [Hy|Hy]; [auto|].
      specialize (Hall1 y Hy). specialize (Hall2 x Hx). lia. }
    subst y. f_equal. apply IH; [exact Hs2|].
    apply (Permutation_cons_inv Hp).
Qed.

End SortByKey.









Lemma line_terminator_is_ws :
  forall c, implb (is_line_terminator c)
              (is_ws c && negb (Ascii.eqb c " ")) = true.
Proof. char_fact. Qed.









(** ** The calendar *)

Lemma all_from_spec (P : Z -> bool) (n : nat) :
  forall z, all_from n z P = true ->
            forall k, z <= k < z + Z.of_nat n -> P k = true.
Proof.
  induction n as [|n IH]; intros z H k Hk; [lia|].
  cbn [all_from] in H. apply andb_true_iff in H as [Hz H].
  destruct (Z.eq_dec k z) as [->|Hne]; [exact Hz|].
  apply (IH (z + 1) H). lia.
Qed.

Lemma civil_check_era (doe : Z) : 0 <= doe < 146097 -> civil_check doe = true.
Proof.
  intros H.
  apply (all_from_spec civil_check (Z.to_nat 146097) 0);
    [vm_compute; reflexivity | lia].
Qed.

Lemma days_from_civil_from_days (z : Z) :
  let '(y, m, d) := civil_from_days z in
  days_from_civil y m d = z /\ 1 <= m <= 12 /\ 1 <= d <= 31.
Proof.
  unfold civil_from_days.
  set (z' := z + 719468).
  set (era := z' / 146097).
  set (doe := z' - era * 146097).
  assert (Hdoe : 0 <= doe < 146097).
  { unfold doe, era. pose proof (Z.div_mod z' 146097 ltac:(lia)).
    pose proof (Z.mod_pos_bound z' 146097 ltac:(lia)). lia. }
  pose proof (civil_check_era doe Hdoe) as Hc. unfold civil_check in Hc.
  set (yoe := (doe - doe / 1460 + doe / 36524 - doe / 146096) / 365) in *.
  set (doy := doe - (365 * yoe + yoe / 4 - yoe / 100)) in *.
  set (mp := (5 * doy + 2) / 153) in *.
  set (d := doy - (153 * mp + 2) / 5 + 1) in *.
  cbv zeta in Hc.
  repeat (apply andb_true_iff in Hc as [Hc ?]).
  repeat match goal with
         | H : (_ <=? _) = true |- _ => apply Z.leb_le in H
         end.
  assert (Hm : let m := if mp <? 10 then mp + 3 else mp - 9 in
               1 <= m <= 12
               /\ (if 2 <? m then m - 3 else m + 9) = mp
               /\ ((m <=? 2) = negb (mp <? 10))).
  { cbv zeta. destruct (Z.ltb_spec mp 10).
    - destruct (Z.ltb_spec 2 (mp + 3)); [|lia].
      destruct (Z.leb_spec (mp + 3) 2); [lia|]. repeat split; lia.
    - destruct (Z.ltb_spec 2 (mp - 9)); [lia|].
      destruct (Z.leb_spec (mp - 9) 2); [|lia]. repeat split; lia. }
  cbv zeta in Hm. destruct Hm as [Hm1 [Hm2 Hm3]].
  set (m := if mp <? 10 then mp + 3 else mp - 9) in *.
  split; [|split; [exact Hm1 | lia]].
  unfold days_from_civil. rewrite Hm2, Hm3.
  assert (Hy : (if negb (mp <? 10)
                then (if negb (mp <? 10) then yoe + era * 400 + 1
                      else yoe + era * 400) - 1
                else (if negb (mp <? 10) then yoe + era * 400 + 1
                      else yoe + era * 400))
               = yoe + era * 400)
    by (destruct (mp <? 10); simpl; lia).
  rewrite Hy.
  assert (He : (yoe + era * 400) / 400 = era).
  { rewrite Z.div_add by lia. rewrite Z.div_small by lia. lia. }
  rewrite He.
  replace (yoe + era * 400 - era * 400) with yoe by lia.
  unfold d, doy, doe, z'. lia.
Qed.

(** ** Day keys *)

Lemma uint_digits (u : Decimal.uint) :
  forallb is_digit
    (list_ascii_of_string (DecimalString.NilEmpty.string_of_uint u)) = true.
Proof. induction u; simpl; auto. Qed.

Lemma int_to_string_digits (y : Z) :
  0 <= y -> forallb is_digit (int_to_string y) = true.
Proof.
  intros Hy. unfold int_to_string.
  destruct y as [|p|p]; [reflexivity| |lia]. cbn [Z.to_int].
  unfold DecimalString.NilZero.string_of_int,
    DecimalString.NilZero.string_of_uint.
  destruct (Pos.to_uint p) eqn:Hu; try reflexivity;
    rewrite <- Hu; apply uint_digits.
Qed.

Lemma to_number_int_to_string (y : Z) :
  0 <= y < 2 ^ 53 -> to_number (int_to_string y) = Num y.
Proof.
  intros Hy. unfold to_number, int_to_string.
  rewrite string_of_list_ascii_of_string.
  pose proof (DecimalZ.of_to y) as Hz.
  destruct y as [|p|p]; [reflexivity| |lia].
  cbn [Z.to_int] in *. cbn [Z.of_int] in Hz.
  unfold DecimalString.NilZero.string_of_int,
    DecimalString.NilZero.string_of_uint.
  assert (Hd : to_double (Z.pos p) = Num (Z.pos p)).
  { unfold to_double. destruct (Z.ltb_spec (Z.pos p) (2 ^ 53)); [reflexivity|].
    lia. }
  destruct (Pos.to_uint p) eqn:Hu;
    try (rewrite DecimalString.NilEmpty.usu, Hz; exact Hd).
  simpl in Hz. discriminate.
Qed.

Lemma split_on_none (s : str) :
  forallb is_digit s = true -> split_on "-" s = [s].
Proof.
  induction s as [|c s IH]; [reflexivity|]. cbn [forallb split_on].
  intros H. apply andb_true_iff in H as [Hc Hs].
  pose proof (implb_elim _ _ (digit_not_sign c) Hc) as Hn.
  repeat (apply andb_true_iff in Hn as [Hn ?]).
  match goal with H : negb (Ascii.eqb c "-") = true |- _ =>
    apply negb_true_iff in H; rewrite H end.
  rewrite (IH Hs). reflexivity.
Qed.

Lemma split_on_dash (a rest : str) :
  forallb is_digit a = true ->
  split_on "-" (a ++ "-"%char :: rest) = a :: split_on "-" rest.
Proof.
  induction a as [|c a IH]; [reflexivity|]. cbn [forallb app split_on].
  intros H. apply andb_true_iff in H as [Hc Hs].
  pose proof (implb_elim _ _ (digit_not_sign c) Hc) as Hn.
  repeat (apply andb_true_iff in Hn as [Hn ?]).
  match goal with H : negb (Ascii.eqb c "-") = true |- _ =>
    apply negb_true_iff in H; rewrite H end.
  rewrite (IH Hs). reflexivity.
Qed.

Lemma days_from_civil_day (y m d : Z) :
  days_from_civil y m d = days_from_civil y m 1 + d - 1.
Proof. unfold days_from_civil. lia. Qed.

(** The date that the sort computes from the key of an instant is the
    local midnight of its day. *)
Lemma key_date_of_key (zn : zone) (t : Z) :
  in_range zn t ->
  key_date zn (getDayKey zn t)
  = Some (local_day zn t * msPerDay
          - offset_of_local zn (local_day zn t * msPerDay)).
Proof.
  unfold in_range, getDayKey, local_day.
  unfold getFullYear, getMonth, getDate, LocalTime.
  pose proof (days_from_civil_from_days ((t + offset_at zn t) / msPerDay))
    as Hc.
  destruct (civil_from_days ((t + offset_at zn t) / msPerDay)) as [[y m] d].
  destruct Hc as [Hday [Hm Hd]]. cbv beta iota. intros Hy.
  unfold key_date.
  assert (Hy53 : 0 <= y < 2 ^ 53) by (split; [lia|];
    apply Z.le_lt_trans with 275760; [lia | reflexivity]).
  assert (Hm53 : 0 <= m - 1 < 2 ^ 53) by (split; [lia|];
    apply Z.le_lt_trans with 11; [lia | reflexivity]).
  assert (Hd53 : 0 <= d < 2 ^ 53) by (split; [lia|];
    apply Z.le_lt_trans with 31; [lia | reflexivity]).
  cbn [lit list_ascii_of_string app].
  rewrite split_on_dash by (apply int_to_string_digits; lia).
  rewrite split_on_dash by (apply int_to_string_digits; lia).
  rewrite split_on_none by (apply int_to_string_digits; lia).
  cbn [map].
  rewrite !to_number_int_to_string by assumption.
  f_equal. unfold new_Date, MakeDay. cbv zeta.
  destruct (Z.leb_spec 0 y); [|lia].
  destruct (Z.leb_spec y 99); [lia|]. cbn [andb].
  rewrite (Z.div_small (m - 1) 12) by lia.
  rewrite (Z.mod_small (m - 1) 12) by lia.
  replace (y + 0) with y by lia. replace (m - 1 + 1) with m by lia.
  rewrite <- days_from_civil_day, Hday. reflexivity.
Qed.

(** ** Daily averages: the grouping *)

Lemma map_has_In {V} (o : object V) (k : str) :
  map_has o k = true <-> In k (map fst o).
Proof.
  unfold map_has. pose proof (obj_get_None o k) as H.
  destruct (obj_get o k); split; intros; try discriminate; auto.
  - destruct (in_dec (list_eq_dec ascii_dec) k (map fst o)) as [Hi|Hn];
      [exact Hi|]. apply H in Hn. discriminate.
  - exfalso. apply H; auto.
Qed.

Lemma obj_set_keys_In {V} (o : object V) (k d : str) (v : V) :
  In d (map fst (obj_set o k v)) <-> In d (map fst o) \/ d = k.
Proof.
  rewrite obj_set_keys. destruct (map_has o k) eqn:Hk.
  - apply map_has_In in Hk. split; [auto | intros [H| ->]; auto].
  - rewrite in_app_iff. simpl. split; intros [H|H]; auto.
    + destruct H as [H|[]]; auto.
Qed.

Section DayMap.
Variable zn : zone.
Variable date_parse : str -> option Z.

Lemma add_row_invalid (dm : object (object (list Z))) (r : GarageStatusRow) :
  valid_time date_parse r = None -> add_row zn date_parse dm r = dm.
Proof.
  unfold valid_time, add_row. destruct (fetched_at r); [reflexivity|].
  intros ->. reflexivity.
Qed.

Lemma add_row_valid (dm : object (object (list Z))) (r : GarageStatusRow)
    (t : Z) :
  valid_time date_parse r = Some t ->
  add_row zn date_parse dm r
  = let dayKey := getDayKey zn t in
    let dm1 := if negb (map_has dm dayKey) then obj_set dm dayKey []
               else dm in
    let gm := match obj_get dm1 dayKey with Some g => g | None => [] end in
    let gm1 := if negb (map_has gm (garage r)) then obj_set gm (garage r) []
               else gm in
    let arr := match obj_get gm1 (garage r) with Some a => a | None => [] end in
    obj_set dm1 dayKey (obj_set gm1 (garage r) (arr ++ [status r])).
Proof.
  unfold valid_time, add_row. destruct (fetched_at r); [discriminate|].
  intros ->. reflexivity.
Qed.

Lemma readings_add_row (dm : object (object (list Z))) (r : GarageStatusRow)
    (d g : str) :
  readings (add_row zn date_parse dm r) d g
  = readings dm d g
    ++ match valid_time date_parse r with
       | Some t =>
           if str_eqb (getDayKey zn t) d && str_eqb (garage r) g
           then [status r] else []
       | None => []
       end.
Proof.
  destruct (valid_time date_parse r) as [t|] eqn:Hv.
  2:{ rewrite (add_row_invalid dm r Hv). symmetry. apply app_nil_r. }
  rewrite (add_row_valid dm r t Hv). cbv zeta.
  set (k := getDayKey zn t).
  set (dm1 := if negb (map_has dm k) then obj_set dm k [] else dm).
  set (gm := match obj_get dm1 k with Some g0 => g0 | None => [] end).
  set (gm1 := if negb (map_has gm (garage r)) then obj_set gm (garage r) []
              else gm).
  set (arr := match obj_get gm1 (garage r) with Some a => a | None => [] end).
  assert (Hdm1 : forall x, x <> k -> obj_get dm1 x = obj_get dm x).
  { intros x Hx. unfold dm1. destruct (negb (map_has dm k)); [|reflexivity].
    rewrite obj_get_set. destruct (str_eqb k x) eqn:E; [|reflexivity].
    apply str_eqb_eq in E. congruence. }
  assert (Hgm : forall x, match obj_get gm x with Some a => a | None => [] end
                          = readings dm k x).
  { intros x. unfold gm, dm1, readings, map_has.
    destruct (obj_get dm k) eqn:E; simpl; [rewrite E; reflexivity|].
    rewrite obj_get_set, str_eqb_refl. reflexivity. }
  assert (Hgm1 : forall x, x <> garage r -> obj_get gm1 x = obj_get gm x).
  { intros x Hx. unfold gm1.
    destruct (negb (map_has gm (garage r))); [|reflexivity].
    rewrite obj_get_set. destruct (str_eqb (garage r) x) eqn:E;
      [|reflexivity].
    apply str_eqb_eq in E. congruence. }
  assert (Harr : arr = readings dm k (garage r)).
  { unfold arr, gm1, map_has. rewrite <- Hgm.
    destruct (obj_get gm (garage r)) eqn:E; simpl; [rewrite E; reflexivity|].
    rewrite obj_get_set, str_eqb_refl. reflexivity. }
  unfold readings at 1. rewrite obj_get_set.
  destruct (str_eqb k d) eqn:Hd.
  - apply str_eqb_eq in Hd. subst d. rewrite obj_get_set.
    destruct (str_eqb (garage r) g) eqn:Hg; cbn [andb].
    + apply str_eqb_eq in Hg. subst g. rewrite Harr. reflexivity.
    + apply str_eqb_neq in Hg.
      rewrite (Hgm1 g (fun E => Hg (eq_sym E))), Hgm, app_nil_r.
      reflexivity.
  - cbn [andb]. apply str_eqb_neq in Hd.
    rewrite (Hdm1 d (fun E => Hd (eq_sym E))), app_nil_r. reflexivity.
Qed.

Lemma readings_fold (rs : list GarageStatusRow) :
  forall dm d g,
    readings (fold_left (add_row zn date_parse) rs dm) d g
    = readings dm d g ++ statuses_on zn date_parse rs d g.
Proof.
  induction rs as [|r rs IH]; intros dm d g; cbn [fold_left].
  - symmetry. apply app_nil_r.
  - rewrite IH, readings_add_row, <- app_assoc. f_equal.
    unfold statuses_on. cbn [filter].
    destruct (valid_time date_parse r) as [t|]; [|reflexivity].
    destruct (str_eqb (getDayKey zn t) d && str_eqb (garage r) g);
      reflexivity.
Qed.

Lemma readings_build (rs : list GarageStatusRow) (d g : str) :
  readings (build_dayMap zn date_parse rs) d g
  = statuses_on zn date_parse rs d g.
Proof. unfold build_dayMap. rewrite readings_fold. reflexivity. Qed.

Lemma keys_add_row (dm : object (object (list Z))) (r : GarageStatusRow)
    (d : str) :
  In d (map fst (add_row zn date_parse dm r))
  <-> In d (map fst dm)
      \/ exists t, valid_time date_parse r = Some t /\ getDayKey zn t = d.
Proof.
  destruct (valid_time date_parse r) as [t|] eqn:Hv.
  - rewrite (add_row_valid dm r t Hv). cbv zeta.
    rewrite obj_set_keys_In.
    destruct (negb (map_has dm (getDayKey zn t))).
    + rewrite obj_set_keys_In. split.
      * intros [[H|H]|H]; auto; right; exists t; auto.
      * intros [H|[t' [Ht <-]]]; [auto|]. inversion Ht; auto.
    + split.
      * intros [H|H]; auto; right; exists t; auto.
      * intros [H|[t' [Ht <-]]]; [auto|]. inversion Ht; auto.
  - rewrite (add_row_invalid dm r Hv). split; [auto|].
    intros [H|[t [Ht _]]]; [exact H | discriminate].
Qed.

Lemma keys_fold (rs : list GarageStatusRow) :
  forall dm d,
    In d (map fst (fold_left (add_row zn date_parse) rs dm))
    <-> In d (map fst dm)
        \/ exists r t, In r rs /\ valid_time date_parse r = Some t
                       /\ getDayKey zn t = d.
Proof.
  induction rs as [|r rs IH]; intros dm d; cbn [fold_left].
  - split; [auto | intros [H|[r [t [[] _]]]]; exact H].
  - rewrite IH, keys_add_row. split.
    + intros [[H|[t [Ht Hk]]]|[r' [t [Hin H]]]]; auto.
      * right. exists r, t. simpl. auto.
      * right. exists r', t. simpl. tauto.
    + intros [H|[r' [t [[<-|Hin] H]]]]; auto.
      * left. right. exists t. exact H.
      * right. exists r', t. auto.
Qed.

Lemma add_row_NoDup (dm : object (object (list Z))) (r : GarageStatusRow) :
  NoDup (map fst dm) -> NoDup (map fst (add_row zn date_parse dm r)).
Proof.
  intros H. destruct (valid_time date_parse r) as [t|] eqn:Hv.
  - rewrite (add_row_valid dm r t Hv). cbv zeta.
    apply obj_set_NoDup.
    destruct (negb (map_has dm (getDayKey zn t)));
      [apply obj_set_NoDup|]; exact H.
  - rewrite (add_row_invalid dm r Hv). exact H.
Qed.

Lemma build_dayMap_NoDup (rs : list GarageStatusRow) :
  NoDup (map fst (build_dayMap zn date_parse rs)).
Proof.
  unfold build_dayMap.
  assert (H : forall dm, NoDup (map fst dm) ->
            NoDup (map fst (fold_left (add_row zn date_parse) rs dm))).
  { induction rs as [|r rs IH]; intros dm Hdm; cbn [fold_left]; auto.
    apply IH, add_row_NoDup, Hdm. }
  apply H. constructor.
Qed.

Lemma build_dayMap_keys (rs : list GarageStatusRow) (d : str) :
  In d (map fst (build_dayMap zn date_parse rs))
  <-> exists r t, In r rs /\ valid_time date_parse r = Some t
                  /\ getDayKey zn t = d.
Proof.
  unfold build_dayMap. rewrite keys_fold. simpl. tauto.
Qed.

End DayMap.

(** ** Daily averages: the order of the days *)

Section SortExt.
Variable A : Type.
Variables cmp cmp' : A -> A -> Z.

Lemma sort_insert_ext (x : A) (l : list A) :
  (forall b, In b l -> cmp x b = cmp' x b) ->
  sort_insert cmp x l = sort_insert cmp' x l.
Proof.
  induction l as [|y l IH]; intros H; [reflexivity|]. cbn [sort_insert].
  rewrite (H y (or_introl eq_refl)).
  destruct (cmp' x y <=? 0); [reflexivity|]. f_equal. apply IH.
  intros b Hb. apply H. right. exact Hb.
Qed.

Lemma js_sort_ext (l : list A) :
  (forall a b, In a l -> In b l -> cmp a b = cmp' a b) ->
  js_sort cmp l = js_sort cmp' l.
Proof.
  induction l as [|x l IH]; intros H; [reflexivity|]. cbn [js_sort].
  rewrite IH by (intros a b Ha Hb; apply H; right; assumption).
  apply sort_insert_ext. intros b Hb. apply H; [left; reflexivity|].
  right. apply (Permutation_in _ (js_sort_perm _ cmp' l)). exact Hb.
Qed.

End SortExt.

Lemma getDayKey_local_day (zn : zone) (t1 t2 : Z) :
  local_day zn t1 = local_day zn t2 -> getDayKey zn t1 = getDayKey zn t2.
Proof.
  unfold local_day, getDayKey, getFullYear, getMonth, getDate, LocalTime.
  intros ->. reflexivity.
Qed.

Lemma day_instant_of_key (zn : zone) (t : Z) :
  in_range zn t ->
  day_instant zn (getDayKey zn t)
  = local_day zn t * msPerDay
    - offset_of_local zn (local_day zn t * msPerDay).
Proof.
  intros H. unfold day_instant. rewrite (key_date_of_key zn t H).
  reflexivity.
Qed.

(** In a steady zone the instants of the local time 0:00 of two days
    are in the order of the days. *)
Lemma day_order (zn : zone) (a b : Z) :
  steady zn ->
  a * msPerDay - offset_of_local zn (a * msPerDay)
  < b * msPerDay - offset_of_local zn (b * msPerDay)
  <-> a < b.
Proof.
  intros Hs. pose proof (Hs (a * msPerDay) (b * msPerDay)) as H.
  destruct (Z.eq_dec a b) as [->|Hne]; [lia|].
  unfold msPerDay in *. lia.
Qed.

Lemma strongly_sorted_strict {A} (R : A -> A -> Prop) (l : list A) :
  StronglySorted R l -> NoDup l ->
  StronglySorted (fun a b => R a b /\ a <> b) l.
Proof.
  induction 1 as [|x l Hs IH Hall]; intros Hnd; constructor.
  - apply IH. inversion Hnd; assumption.
  - inversion Hnd as [|? ? Hx _]; subst.
    rewrite Forall_forall in *. intros y Hy. split; [auto|].
    intros ->. exact (Hx Hy).
Qed.

Lemma strongly_sorted_impl {A} (R S : A -> A -> Prop) (l : list A) :
  (forall a b, In a l -> In b l -> R a b -> S a b) ->
  StronglySorted R l -> StronglySorted S l.
Proof.
  intros H Hs. induction Hs as [|x l Hs IH Hall]; constructor.
  - apply IH. intros a b Ha Hb. apply H; right; assumption.
  - rewrite Forall_forall in *. intros y Hy.
    apply H; [left; reflexivity | right; exact Hy | auto].
Qed.

Section Days.
Variable zn : zone.
Variable date_parse : str -> option Z.

Lemma days_of_In (rs : list GarageStatusRow) (d : str) :
  In d (days_of zn date_parse rs)
  <-> exists r t, In r rs /\ valid_time date_parse r = Some t
                  /\ getDayKey zn t = d.
Proof.
  unfold days_of, sortedDays. rewrite <- build_dayMap_keys. split.
  - apply (Permutation_in _ (js_sort_perm _ _ _)).
  - apply (Permutation_in _ (Permutation_sym (js_sort_perm _ _ _))).
Qed.

Lemma days_of_NoDup (rs : list GarageStatusRow) : NoDup (days_of zn date_parse rs).
Proof.
  unfold days_of, sortedDays.
  apply (Permutation_NoDup (Permutation_sym (js_sort_perm _ _ _))).
  apply build_dayMap_NoDup.
Qed.

Lemma days_of_sorted (rs : list GarageStatusRow) :
  steady zn ->
  (forall r t, In r rs -> valid_time date_parse r = Some t ->
               in_range zn t) ->
  StronglySorted (fun a b => day_instant zn a < day_instant zn b)
    (days_of zn date_parse rs).
Proof.
  intros Hz Hr.
  assert (Hkeys : forall d, In d (map fst (build_dayMap zn date_parse rs)) ->
            exists t, in_range zn t /\ getDayKey zn t = d).
  { intros d Hd. apply build_dayMap_keys in Hd as [r [t [Hin [Hv Hk]]]].
    exists t. split; [apply (Hr r t Hin Hv) | exact Hk]. }
  assert (Hsort : days_of zn date_parse rs
                  = js_sort (fun a b => day_instant zn a - day_instant zn b)
                      (map fst (build_dayMap zn date_parse rs))).
  { unfold days_of, sortedDays. apply js_sort_ext.
    intros a b Ha Hb.
    destruct (Hkeys a Ha) as [ta [Hra <-]].
    destruct (Hkeys b Hb) as [tb [Hrb <-]].
    unfold compare_days, day_instant.
    rewrite (key_date_of_key zn ta Hra), (key_date_of_key zn tb Hrb).
    reflexivity. }
  pose proof (days_of_NoDup rs) as Hnd.
  pose proof (js_sort_sorted _ (day_instant zn)
                (map fst (build_dayMap zn date_parse rs))) as Hs.
  rewrite <- Hsort in Hs.
  apply (strongly_sorted_strict _ _ Hs) in Hnd.
  apply strongly_sorted_impl
    with (R := fun a b => day_instant zn a <= day_instant zn b /\ a <> b);
    [|exact Hnd].
  intros a b Ha Hb [Hle Hne].
  apply days_of_In in Ha as [ra [ta [Hina [Hva Hka]]]].
  apply days_of_In in Hb as [rb [tb [Hinb [Hvb Hkb]]]].
  pose proof (Hr ra ta Hina Hva) as Hra.
  pose proof (Hr rb tb Hinb Hvb) as Hrb.
  rewrite <- Hka, <- Hkb in *.
  rewrite (day_instant_of_key zn ta Hra), (day_instant_of_key zn tb Hrb)
    in *.
  destruct (Z.eq_dec (local_day zn ta) (local_day zn tb)) as [He|He].
  - exfalso. apply Hne. apply getDayKey_local_day. exact He.
  - pose proof (day_order zn (local_day zn ta) (local_day zn tb) Hz).
    pose proof (day_order zn (local_day zn tb) (local_day zn ta) Hz).
    lia.
Qed.


Lemma days_of_perm (rs rs' : list GarageStatusRow) :
  steady zn ->
  (forall r t, In r rs -> valid_time date_parse r = Some t ->
               in_range zn t) ->
  Permutation rs rs' -> days_of zn date_parse rs' = days_of zn date_parse rs.
Proof.
  intros Hz Hr Hp.
  assert (Hr' : forall r t, In r rs' -> valid_time date_parse r = Some t ->
                            in_range zn t).
  { intros r t Hin. apply Hr.
    apply (Permutation_in _ (Permutation_sym Hp)). exact Hin. }
  apply (sorted_perm_unique _ (day_instant zn)).
  - apply strongly_sorted_impl
      with (R := fun a b => day_instant zn a < day_instant zn b);
      [|exact (days_of_sorted rs' Hz Hr')].
    intros a b _ _ H. lia.
  - apply days_of_sorted; [exact Hz | exact Hr].
  - apply NoDup_Permutation; [apply days_of_NoDup | apply days_of_NoDup|].
    intros d. rewrite !days_of_In. split.
    + intros [r [t [Hin H]]]. exists r, t. split; [|exact H].
      apply (Permutation_in _ (Permutation_sym Hp)). exact Hin.
    + intros [r [t [Hin H]]]. exists r, t. split; [|exact H].
      apply (Permutation_in _ Hp). exact Hin.
Qed.

End Days.

(** ** Doubles *)

Lemma to_double_small (v : Z) : v < 2 ^ 53 -> to_double v = Num v.
Proof.
  intros H. unfold to_double.
  destruct (Z.ltb_spec v (2 ^ 53)); [reflexivity | lia].
Qed.

Lemma round_double_small (v : Z) : Z.abs v < 2 ^ 53 -> round_double v = Fin v.
Proof.
  intros H. unfold round_double. rewrite (to_double_small _ H).
  f_equal. lia.
Qed.

Lemma fold_add_exact (l : list Z) (B : Z) :
  0 <= B -> (forall x, In x l -> Z.abs x <= B) ->
  forall acc,
    Z.abs acc + B * Z.of_nat (length l) < 2 ^ 53 ->
    fold_left add_double l (Fin acc) = Fin (fold_left Z.add l acc)
    /\ Z.abs (fold_left Z.add l acc) <= Z.abs acc + B * Z.of_nat (length l).
Proof.
  intros HB. induction l as [|x l IH]; intros Hl acc Hacc.
  - cbn [fold_left length]. split; [reflexivity | lia].
  - cbn [fold_left add_double]. cbn [length] in Hacc.
    rewrite Nat2Z.inj_succ in Hacc.
    assert (Hx : Z.abs x <= B) by (apply Hl; left; reflexivity).
    rewrite round_double_small by lia.
    destruct (IH (fun y Hy => Hl y (or_intror Hy)) (acc + x)) as [H1 H2];
      [lia|].
    split; [exact H1|]. cbn [length]. rewrite Nat2Z.inj_succ. lia.
Qed.

Lemma nearest_even_bounds (num den : Z) :
  0 < den ->
  - den <= 2 * (nearest_even num den * den - num) <= den
  /\ (num mod den = 0 -> nearest_even num den * den = num).
Proof.
  intros Hd. unfold nearest_even.
  pose proof (Z.div_mod num den ltac:(lia)) as Hdm.
  pose proof (Z.mod_pos_bound num den Hd) as Hm.
  set (q := num / den) in *. set (r := num mod den) in *.
  destruct (Z.ltb_spec den (2 * r)) as [H1|H1]; cbn [orb].
  - split; [lia|]. intros Hr. lia.
  - destruct (Z.eqb_spec (2 * r) den) as [H2|H2]; cbn [andb].
    + destruct (Z.odd q); split; try lia; intros Hr; lia.
    + split; [lia|]. intros Hr. lia.
Qed.

Lemma div_double_normal (a n : Z) :
  0 < a < 2 ^ 52 -> 0 < n < 2 ^ 52 ->
  exists e, e < 0
    /\ div_double a n = (nearest_even (a * 2 ^ (- e)) n, e)
    /\ 2 ^ 52 * n <= a * 2 ^ (- e).
Proof.
  intros Ha Hn. unfold div_double.
  pose proof (Z.log2_spec a ltac:(lia)) as [La1 La2].
  pose proof (Z.log2_spec n ltac:(lia)) as [Ln1 Ln2].
  pose proof (Z.log2_nonneg a) as La0. pose proof (Z.log2_nonneg n) as Ln0.
  assert (La : Z.log2 a < 52) by (apply Z.log2_lt_pow2; lia).
  assert (Ln : Z.log2 n < 52) by (apply Z.log2_lt_pow2; lia).
  set (la := Z.log2 a) in *. set (ln := Z.log2 n) in *.
  set (e0 := la - ln - 52).
  assert (He0 : -104 < e0 < 0) by (unfold e0; lia).
  unfold scaled at 1. destruct (Z.leb_spec 0 e0) as [?|_]; [lia|].
  destruct (Z.leb_spec (2 ^ 52 * n) (a * 2 ^ (- e0))) as [Ht|Ht].
  - exists e0. rewrite Z.max_l by lia. unfold scaled.
    destruct (Z.leb_spec 0 e0) as [?|_]; [lia|].
    split; [lia|]. split; [reflexivity | exact Ht].
  - exists (e0 - 1). rewrite Z.max_l by lia. unfold scaled.
    destruct (Z.leb_spec 0 (e0 - 1)) as [?|_]; [lia|].
    split; [lia|]. split; [reflexivity|].
    replace (- (e0 - 1)) with ((52 - la) + Z.succ ln) by (unfold e0; lia).
    rewrite Z.pow_add_r by lia.
    assert (H1 : 2 ^ 52 = 2 ^ la * 2 ^ (52 - la))
      by (rewrite <- Z.pow_add_r by lia; f_equal; lia).
    assert (Hp : 0 < 2 ^ (52 - la)) by (apply Z.pow_pos_nonneg; lia).
    assert (Hq : 0 < 2 ^ Z.succ ln) by (apply Z.pow_pos_nonneg; lia).
    rewrite H1.
    transitivity (2 ^ la * 2 ^ (52 - la) * 2 ^ Z.succ ln).
    + apply Z.mul_le_mono_nonneg_l; [lia | lia].
    + rewrite Z.mul_assoc. apply Z.mul_le_mono_nonneg_r; [lia|].
      apply Z.mul_le_mono_nonneg_r; lia.
Qed.

(** Rounding the quotient to a double first does not change the
    integer that [Math.round] gives, as long as the double is nearer to
    the quotient than the quotient is to a half. *)
Lemma round_core (s : Z) (v n m P h : Z) :
  (s = 1 \/ s = -1) -> 0 < v -> 0 < n -> n < P -> P = 2 * h ->
  - n <= 2 * (m * n - v * P) <= n ->
  ((v * P) mod n = 0 -> m * n = v * P) ->
  (2 * (s * m) + P) / (2 * P) = (2 * (s * v) + n) / (2 * n).
Proof.
  intros Hs Hv Hn HP Hh Hm Hex.
  pose proof (Z.div_mod (2 * (s * v) + n) (2 * n) ltac:(lia)) as Hd.
  pose proof (Z.mod_pos_bound (2 * (s * v) + n) (2 * n) ltac:(lia)) as Hb.
  set (k := (2 * (s * v) + n) / (2 * n)) in *.
  set (V := (2 * (s * v) + n) mod (2 * n)) in *.
  set (T := 2 * (s * m) + P - 2 * P * k).
  assert (HnT : n * T = P * V + 2 * s * (m * n - v * P)).
  { unfold T. replace V with (2 * (s * v) + n - 2 * n * k) by lia. ring. }
  assert (Hdelta : - n <= 2 * s * (m * n - v * P) <= n)
    by (destruct Hs as [-> | ->]; lia).
  assert (HPV : 0 <= P * V) by (apply Z.mul_nonneg_nonneg; lia).
  assert (HPV2 : P * V <= P * (2 * n - 1))
    by (apply Z.mul_le_mono_nonneg_l; lia).
  symmetry. apply Z.div_unique with (r := T); [|unfold T; lia].
  left. split.
  - destruct (Z_lt_le_dec T 0) as [Hneg|]; [exfalso | assumption].
    assert (n * T <= n * (-1)) by (apply Z.mul_le_mono_nonneg_l; lia).
    assert (HV0 : P * V = 0) by lia.
    apply Z.mul_eq_0 in HV0 as [?|HV0]; [lia|].
    assert (Hdiv : (v * P) mod n = 0).
    { assert (Hvp : v * P = (s * (2 * k - 1) * h) * n).
      { subst P. destruct Hs as [-> | ->]; lia. }
      rewrite Hvp. apply Z_mod_mult. }
    specialize (Hex Hdiv). lia.
  - destruct (Z_lt_le_dec T (2 * P)) as [|Hge]; [assumption | exfalso].
    assert (n * (2 * P) <= n * T) by (apply Z.mul_le_mono_nonneg_l; lia).
    assert (P * (2 * n - 1) = 2 * n * P - P) by ring.
    lia.
Qed.

Lemma round_quotient_exact (v n : Z) :
  v <> 0 -> Z.abs v < 2 ^ 52 -> 0 < n < 2 ^ 52 ->
  round_quotient (Fin v) n = Fin (round_div v n).
Proof.
  intros Hv0 Hv Hn. unfold round_quotient.
  destruct (Z.eqb_spec v 0) as [?|_]; [contradiction|].
  destruct (div_double_normal (Z.abs v) n ltac:(lia) Hn) as [e [He [Hd Hnorm]]].
  rewrite Hd. f_equal. unfold Math_round, round_div.
  destruct (Z.leb_spec 0 e) as [?|_]; [lia|].
  set (P := 2 ^ (- e)) in *.
  assert (HP : 2 ^ (1 - e) = 2 * P).
  { unfold P. replace (1 - e) with (1 + - e) by lia.
    rewrite Z.pow_add_r by lia. reflexivity. }
  assert (Hh : P = 2 * 2 ^ (- e - 1)).
  { unfold P. replace (- e) with (1 + (- e - 1)) at 1 by lia.
    rewrite Z.pow_add_r by lia. reflexivity. }
  assert (HnP : n < P).
  { assert (Z.abs v * P < 2 ^ 52 * P).
    { apply Z.mul_lt_mono_pos_r; [|lia]. unfold P.
      apply Z.pow_pos_nonneg; lia. }
    assert (2 ^ 52 * n < 2 ^ 52 * P) by lia.
    apply Z.mul_lt_mono_pos_l in H0; lia. }
  rewrite HP.
  destruct (nearest_even_bounds (Z.abs v * P) n ltac:(lia)) as [Hb Hex].
  set (m := nearest_even (Z.abs v * P) n) in *.
  replace (2 * v + n) with (2 * (Z.sgn v * Z.abs v) + n) by lia.
  apply round_core with (h := 2 ^ (- e - 1)); try assumption; lia.
Qed.

Lemma round_div_zero (n : Z) : 0 < n -> round_div 0 n = 0.
Proof. intros H. unfold round_div. apply Z.div_small. lia. Qed.

Lemma fold_add_sum (l : list Z) (acc : Z) :
  fold_left Z.add l acc = acc + sum l.
Proof.
  unfold sum. revert acc. induction l as [|x l IH]; intros acc;
    cbn [fold_left]; [lia|].
  rewrite IH, (IH (0 + x)). lia.
Qed.

(** For statuses that are small against the number of records, the
    value that the chart computes in doubles is the rounded mean. *)
Lemma average_exact (l : list Z) (N : Z) :
  (forall x, In x l -> Z.abs x * N < 2 ^ 52) ->
  Z.of_nat (length l) <= N ->
  average l = Fin (mean l).
Proof.
  intros Hl HN. unfold average, mean.
  destruct l as [|x0 l0]; [reflexivity|].
  set (l := x0 :: l0) in *.
  assert (Hlen : 0 < Z.of_nat (length l)) by (unfold l; cbn [length]; lia).
  replace (0 <? length l)%nat with true
    by (symmetry; apply Nat.ltb_lt; lia).
  set (B := (2 ^ 52 - 1) / N).
  assert (HB : 0 <= B) by (apply Z.div_pos; lia).
  assert (HBN : B * N <= 2 ^ 52 - 1)
    by (rewrite Z.mul_comm; apply Z.mul_div_le; lia).
  assert (Hx : forall x, In x l -> Z.abs x <= B).
  { intros x Hin. apply Z.div_le_lower_bound; [lia|].
    specialize (Hl x Hin). lia. }
  assert (HBn : B * Z.of_nat (length l) <= B * N)
    by (apply Z.mul_le_mono_nonneg_l; lia).
  destruct (fold_add_exact l B HB Hx 0 ltac:(lia)) as [Hsum Hbound].
  rewrite Hsum, fold_add_sum, Z.add_0_l in *.
  destruct (Z.eq_dec (sum l) 0) as [H0|H0].
  - rewrite H0, round_div_zero by lia. reflexivity.
  - apply round_quotient_exact; [exact H0 | lia |].
    split; [lia|].
    assert (1 <= B) by lia.
    assert (1 * Z.of_nat (length l) <= B * Z.of_nat (length l))
      by (apply Z.mul_le_mono_nonneg_r; lia).
    lia.
Qed.

(** ** Daily averages *)


Lemma data_point_values (zn : zone) (format_date : option Z -> str)
    (dm : object (object (list Z))) (d : str) :
  data_point zn format_date dm d
  = Daily (format_date (key_date zn d))
      (map (fun g => (g, average (readings dm d g))) GARAGES).
Proof.
  unfold data_point, readings.
  destruct (obj_get dm d) as [gm|]; reflexivity.
Qed.

Lemma dailyData_points (zn : zone) (date_parse : str -> option Z)
    (format_date : option Z -> str) (rs : list GarageStatusRow) :
  dailyData zn date_parse format_date rs
  = map (fun d =>
           Daily (format_date (key_date zn d))
             (map (fun g =>
                     (g, average (statuses_on zn date_parse rs d g)))
                GARAGES))
      (days_of zn date_parse rs).
Proof.
  assert (Hd : dailyData zn date_parse format_date rs
               = map (data_point zn format_date
                        (build_dayMap zn date_parse rs))
                   (days_of zn date_parse rs)).
  { unfold dailyData, days_of. destruct rs as [|r rs']; [reflexivity|].
    destruct (build_dayMap zn date_parse (r :: rs')); reflexivity. }
  rewrite Hd. apply map_ext. intros d. rewrite data_point_values.
  f_equal. apply map_ext. intros g. rewrite readings_build. reflexivity.
Qed.

Lemma filter_length {A} (p : A -> bool) (l : list A) :
  (length (filter p l) <= length l)%nat.
Proof.
  induction l as [|x l IH]; cbn [filter length]; [lia|].
  destruct (p x); cbn [length]; lia.
Qed.

(** The readings of a day are readings of the records, no more of them
    than there are records: their mean in doubles is exact when the
    statuses are small. *)
Lemma statuses_on_exact (zn : zone) (date_parse : str -> option Z)
    (rs : list GarageStatusRow) (d g : str) :
  small_statuses rs ->
  average (statuses_on zn date_parse rs d g)
  = Fin (mean (statuses_on zn date_parse rs d g)).
Proof.
  intros Hs. apply average_exact with (N := Z.of_nat (length rs)).
  - intros x Hx. unfold statuses_on in Hx.
    apply in_map_iff in Hx as [r [<- Hr]]. apply filter_In in Hr as [Hr _].
    apply Hs. exact Hr.
  - unfold statuses_on. rewrite length_map.
    apply Nat2Z.inj_le, filter_length.
Qed.





Lemma pacific_2024_steady : steady pacific_2024.
Proof.
  intros a b. unfold pacific_2024, offset_of_local, msPerDay.
  destruct ((1710039600000 <=? a) && (a <? 1730599200000));
    destruct ((1710039600000 <=? b) && (b <? 1730599200000)); lia.
Qed.



(** * Further properties of the code *)

(** ** Aggregation layer: the history of each garage *)

Lemma historyByGarage_fold (rs : list GarageStatusRow)
    (acc : object (list GarageStatusRow)) (g : str) :
  obj_get
    (fold_left
       (fun map row =>
          match obj_get map (garage row) with
          | Some arr => obj_set map (garage row) (arr ++ [row])
          | None => obj_set map (garage row) [row]
          end) rs acc) g
  = match obj_get acc g, rows_of g rs with
    | Some arr, l => Some (arr ++ l)
    | None, [] => None
    | None, l => Some l
    end.
Proof.
  revert acc; induction rs as [|row rs IH]; intros acc;
    cbn [fold_left rows_of filter].
  - destruct (obj_get acc g); [rewrite app_nil_r|]; reflexivity.
  - rewrite IH. fold (rows_of g rs).
    destruct (obj_get acc (garage row)) as [arr|] eqn:Hrow;
      rewrite obj_get_set;
      destruct (str_eqb (garage row) g) eqn:Heq.
    + apply str_eqb_eq in Heq. rewrite <- Heq, Hrow, <- app_assoc.
      reflexivity.
    + reflexivity.
    + apply str_eqb_eq in Heq. rewrite <- Heq, Hrow. reflexivity.
    + reflexivity.
Qed.

Lemma rows_of_In (g : str) (rs : list GarageStatusRow) (r : GarageStatusRow) :
  In r (rows_of g rs) <-> In r rs /\ garage r = g.
Proof.
  unfold rows_of. rewrite filter_In, str_eqb_eq. reflexivity.
Qed.

(** X1: the history of a garage is the list of the records of that
    garage, in the order in which the records were given; a garage
    without a record has no history (and never an empty one). *)
Theorem history_is_rows_of_garage (rs : list GarageStatusRow) (g : str) :
  obj_get (historyByGarage rs) g
  = match rows_of g rs with
    | [] => None
    | l => Some l
    end
  /\ (forall l, obj_get (historyByGarage rs) g = Some l ->
        l <> []
        /\ (forall r, In r l <-> In r rs /\ garage r = g)
        /\ exists r rest before after,
             l = r :: rest /\ rs = before ++ r :: after
             /\ ~ In g (map garage before))
  /\ (obj_get (historyByGarage rs) g = None <-> ~ In g (map garage rs)).
Proof.
  assert (H : obj_get (historyByGarage rs) g
              = match rows_of g rs with [] => None | l => Some l end).
  { unfold historyByGarage. rewrite historyByGarage_fold. reflexivity. }
  split; [exact H|]. rewrite H. split.
  - intros l Hl. destruct (rows_of g rs) as [|r rest] eqn:Hr; [discriminate|].
    inversion Hl; subst l; clear Hl. split; [discriminate|]. split.
    + intros x. rewrite <- Hr. apply rows_of_In.
    + exists r, rest. clear H. revert Hr.
      induction rs as [|x rs IH]; cbn [rows_of filter]; [discriminate|].
      destruct (str_eqb (garage x) g) eqn:Hx.
      * intros Hr. inversion Hr; subst. exists [], rs. simpl. tauto.
      * intros Hr. destruct (IH Hr) as [before [after [_ [-> Hn]]]].
        exists (x :: before), after. split; [reflexivity|].
        split; [reflexivity|]. simpl. apply str_eqb_neq in Hx. tauto.
  - destruct (rows_of g rs) as [|r rest] eqn:Hr.
    + split; [|reflexivity]. intros _ Hin.
      apply in_map_iff in Hin as [x [Hx Hin]].
      assert (Hi : In x (rows_of g rs)) by (apply rows_of_In; auto).
      rewrite Hr in Hi. destruct Hi.
    + split; [discriminate|]. intros Hn. exfalso. apply Hn.
      assert (Hi : In r (rows_of g rs)) by (rewrite Hr; left; reflexivity).
      apply rows_of_In in Hi as [Hi Hg]. apply in_map_iff. eauto.
Qed.

Lemma existsb_str_eqb (g : str) (ks : list str) :
  existsb (str_eqb g) ks = true <-> In g ks.
Proof.
  rewrite existsb_exists. split.
  - intros [x [Hx He]]. apply str_eqb_eq in He. subst; assumption.
  - intros H. exists g. split; [assumption | apply str_eqb_refl].
Qed.

Lemma first_seen_ext (rs : list GarageStatusRow) (s1 s2 : list str) :
  (forall k, In k s1 <-> In k s2) -> first_seen s1 rs = first_seen s2 rs.
Proof.
  revert s1 s2; induction rs as [|r rs IH]; intros s1 s2 H; [reflexivity|].
  cbn [first_seen].
  assert (He : existsb (str_eqb (garage r)) s1
               = existsb (str_eqb (garage r)) s2).
  { apply eq_true_iff_eq. rewrite !existsb_str_eqb. apply H. }
  rewrite He. destruct (existsb _ s2); [apply IH; assumption|].
  f_equal. apply IH. intros k. simpl. rewrite H. reflexivity.
Qed.

Lemma first_seen_step {V} (acc : object V) (row : GarageStatusRow)
    (rs : list GarageStatusRow) (v : V) :
  map fst (obj_set acc (garage row) v)
    ++ first_seen (map fst (obj_set acc (garage row) v)) rs
  = map fst acc ++ first_seen (map fst acc) (row :: rs).
Proof.
  rewrite obj_set_keys. cbn [first_seen].
  destruct (map_has acc (garage row)) eqn:Hh.
  - apply map_has_In, existsb_str_eqb in Hh. rewrite Hh. reflexivity.
  - assert (He : existsb (str_eqb (garage row)) (map fst acc) = false).
    { destruct (existsb _ _) eqn:He; [|reflexivity].
      apply existsb_str_eqb, map_has_In in He. congruence. }
    rewrite He, <- app_assoc. cbn [app]. do 2 f_equal.
    apply first_seen_ext. intros k. rewrite in_app_iff. simpl. tauto.
Qed.

Lemma latestByGarage_keys (rs : list GarageStatusRow)
    (acc : object GarageStatusRow) :
  map fst
    (fold_left
       (fun map row =>
          if negb (map_has map (garage row)) then obj_set map (garage row) row
          else map) rs acc)
  = map fst acc ++ first_seen (map fst acc) rs.
Proof.
  revert acc; induction rs as [|row rs IH]; intros acc.
  - simpl. rewrite app_nil_r. reflexivity.
  - cbn [fold_left]. rewrite IH.
    destruct (map_has acc (garage row)) eqn:Hh; cbn [negb].
    + cbn [first_seen]. apply map_has_In, existsb_str_eqb in Hh.
      rewrite Hh. reflexivity.
    + apply first_seen_step.
Qed.

Lemma historyByGarage_keys (rs : list GarageStatusRow)
    (acc : object (list GarageStatusRow)) :
  map fst
    (fold_left
       (fun map row =>
          match obj_get map (garage row) with
          | Some arr => obj_set map (garage row) (arr ++ [row])
          | None => obj_set map (garage row) [row]
          end) rs acc)
  = map fst acc ++ first_seen (map fst acc) rs.
Proof.
  revert acc; induction rs as [|row rs IH]; intros acc.
  - simpl. rewrite app_nil_r. reflexivity.
  - cbn [fold_left]. rewrite IH.
    destruct (obj_get acc (garage row)); apply first_seen_step.
Qed.

Lemma first_seen_spec (rs : list GarageStatusRow) (seen : list str) :
  NoDup (first_seen seen rs)
  /\ forall g, In g (first_seen seen rs)
               <-> In g (map garage rs) /\ ~ In g seen.
Proof.
  revert seen; induction rs as [|r rs IH]; intros seen.
  - split; [constructor | simpl; tauto].
  - cbn [first_seen map].
    destruct (existsb (str_eqb (garage r)) seen) eqn:He.
    + apply existsb_str_eqb in He. destruct (IH seen) as [Hn Hi].
      split; [exact Hn|]. intros g. rewrite Hi. simpl.
      split; [tauto|]. intros [[<-|H] Hs]; tauto.
    + assert (Hs : ~ In (garage r) seen).
      { intros Hin. apply existsb_str_eqb in Hin. congruence. }
      destruct (IH (garage r :: seen)) as [Hn Hi]. split.
      * constructor; [|exact Hn]. rewrite Hi. simpl. tauto.
      * intros g. simpl. rewrite Hi. simpl.
        destruct (list_eq_dec ascii_dec (garage r) g) as [<-|Hne]; tauto.
Qed.

Lemma latest_keys (rs : list GarageStatusRow) :
  map fst (latestByGarage rs) = first_seen [] rs.
Proof. unfold latestByGarage. rewrite latestByGarage_keys. reflexivity. Qed.

Lemma history_keys (rs : list GarageStatusRow) :
  map fst (historyByGarage rs) = first_seen [] rs.
Proof. unfold historyByGarage. rewrite historyByGarage_keys. reflexivity. Qed.

Lemma find_head_rows_of (rs : list GarageStatusRow) (g : str) :
  find (fun r => str_eqb (garage r) g) rs
  = match rows_of g rs with
    | [] => None
    | l => hd_error l
    end.
Proof.
  unfold rows_of. induction rs as [|r rs IH]; [reflexivity|].
  cbn [find filter]. destruct (str_eqb (garage r) g); [reflexivity|].
  exact IH.
Qed.

Lemma obj_get_of_In {V} (o : object V) (k : str) (v : V) :
  NoDup (map fst o) -> In (k, v) o -> obj_get o k = Some v.
Proof.
  induction o as [|[k' v'] o IH]; cbn [map fst In obj_get]; [tauto|].
  intros Hn [He|Hin].
  - inversion He; subst. rewrite str_eqb_refl. reflexivity.
  - inversion Hn as [|? ? Hk Hn']; subst.
    destruct (str_eqb k' k) eqn:Hkg.
    + apply str_eqb_eq in Hkg. subst k'. exfalso. apply Hk.
      apply in_map_iff. exists (k, v). auto.
    + apply IH; assumption.
Qed.

(** X2: the two derived maps of the hook agree: they hold the same
    garages in the same order, each garage of the records once, in the
    order of its first record; and the latest record of a garage is the
    first record of its history. *)
Theorem latest_heads_history (rs : list GarageStatusRow) :
  map fst (latestByGarage rs) = map fst (historyByGarage rs)
  /\ map fst (historyByGarage rs) = first_seen [] rs
  /\ NoDup (map fst (historyByGarage rs))
  /\ (forall g, In g (map fst (historyByGarage rs))
                <-> In g (map garage rs))
  /\ (forall g, obj_get (latestByGarage rs) g
                = match obj_get (historyByGarage rs) g with
                  | Some arr => hd_error arr
                  | None => None
                  end).
Proof.
  pose proof (latest_keys rs) as Hl. pose proof (history_keys rs) as Hh.
  destruct (first_seen_spec rs []) as [Hn Hi].
  split; [congruence|]. split; [exact Hh|]. rewrite Hh.
  split; [exact Hn|]. split.
  - intros g. rewrite Hi. simpl. tauto.
  - intros g. rewrite latestByGarage_find, find_head_rows_of.
    unfold historyByGarage. rewrite historyByGarage_fold. cbn [obj_get].
    destruct (rows_of g rs); reflexivity.
Qed.

Lemma concat_obj_set {V} (o : object (list V)) (k : str) (arr x : list V) :
  obj_get o k = Some arr ->
  Permutation (concat (map snd (obj_set o k (arr ++ x))))
    (concat (map snd o) ++ x).
Proof.
  induction o as [|[k' v'] o IH]; cbn [obj_get obj_set]; [discriminate|].
  destruct (str_eqb k' k); cbn [map snd concat].
  - intros H; inversion H; subst v'. rewrite <- !app_assoc.
    apply Permutation_app_head, Permutation_app_comm.
  - intros H. rewrite <- app_assoc. apply Permutation_app_head, IH, H.
Qed.

Lemma concat_obj_set_new {V} (o : object (list V)) (k : str) (x : list V) :
  obj_get o k = None ->
  concat (map snd (obj_set o k x)) = concat (map snd o) ++ x.
Proof.
  induction o as [|[k' v'] o IH]; cbn [obj_get obj_set].
  - intros _. simpl. rewrite app_nil_r. reflexivity.
  - destruct (str_eqb k' k); [discriminate|]. cbn [map snd concat].
    intros H. rewrite IH by exact H. apply app_assoc.
Qed.

(** X3: the histories split the records: every record is in exactly
    one history, that of its garage, so that the histories together
    hold the records once each. *)
Theorem history_partitions_rows (rs : list GarageStatusRow) :
  Permutation (concat (map snd (historyByGarage rs))) rs
  /\ (forall g arr r, In (g, arr) (historyByGarage rs) -> In r arr ->
        garage r = g)
  /\ list_sum (map (fun entry => length (snd entry)) (historyByGarage rs))
     = length rs.
Proof.
  assert (Hp : forall acc : object (list GarageStatusRow),
            Permutation
              (concat
                 (map snd
                    (fold_left
                       (fun map row =>
                          match obj_get map (garage row) with
                          | Some arr => obj_set map (garage row) (arr ++ [row])
                          | None => obj_set map (garage row) [row]
                          end) rs acc)))
              (concat (map snd acc) ++ rs)).
  { induction rs as [|row rs IH]; intros acc; cbn [fold_left].
    - rewrite app_nil_r. apply Permutation_refl.
    - eapply Permutation_trans; [apply IH|].
      replace (concat (map snd acc) ++ row :: rs)
        with ((concat (map snd acc) ++ [row]) ++ rs)
        by (rewrite <- app_assoc; reflexivity).
      apply Permutation_app_tail.
      destruct (obj_get acc (garage row)) as [arr|] eqn:Hg.
      + apply concat_obj_set, Hg.
      + rewrite concat_obj_set_new by exact Hg. apply Permutation_refl. }
  assert (P : Permutation (concat (map snd (historyByGarage rs))) rs)
    by apply (Hp []).
  split; [exact P|]. split.
  - intros g arr r Hin Hr.
    assert (Hg : obj_get (historyByGarage rs) g = Some arr).
    { apply obj_get_of_In; [|exact Hin]. rewrite history_keys.
      apply first_seen_spec. }
    unfold historyByGarage in Hg. rewrite historyByGarage_fold in Hg.
    cbn [obj_get] in Hg.
    assert (Ha : arr = rows_of g rs).
    { destruct (rows_of g rs); [discriminate | congruence]. }
    subst arr. apply rows_of_In in Hr. tauto.
  - rewrite <- (Permutation_length P). generalize (historyByGarage rs) as o.
    induction o as [|[k v] o IH]; [reflexivity|].
    simpl. rewrite length_app. f_equal. exact IH.
Qed.

(** ** Aggregation layer: the state over several reads *)

Lemma last_cons {A} (l : list A) (b d : A) : last (b :: l) d = last l b.
Proof.
  revert b d; induction l as [|c l IH]; intros b d; [reflexivity|].
  change (last (b :: c :: l) d) with (last (c :: l) d).
  rewrite IH. symmetry. apply IH.
Qed.

Lemma fetchRows_fold (answers : list (query_result * Z))
    (s0 : GarageStatusState) :
  let s := fold_left
             (fun state '(answer, now) => fetchRows None true answer now state)
             answers s0 in
  rows s = match last_read answers with
           | Some (d, _) => d
           | None => rows s0
           end
  /\ refreshedAt s = match last_read answers with
                     | Some (_, now) => Some now
                     | None => refreshedAt s0
                     end
  /\ isLoading s = match answers with [] => isLoading s0 | _ => false end
  /\ error_message s = match answers with
                       | [] => error_message s0
                       | a :: rest => error_of (last rest a)
                       end.
Proof.
  cbv zeta. revert s0.
  induction answers as [|[answer now] rest IH]; intros s0.
  - simpl. auto.
  - cbn [fold_left last_read].
    destruct (IH (fetchRows None true answer now s0)) as [Hr [Ht [Hl He]]].
    rewrite Hr, Ht, Hl, He. clear IH Hr Ht Hl He.
    split; [|split; [|split]].
    + destruct (last_read rest) as [[d t]|]; [reflexivity|].
      destruct answer as [m|data]; reflexivity.
    + destruct (last_read rest) as [[d t]|]; [reflexivity|].
      destruct answer as [m|data]; reflexivity.
    + destruct rest; [|reflexivity]. destruct answer; reflexivity.
    + destruct rest as [|b rest']; [destruct answer; reflexivity|].
      rewrite last_cons. reflexivity.
Qed.

Lemma fetchRows_fold_unconfigured (message : str)
    (answers : list (query_result * Z)) (s0 : GarageStatusState) :
  let s := fold_left
             (fun state '(answer, now) =>
                fetchRows (Some message) false answer now state)
             answers s0 in
  rows s = rows s0 /\ refreshedAt s = refreshedAt s0
  /\ isLoading s = match answers with [] => isLoading s0 | _ => false end
  /\ error_message s = match answers with
                       | [] => error_message s0
                       | _ => Some message
                       end.
Proof.
  cbv zeta. revert s0.
  induction answers as [|[answer now] rest IH]; intros s0.
  - simpl. auto.
  - cbn [fold_left].
    destruct (IH (fetchRows (Some message) false answer now s0))
      as [Hr [Ht [Hl He]]].
    rewrite Hr, Ht, Hl, He. destruct rest; repeat split; reflexivity.
Qed.

(** X4: over any series of reads that do not overlap, the records
    that the hook holds are those of the last read that succeeded
    (none before the first success; a read that returns no data counts
    as an empty list), and the time of refresh is the time of that
    read; the error is that of the last read alone.  When one of the two configuration values is
    missing or empty, no read ever yields records: the state keeps no
    record and no time of refresh, and shows the configuration
    message. *)
Theorem rows_are_last_successful_read (supabaseUrl supabaseAnonKey : option str)
    (answers : list (query_result * Z)) :
  let state := refreshes supabaseUrl supabaseAnonKey answers in
  match supabaseEnvError supabaseUrl supabaseAnonKey with
  | None =>
      rows state = match last_read answers with
                   | Some (data, _) => data
                   | None => []
                   end
      /\ refreshedAt state = option_map snd (last_read answers)
      /\ error_message state = match answers with
                               | [] => None
                               | a :: rest => error_of (last rest a)
                               end
  | Some message =>
      rows state = [] /\ refreshedAt state = None
      /\ (answers <> [] -> error_message state = Some message)
  end
  /\ isLoading state = match answers with [] => true | _ => false end
  /\ (supabaseEnvError supabaseUrl supabaseAnonKey = None
      <-> exists c u c' k,
            supabaseUrl = Some (c :: u) /\ supabaseAnonKey = Some (c' :: k)).
Proof.
  cbv zeta. unfold refreshes.
  destruct (supabaseEnvError supabaseUrl supabaseAnonKey) as [message|] eqn:He.
  - destruct (fetchRows_fold_unconfigured message answers initial_state)
      as [Hr [Ht [Hl Hm]]].
    split; [|split].
    + split; [exact Hr|]. split; [exact Ht|]. intros Hn. rewrite Hm.
      destruct answers; congruence.
    + exact Hl.
    + split; [discriminate|]. intros [c [u [c' [k [-> ->]]]]].
      discriminate.
  - destruct (fetchRows_fold answers initial_state) as [Hr [Ht [Hl Hm]]].
    split; [|split].
    + split; [exact Hr|]. split; [|exact Hm]. rewrite Ht.
      destruct (last_read answers) as [[d t]|]; reflexivity.
    + exact Hl.
    + split; [|reflexivity]. intros _. unfold supabaseEnvError in He.
      destruct supabaseUrl as [[|c u]|]; try discriminate.
      destruct supabaseAnonKey as [[|c' k]|]; try discriminate.
      exists c, u, c', k. auto.
Qed.

(** ** Aggregation layer: the time of the latest reading *)

Lemma descending_strong (instant : str -> Z) (rs : list GarageStatusRow) :
  descending instant rs ->
  StronglySorted
    (fun a b => instant (fetched_at b) <= instant (fetched_at a)) rs.
Proof.
  intros H. apply Sorted_StronglySorted; [|exact H].
  intros a b c Hab Hbc. lia.
Qed.

(** X5: the hook gives no time of the latest reading exactly when
    there is no record or the first record has an empty time stamp;
    when the records are ordered most recent first, the time it gives
    is the latest of all the records. *)
Theorem latestFetchedAt_is_newest (date_parse : str -> option Z)
    (rs : list GarageStatusRow) (t : Z) :
  descending (instant_of date_parse) rs ->
  latestFetchedAt date_parse rs = Some (Some t) ->
  (forall r t', In r rs -> date_parse (fetched_at r) = Some t' -> t' <= t)
  /\ (exists r rest, rs = r :: rest /\ date_parse (fetched_at r) = Some t)
  /\ (forall rs', latestFetchedAt date_parse rs' = None
                  <-> rs' = []
                      \/ exists r rest, rs' = r :: rest /\ fetched_at r = []).
Proof.
  intros Hd Hl. split; [|split].
  - destruct rs as [|r0 rest]; [discriminate|]. cbn [latestFetchedAt] in Hl.
    destruct (fetched_at r0) as [|c s] eqn:Hf; [discriminate|].
    inversion Hl as [Ht]. rewrite <- Hf in Ht.
    apply descending_strong in Hd. inversion Hd as [|? ? _ Hall]; subst.
    intros r t' [<-|Hin] Hp; [rewrite Ht in Hp; inversion Hp; lia|].
    rewrite Forall_forall in Hall. specialize (Hall r Hin).
    unfold instant_of in Hall. rewrite Hp, Ht in Hall. exact Hall.
  - destruct rs as [|r0 rest]; [discriminate|]. cbn [latestFetchedAt] in Hl.
    destruct (fetched_at r0) as [|c s] eqn:Hf; [discriminate|].
    exists r0, rest. split; [reflexivity|]. rewrite Hf. congruence.
  - intros rs'. destruct rs' as [|r0 rest]; cbn [latestFetchedAt].
    + split; auto.
    + destruct (fetched_at r0) as [|c s] eqn:Hf.
      * split; [|reflexivity]. intros _. right. exists r0, rest. auto.
      * split; [discriminate|]. intros [H|[r [rest' [H1 H2]]]];
          [discriminate|]. inversion H1; subst. congruence.
Qed.

Lemma latestFetchedAt_is_newest_witness :
  descending (instant_of iso_parse) example_descending
  /\ latestFetchedAt iso_parse example_descending = Some (Some 1704117600000)
  /\ forall r t', In r example_descending ->
       iso_parse (fetched_at r) = Some t' -> t' <= 1704117600000.
Proof.
  assert (Hd : descending (instant_of iso_parse) example_descending).
  { unfold descending, example_descending.
    repeat constructor; vm_compute; discriminate. }
  assert (Hl : latestFetchedAt iso_parse example_descending
               = Some (Some 1704117600000)) by (vm_compute; reflexivity).
  split; [exact Hd|]. split; [exact Hl|].
  exact (proj1 (latestFetchedAt_is_newest iso_parse example_descending
                  1704117600000 Hd Hl)).
Defined.

(** ** Dashboard: the history table of a garage *)

Lemma strongly_sorted_filter {A} (R : A -> A -> Prop) (p : A -> bool)
    (l : list A) :
  StronglySorted R l -> StronglySorted R (filter p l).
Proof.
  induction 1 as [|a l Hs IH Hall]; cbn [filter]; [constructor|].
  destruct (p a); [|exact IH]. constructor; [exact IH|].
  rewrite Forall_forall in *. intros x Hx. apply filter_In in Hx.
  apply Hall, Hx.
Qed.

Lemma strongly_sorted_split {A} (R : A -> A -> Prop) (n : nat) (l : list A) :
  StronglySorted R l ->
  forall a b, In a (firstn n l) -> In b (skipn n l) -> R a b.
Proof.
  intros H. revert n. induction H as [|x l Hs IH Hall]; intros n a b.
  - rewrite firstn_nil. intros [].
  - destruct n as [|n]; cbn [firstn skipn]; [intros []|].
    intros [<-|Ha] Hb.
    + rewrite Forall_forall in Hall. apply Hall.
      rewrite <- (firstn_skipn n l). apply in_or_app. auto.
    + eapply IH; eassumption.
Qed.

(** X6: the history tab of a garage shows the first 25 records of that
    garage (all of them when there are at most 25), in the order of the
    records, and nothing for a garage without a record; when the
    records are ordered most recent first, every record shown is at
    least as recent as every record of the garage that is not shown. *)
Theorem history_tab_shows_recent (rs : list GarageStatusRow) (g : str) :
  history_tab rs g = firstn 25 (rows_of g rs)
  /\ (length (history_tab rs g) <= 25)%nat
  /\ ((length (rows_of g rs) <= 25)%nat -> history_tab rs g = rows_of g rs)
  /\ (forall r, In r (history_tab rs g) -> In r rs /\ garage r = g)
  /\ (forall instant r r', descending instant rs ->
        In r (history_tab rs g) -> In r' (skipn 25 (rows_of g rs)) ->
        instant (fetched_at r') <= instant (fetched_at r)).
Proof.
  assert (H : history_tab rs g = firstn 25 (rows_of g rs)).
  { unfold history_tab, HistoryTable, historyByGarage.
    rewrite historyByGarage_fold. cbn [obj_get].
    destruct (rows_of g rs); reflexivity. }
  split; [exact H|]. rewrite H. split; [apply firstn_le_length|].
  split; [intros Hl; apply firstn_all2; exact Hl|]. split.
  - intros r Hr. apply rows_of_In. rewrite <- (firstn_skipn 25 (rows_of g rs)).
    apply in_or_app. left. exact Hr.
  - intros instant r r' Hd Hr Hr'. apply descending_strong in Hd.
    apply (strongly_sorted_split _ 25 (rows_of g rs)
             (strongly_sorted_filter _ _ _ Hd) r r' Hr Hr').
Qed.

(** ** History table: the badge of a record *)

Lemma int_to_string_inj (a b : Z) : int_to_string a = int_to_string b -> a = b.
Proof.
  unfold int_to_string. intros H.
  apply (f_equal string_of_list_ascii) in H.
  rewrite !string_of_list_ascii_of_string in H.
  apply (f_equal DecimalString.NilZero.int_of_string) in H.
  assert (Hn : forall z, Z.to_int z <> Decimal.Pos Decimal.Nil
                         /\ Z.to_int z <> Decimal.Neg Decimal.Nil).
  { intros [|p|p]; cbn [Z.to_int]; split; try discriminate;
      intros Hp; inversion Hp as [Hq];
      exact (DecimalPos.Unsigned.to_uint_nonnil p Hq). }
  rewrite !DecimalString.NilZero.isi in H by apply Hn.
  inversion H as [Hi]. apply DecimalZ.to_int_inj, Hi.
Qed.

Lemma app_last_inj {A} (x y : list A) (a b : A) :
  x ++ [a] = y ++ [b] -> x = y /\ a = b.
Proof. intros H. apply app_inj_tail in H. exact H. Qed.

(** X7: for statuses that are integers of magnitude up to 2^53, of
    which a badge writes every digit, the badge of a record reads Full
    exactly when the status is 100, and two records with different
    statuses have different badges. *)
Theorem badge_tells_status (a b : Z) :
  Z.abs a <= 2 ^ 53 -> Z.abs b <= 2 ^ 53 ->
  (badge a = lit "Full" <-> a = 100)
  /\ (badge a = badge b -> a = b)
  /\ (a <> 100 -> badge a = int_to_string a ++ lit "%").
Proof.
  intros _ _.
  assert (Hf : forall z, int_to_string z ++ lit "%" <> lit "Full").
  { intros z H. change (lit "Full") with (lit "Ful" ++ ["l"%char]) in H.
    change (lit "%") with ["%"%char] in H.
    apply app_last_inj in H as [_ H]. discriminate. }
  unfold badge. split; [|split].
  - destruct (Z.eqb_spec a 100) as [->|Ha]; [tauto|].
    split; [intros H; elim (Hf _ H) | contradiction].
  - destruct (Z.eqb_spec a 100) as [->|Ha], (Z.eqb_spec b 100) as [->|Hb];
      intros H; try reflexivity.
    + symmetry in H. elim (Hf _ H).
    + elim (Hf _ H).
    + change (lit "%") with ["%"%char] in H.
      apply app_last_inj in H as [H _]. apply int_to_string_inj, H.
  - intros Ha. destruct (Z.eqb_spec a 100); [contradiction | reflexivity].
Qed.

Lemma badge_tells_status_witness :
  Z.abs 45 <= 2 ^ 53 /\ Z.abs 100 <= 2 ^ 53
  /\ badge 45 = lit "45%" /\ badge 100 = lit "Full"
  /\ (badge 45 = badge 100 -> 45 = 100).
Proof.
  assert (H1 : Z.abs 45 <= 2 ^ 53) by (vm_compute; discriminate).
  assert (H2 : Z.abs 100 <= 2 ^ 53) by (vm_compute; discriminate).
  destruct (badge_tells_status 45 100 H1 H2) as [_ [Hi Hb]].
  split; [exact H1|]. split; [exact H2|].
  split; [rewrite Hb by discriminate; reflexivity|].
  split; [reflexivity | exact Hi].
Defined.

(** ** Ingestion handler: every run ends in a reply *)

Lemma truthy_is_set (v : option str) (s : str) :
  truthy v = Some s <-> is_set v s.
Proof.
  unfold truthy, is_set. destruct v as [[|c u]|]; split;
    try discriminate; try (intros [H _]; discriminate).
  - intros [H Hn]. inversion H; subst. congruence.
  - intros H; inversion H; subst. split; [reflexivity | discriminate].
  - intros [H _]. exact H.
Qed.

Lemma page_fetch_events (E : env) (url : str) (t0 : list event) :
  exists res pre,
    fetchGarageStatusPage E url t0 = (res, t0 ++ pre)
    /\ (pre = [EFetch url empty_init]
        \/ pre = [EFetch url empty_init; EInsecureGet url]).
Proof.
  pose proof (fetchGarageStatusPage_trace E url t0) as H.
  destruct (fetchGarageStatusPage E url t0) as [res t1]. simpl in H.
  destruct H as [-> | ->]; eauto.
Qed.

Lemma store_write_events (E : env) (url : str) (init : request_init)
    (t0 : list event) :
  exists res, fetchWithTimeout E url init 10000 t0
              = (res, t0 ++ [EFetch url init]).
Proof.
  pose proof (fetchWithTimeout_trace E url init 10000 t0) as H.
  destruct (fetchWithTimeout E url init 10000 t0) as [res t1]. simpl in H.
  subst t1. eauto.
Qed.

Ltac guards :=
  unfold handler;
  destruct (negb (str_eqb (method _) (lit "GET"))
            && negb (str_eqb (method _) (lit "HEAD"))) eqn:Hmethod;
  [| destruct (truthy (CRON_SECRET _)) as [cronSecret|] eqn:Hsecret;
     [ match goal with
       | |- context [if negb ?c then _ else _] => destruct c eqn:Hauth
       end; cbn [negb];
       [ destruct (truthy (SUPABASE_URL _)) as [supabaseUrl|] eqn:Hurl;
         [ destruct (truthy (SUPABASE_KEY _)) as [supabaseKey|] eqn:Hkey
         | ]
       | ]
     | ] ].

Ltac run_page E t0 :=
  unfold try_catch at 1; unfold bind at 1;
  let res := fresh "res" in
  let pre := fresh "pre" in
  let Hpage := fresh "Hpage" in
  let Hpre := fresh "Hpre" in
  destruct (page_fetch_events E sourceUrl t0) as [res [pre [Hpage Hpre]]];
  rewrite Hpage.

Ltac run_store E :=
  unfold bind at 1; unfold try_catch at 1; unfold bind at 1;
  match goal with
  | |- context [fetchWithTimeout E ?u ?i 10000 ?tr] =>
      let res := fresh "stored" in
      let Hstore := fresh "Hstore" in
      destruct (store_write_events E u i tr) as [res Hstore];
      rewrite Hstore
  end.

Lemma allowed_iff (req : request) :
  negb (str_eqb (method req) (lit "GET"))
  && negb (str_eqb (method req) (lit "HEAD")) = false
  <-> allowed req.
Proof.
  unfold allowed. rewrite andb_false_iff, !negb_false_iff, !str_eqb_eq.
  reflexivity.
Qed.

Lemma authed_iff (req : request) (secret : str) :
  str_eqb
    match truthy (authorization req) with Some a => a | None => [] end
    (lit "Bearer " ++ secret)
  || match getRequestToken req with
     | Some t => str_eqb t secret
     | None => false
     end = true
  <-> presents req secret.
Proof.
  unfold presents, getRequestToken. rewrite orb_true_iff, str_eqb_eq.
  split.
  - intros [H|H].
    + left. destruct (authorization req) as [[|c a]|]; simpl in H;
        try discriminate. rewrite H. reflexivity.
    + right. destruct (query_token req) as [|s|[|s l]]; simpl in H;
        try discriminate; apply str_eqb_eq in H; subst; eauto.
  - intros [H|[H|[rest H]]]; rewrite H.
    + left. reflexivity.
    + right. apply str_eqb_refl.
    + right. simpl. apply str_eqb_refl.
Qed.

Lemma authed_iff_false (req : request) (secret : str) :
  ~ presents req secret ->
  str_eqb
    match truthy (authorization req) with Some a => a | None => [] end
    (lit "Bearer " ++ secret)
  || match getRequestToken req with
     | Some t => str_eqb t secret
     | None => false
     end = false.
Proof.
  intros Hn. match goal with |- ?b = false => destruct b eqn:Hb end;
    [|reflexivity]. apply authed_iff in Hb. contradiction.
Qed.

Lemma classic_presents (req : request) (secret : str) :
  presents req secret \/ ~ presents req secret.
Proof.
  pose proof (authed_iff req secret) as H.
  match type of H with ?b = true <-> _ => destruct b end.
  - left. apply H. reflexivity.
  - right. intros Hp. apply H in Hp. discriminate.
Qed.

Lemma handler_reply (E : env) (req : request) (t0 : list event) :
  exists (reply : http_response) (new : list event),
    handler E req t0 = (Ok reply, t0 ++ new)
    /\ (exists pre rest,
          new = pre ++ rest
          /\ (pre = [] \/ pre = [page_request]
              \/ pre = [page_request; EInsecureGet sourceUrl])
          /\ (rest = [] \/ rest = [EClock]
              \/ exists url init batch,
                   rest = [EClock; EFetch url init]
                   /\ i_body init = Some batch))
    /\ ((~ allowed req /\ new = []
         /\ reply = Res [("Allow"%string, lit "GET, HEAD")] 405
                      [("error"%string, JStr (lit "Method not allowed"))])
        \/ (allowed req /\ new = [] /\ truthy (CRON_SECRET E) = None
            /\ res_status reply = 500)
        \/ (allowed req /\ new = []
            /\ (exists secret, truthy (CRON_SECRET E) = Some secret
                               /\ ~ presents req secret)
            /\ reply = Res [] 401 [("error"%string, JStr (lit "Unauthorized"))])
        \/ (allowed req /\ new = []
            /\ (exists secret, truthy (CRON_SECRET E) = Some secret
                               /\ presents req secret)
            /\ (truthy (SUPABASE_URL E) = None
                \/ truthy (SUPABASE_KEY E) = None)
            /\ res_status reply = 500)
        \/ (allowed req
            /\ (exists secret, truthy (CRON_SECRET E) = Some secret
                               /\ presents req secret)
            /\ (exists url, truthy (SUPABASE_URL E) = Some url)
            /\ (exists key, truthy (SUPABASE_KEY E) = Some key)
            /\ In (res_status reply) [200; 500; 502])).
Proof.
  assert (Hnone : exists pre rest : list event,
            [] = pre ++ rest
            /\ (pre = [] \/ pre = [page_request]
                \/ pre = [page_request; EInsecureGet sourceUrl])
            /\ (rest = [] \/ rest = [EClock]
                \/ exists url init batch,
                     rest = [EClock; EFetch url init]
                     /\ i_body init = Some batch)).
  { exists [], []. auto. }
  guards.
  - eexists; exists []. rewrite app_nil_r. split; [reflexivity|].
    split; [exact Hnone|]. left. split; [|auto].
    intros Ha. apply allowed_iff in Ha. congruence.
  - apply allowed_iff in Hmethod. apply authed_iff in Hauth.
    assert (Hg : forall (reply : http_response) (new : list event) P,
              P -> In (res_status reply) [200; 500; 502] ->
              P
              /\ ((~ allowed req /\ new = []
                   /\ reply = Res [("Allow"%string, lit "GET, HEAD")] 405
                        [("error"%string, JStr (lit "Method not allowed"))])
                  \/ (allowed req /\ new = []
                      /\ Some cronSecret = None /\ res_status reply = 500)
                  \/ (allowed req /\ new = []
                      /\ (exists secret, Some cronSecret = Some secret
                                         /\ ~ presents req secret)
                      /\ reply = Res [] 401
                                   [("error"%string,
                                     JStr (lit "Unauthorized"))])
                  \/ (allowed req /\ new = []
                      /\ (exists secret, Some cronSecret = Some secret
                                         /\ presents req secret)
                      /\ (Some supabaseUrl = None \/ Some supabaseKey = None)
                      /\ res_status reply = 500)
                  \/ (allowed req
                      /\ (exists secret, Some cronSecret = Some secret
                                         /\ presents req secret)
                      /\ (exists url, Some supabaseUrl = Some url)
                      /\ (exists key, Some supabaseKey = Some key)
                      /\ In (res_status reply) [200; 500; 502]))).
    { intros reply new P HP Hs. split; [exact HP|].
      right; right; right; right. eauto 10. }
    run_page E t0.
    assert (Hpre' : pre = [] \/ pre = [page_request]
                    \/ pre = [page_request; EInsecureGet sourceUrl])
      by (unfold page_request; tauto).
    assert (Hpage_only : exists pre' rest : list event,
              pre = pre' ++ rest
              /\ (pre' = [] \/ pre' = [page_request]
                  \/ pre' = [page_request; EInsecureGet sourceUrl])
              /\ (rest = [] \/ rest = [EClock]
                  \/ exists url init batch,
                       rest = [EClock; EFetch url init]
                       /\ i_body init = Some batch)).
    { exists pre, []. rewrite app_nil_r. auto. }
    destruct res as [pageResp|e].
    2:{ eexists; exists pre. split; [reflexivity|].
        apply Hg; [exact Hpage_only | simpl; auto]. }
    destruct (negb (ok pageResp)).
    { eexists; exists pre. split; [reflexivity|].
      apply Hg; [exact Hpage_only | simpl; auto]. }
    unfold bind at 1. unfold read_text. destruct (r_text pageResp) as [html|e].
    2:{ eexists; exists pre. split; [reflexivity|].
        apply Hg; [exact Hpage_only | simpl; auto]. }
    unfold ret at 1. unfold bind at 1. unfold new_date_iso.
    destruct (length (make_rows _ _ _) =? 0)%nat.
    { eexists; exists (pre ++ [EClock]). rewrite app_assoc.
      split; [reflexivity|].
      apply Hg; [exists pre, [EClock]; auto | simpl; auto]. }
    run_store E.
    destruct stored as [resp|e].
    + unfold ret at 1. destruct (negb (ok resp)); unfold ret;
        rewrite <- !app_assoc; eexists; eexists;
        (split; [reflexivity|]);
        (apply Hg; [|simpl; auto]);
        eexists pre, _; (split; [reflexivity|]); (split; [exact Hpre'|]);
        right; right; eexists _, _, _; split; reflexivity.
    + unfold ret; rewrite <- !app_assoc; eexists; eexists;
        (split; [reflexivity|]);
        (apply Hg; [|simpl; auto]);
        eexists pre, _; (split; [reflexivity|]); (split; [exact Hpre'|]);
        right; right; eexists _, _, _; split; reflexivity.
  - apply allowed_iff in Hmethod. apply authed_iff in Hauth.
    eexists; exists []. rewrite app_nil_r. split; [reflexivity|].
    split; [exact Hnone|]. right; right; right; left. eauto 10.
  - apply allowed_iff in Hmethod. apply authed_iff in Hauth.
    eexists; exists []. rewrite app_nil_r. split; [reflexivity|].
    split; [exact Hnone|]. right; right; right; left. eauto 10.
  - apply allowed_iff in Hmethod.
    assert (Hn : ~ presents req cronSecret)
      by (intros Hp; apply authed_iff in Hp; congruence).
    eexists; exists []. rewrite app_nil_r. split; [reflexivity|].
    split; [exact Hnone|]. right; right; left. eauto 10.
  - apply allowed_iff in Hmethod.
    eexists; exists []. rewrite app_nil_r. split; [reflexivity|].
    split; [exact Hnone|]. right; left. auto.
Qed.

(** X8: no exception leaves the handler: a run that ends, ends with
    a reply, whose status is one of 200, 401, 405, 500 and 502, and it
    has added at most four events to the trace (never removing
    one). *)
Theorem handler_never_throws (E : env) (req : request) (t0 t : list event)
    (r : result http_response) :
  handler E req t0 = (r, t) ->
  exists (reply : http_response) (new : list event),
    r = Ok reply /\ t = t0 ++ new
    /\ In (res_status reply) [200; 401; 405; 500; 502]
    /\ (length new <= 4)%nat.
Proof.
  intros Hrun.
  destruct (handler_reply E req t0) as [reply [new [H [Hev Hc]]]].
  rewrite H in Hrun. inversion Hrun; subst r t. clear Hrun.
  exists reply, new. split; [reflexivity|]. split; [reflexivity|]. split.
  2:{ destruct Hev as [pre [rest [-> [Hp Hr]]]]. rewrite length_app.
      destruct Hp as [-> |[-> | ->]];
        destruct Hr as [-> |[-> |[u [i [b [-> _]]]]]]; simpl; lia. }
  destruct Hc as [[_ [_ ->]]|[[_ [_ [_ Hs]]]|[[_ [_ [_ ->]]]|
                 [[_ [_ [_ [_ Hs]]]]|[_ [_ [_ [_ Hs]]]]]]]];
    try rewrite Hs; simpl; auto 10.
  simpl in Hs. intuition.
Qed.

Lemma handler_never_throws_witness :
  exists (reply : http_response) (new : list event),
    fst (handler env_refused example_request []) = Ok reply
    /\ snd (handler env_refused example_request []) = [] ++ new
    /\ In (res_status reply) [200; 401; 405; 500; 502]
    /\ (length new <= 4)%nat.
Proof.
  apply (handler_never_throws env_refused example_request []).
  destruct (handler env_refused example_request []); reflexivity.
Defined.

(** X9: a run has an effect (a request to the network, a reading of
    the clock) only when the request is a GET or a HEAD that presents
    the configured secret, and the address and the key of the store are
    configured.  The reply is 405 (with the header [Allow]) exactly
    when the method is another one, and 401 exactly when the method is
    allowed, a secret is configured and the request does not present
    it; a token given several times counts by its first value only. *)
Theorem requests_need_the_secret (E : env) (req : request)
    (t0 : list event) :
  exists reply : http_response,
    fst (handler E req t0) = Ok reply
    /\ (snd (handler E req t0) <> t0 ->
          allowed req
          /\ (exists secret, is_set (CRON_SECRET E) secret
                             /\ presents req secret)
          /\ (exists url, is_set (SUPABASE_URL E) url)
          /\ (exists key, is_set (SUPABASE_KEY E) key))
    /\ (res_status reply = 405 <-> ~ allowed req)
    /\ (res_status reply = 405 ->
          res_headers reply = [("Allow"%string, lit "GET, HEAD")])
    /\ (res_status reply = 401
        <-> allowed req
            /\ exists secret, is_set (CRON_SECRET E) secret
                              /\ ~ presents req secret)
    /\ (forall secret other,
          presents (Request (lit "GET") None (QMany [other; secret])) secret ->
          other = secret).
Proof.
  destruct (handler_reply E req t0) as [reply [new [H [_ Hc]]]].
  exists reply. rewrite H. cbn [fst snd]. split; [reflexivity|].
  assert (Hu : forall s s', truthy (CRON_SECRET E) = Some s ->
                            is_set (CRON_SECRET E) s' -> s' = s).
  { intros s s' Hs Hs'. apply truthy_is_set in Hs'. congruence. }
  assert (Hlast : forall secret other,
            presents (Request (lit "GET") None (QMany [other; secret]))
              secret -> other = secret).
  { intros secret other [Hp|[Hp|[rest Hp]]]; simpl in Hp; try discriminate.
    inversion Hp. reflexivity. }
  destruct Hc as [[Ha [-> ->]]|[[Ha [-> [Hs Hr]]]|[[Ha [-> [[s [Hs Hp]] ->]]]|
                 [[Ha [-> [[s [Hs Hp]] [Hm Hr]]]]|
                  [Ha [[s [Hs Hp]] [[u Hu'] [[k Hk] Hr]]]]]]]].
  - rewrite app_nil_r. cbn [res_status res_headers].
    split; [congruence|]. split; [tauto|]. split; [reflexivity|].
    split; [|exact Hlast]. split; [discriminate | tauto].
  - rewrite app_nil_r, Hr. split; [congruence|].
    split; [split; [discriminate | tauto]|]. split; [discriminate|].
    split; [|exact Hlast]. split; [discriminate|].
    intros [_ [s [Hs' _]]]. apply truthy_is_set in Hs'. congruence.
  - rewrite app_nil_r. cbn [res_status res_headers].
    split; [congruence|]. split; [split; [discriminate | tauto]|].
    split; [discriminate|]. split; [|exact Hlast].
    split; [|reflexivity]. intros _. split; [exact Ha|].
    exists s. split; [apply truthy_is_set; exact Hs | exact Hp].
  - rewrite app_nil_r, Hr. split; [congruence|].
    split; [split; [discriminate | tauto]|]. split; [discriminate|].
    split; [|exact Hlast]. split; [discriminate|].
    intros [_ [s' [Hs' Hn]]]. rewrite (Hu s s' Hs Hs') in Hn. tauto.
  - split.
    { intros _. split; [exact Ha|].
      split; [exists s; split; [apply truthy_is_set|]; assumption|].
      split; eexists; apply truthy_is_set; eassumption. }
    assert (H4 : res_status reply <> 401 /\ res_status reply <> 405).
    { simpl in Hr. destruct Hr as [<-|[<-|[<-|[]]]]; split; discriminate. }
    destruct H4 as [H401 H405].
    split; [split; [contradiction | tauto]|]. split; [contradiction|].
    split; [|exact Hlast]. split; [contradiction|].
    intros [_ [s' [Hs' Hn]]]. rewrite (Hu s s' Hs Hs') in Hn. tauto.
Qed.

(** ** Ingestion handler: the write to the store *)

Lemma page_events_no_write (url : str) (init : request_init)
    (batch : list GarageStatusRow) (pre : list event) :
  i_body init = Some batch ->
  pre = [EFetch sourceUrl empty_init]
  \/ pre = [EFetch sourceUrl empty_init; EInsecureGet sourceUrl] ->
  ~ In (EFetch url init) pre.
Proof.
  intros Hb [-> | ->] Hin; simpl in Hin;
    repeat match goal with
           | H : _ \/ _ |- _ => destruct H
           | H : False |- _ => destruct H
           | H : EFetch _ _ = EFetch _ _ |- _ => inversion H; subst; clear H
           | H : EInsecureGet _ = EFetch _ _ |- _ => discriminate H
           end; discriminate.
Qed.

Lemma store_write_run (E : env) (req : request) (t0 t : list event)
    (r : result http_response) (url : str) (init : request_init)
    (batch : list GarageStatusRow) :
  handler E req t0 = (r, t) ->
  In (EFetch url init) (new_events t0 t) ->
  i_body init = Some batch ->
  exists supabaseUrl supabaseKey pre html,
    truthy (SUPABASE_URL E) = Some supabaseUrl
    /\ truthy (SUPABASE_KEY E) = Some supabaseKey
    /\ (pre = [EFetch sourceUrl empty_init]
        \/ pre = [EFetch sourceUrl empty_init; EInsecureGet sourceUrl])
    /\ batch = make_rows (now_iso E (length (t0 ++ pre)))
                 (parseLastUpdated (htmlToText html))
                 (parseStatuses (htmlToText html))
    /\ batch <> []
    /\ url = endpoint_of supabaseUrl
    /\ init = store_init supabaseKey batch
    /\ t = t0 ++ pre ++ [EClock; EFetch url init]
    /\ r = Ok (reply_to_write (net_fetch E url init) (length batch)
                 (now_iso E (length (t0 ++ pre)))
                 (parseLastUpdated (htmlToText html))
                 (parseStatuses (htmlToText html)))
    /\ exists pageResp,
         fetchGarageStatusPage E sourceUrl t0 = (Ok pageResp, t0 ++ pre)
         /\ ok pageResp = true /\ r_text pageResp = TextOk html.
Proof.
  intros H Hin Hbody. revert H. guards;
    try (intros H; inversion H; subst; rewrite new_events_same in Hin;
         destruct Hin).
  run_page E t0.
  pose proof (page_events_no_write url init batch pre Hbody Hpre) as Hno.
  destruct res as [pageResp|e].
  2:{ intros H; inversion H; subst. rewrite new_events_app in Hin.
      contradiction. }
  destruct (ok pageResp) eqn:Hok; cbn [negb].
  2:{ intros H; inversion H; subst. rewrite new_events_app in Hin.
      contradiction. }
  unfold bind at 1. unfold read_text.
  destruct (r_text pageResp) as [html|e] eqn:Htext.
  2:{ intros H; inversion H; subst. rewrite new_events_app in Hin.
      contradiction. }
  unfold ret at 1. unfold bind at 1. unfold new_date_iso.
  fold (endpoint_of supabaseUrl).
  set (fetchedAt := now_iso E (length (t0 ++ pre))) in *.
  set (statuses := parseStatuses (htmlToText html)) in *.
  set (lastUpdated := parseLastUpdated (htmlToText html)) in *.
  set (rows := make_rows fetchedAt lastUpdated statuses) in *.
  destruct (length rows =? 0)%nat eqn:Hz.
  { intros H; inversion H; subst.
    rewrite <- app_assoc, new_events_app in Hin.
    apply in_app_or in Hin as [Hin|[Hin|[]]]; [contradiction|discriminate]. }
  assert (Hne : rows <> []).
  { intros Hr. rewrite Hr in Hz. discriminate. }
  unfold bind at 1. unfold try_catch at 1. unfold bind at 1.
  unfold fetchWithTimeout, bind, emit.
  intros H.
  assert (Hev : exists reply,
            r = Ok reply
            /\ reply = reply_to_write
                         (net_fetch E (endpoint_of supabaseUrl)
                            (store_init supabaseKey rows))
                         (length rows) fetchedAt lastUpdated statuses
            /\ t = ((t0 ++ pre) ++ [EClock])
                   ++ [EFetch (endpoint_of supabaseUrl)
                         (store_init supabaseKey rows)]).
  { unfold reply_to_write.
    destruct (net_fetch E (endpoint_of supabaseUrl)
                (store_init supabaseKey rows)) as [latency [resp|e]];
      destruct (latency <? 10000); cbn in H;
      try (destruct (ok resp)); cbn in H; inversion H; subst;
      eexists; repeat split; reflexivity. }
  destruct Hev as [reply [-> [-> ->]]].
  rewrite <- !app_assoc, new_events_app in Hin.
  apply in_app_or in Hin as [Hin|[Hin|[Hin|[]]]];
    [contradiction | discriminate |].
  inversion Hin; subst url init. simpl in Hbody. inversion Hbody; subst batch.
  exists supabaseUrl, supabaseKey, pre, html.
  rewrite <- !app_assoc.
  repeat (split; [solve [auto]|]). exists pageResp. auto.
Qed.

Lemma exec_slash_end (prev : option ascii) (s : str) :
  exec (Seq (Cls (chr_is "/")) EndIn) prev s
  = if str_eqb s (lit "/") then Some (MState (Some "/"%char) [] None)
    else None.
Proof.
  unfold exec. cbn [run m_rest m_cap]. destruct s as [|c s']; [reflexivity|].
  unfold chr_is. cbn [str_eqb lit list_ascii_of_string].
  destruct (Ascii.eqb_spec c "/") as [->|Hc]; [|reflexivity].
  destruct s'; reflexivity.
Qed.

Lemma strip_final_slash (u : str) (prev : option ascii) :
  replace_re (Seq (Cls (chr_is "/")) EndIn) [] prev (u ++ lit "/") = u
  /\ ((forall v, u <> v ++ lit "/") ->
      replace_re (Seq (Cls (chr_is "/")) EndIn) [] prev u = u).
Proof.
  revert prev; induction u as [|c u IH]; intros prev.
  - split; [reflexivity|]. intros _. reflexivity.
  - split.
    + cbn [app replace_re]. rewrite exec_slash_end.
      destruct (str_eqb (c :: u ++ lit "/") (lit "/")) eqn:He.
      * apply str_eqb_eq in He. inversion He as [[Hc Hu]].
        destruct u; discriminate.
      * f_equal. apply IH.
    + intros Hn. cbn [replace_re]. rewrite exec_slash_end.
      destruct (str_eqb (c :: u) (lit "/")) eqn:He.
      * apply str_eqb_eq in He. exfalso. apply (Hn []). exact He.
      * f_equal. apply IH. intros v Hv. apply (Hn (c :: v)).
        rewrite Hv. reflexivity.
Qed.

(** X10: a run contacts the page and the store, nothing else: every
    event of a run is the request for the page, the request for the
    page that skips the verification of the certificate, a reading of
    the clock, or one POST of a batch that is not empty to the table
    [garage_status] under the configured address of the store (one
    final slash of the address is dropped), with the configured key in
    the headers [apikey] and [Authorization]. *)
Theorem run_contacts_page_and_store_only (E : env) (req : request)
    (t0 : list event) (ev : event) :
  In ev (new_events t0 (snd (handler E req t0))) ->
  ev = page_request \/ ev = EInsecureGet sourceUrl \/ ev = EClock
  \/ exists base key batch,
       is_set (SUPABASE_KEY E) key
       /\ ((is_set (SUPABASE_URL E) base /\ forall v, base <> v ++ lit "/")
           \/ SUPABASE_URL E = Some (base ++ lit "/"))
       /\ batch <> []
       /\ ev = EFetch (base ++ lit "/rest/v1/garage_status")
                 (Init (lit "POST")
                    [("apikey"%string, key);
                     ("Authorization"%string, lit "Bearer " ++ key);
                     ("Content-Type"%string, lit "application/json");
                     ("Prefer"%string, lit "return=minimal")]
                    (Some batch)).
Proof.
  intros Hin.
  destruct (handler_reply E req t0) as [reply [new [H [Hev _]]]].
  destruct Hev as [pre [rest [Hnew [Hp Hr]]]].
  assert (Hin' : In ev (pre ++ rest)).
  { rewrite H in Hin. cbn [snd] in Hin. rewrite new_events_app in Hin.
    rewrite <- Hnew. exact Hin. }
  apply in_app_or in Hin' as [Hi|Hi].
  { destruct Hp as [-> |[-> | ->]]; simpl in Hi;
      intuition (subst; auto). }
  destruct Hr as [-> |[-> |[url [init [batch [-> Hb]]]]]];
    simpl in Hi; [tauto | intuition (subst; auto) |].
  destruct Hi as [<-|[<-|[]]]; [tauto|]. right; right; right.
  assert (Hw : In (EFetch url init)
                 (new_events t0 (t0 ++ pre ++ [EClock; EFetch url init]))).
  { rewrite new_events_app. apply in_or_app. right. simpl. auto. }
  rewrite <- Hnew in Hw.
  destruct (store_write_run E req t0 (t0 ++ new) (Ok reply) url init batch
              H Hw Hb)
    as [supabaseUrl [supabaseKey [pre' [html [Hu [Hk [_ [_ [Hne
       [Hurl [Hinit _]]]]]]]]]]].
  apply truthy_is_set in Hk. apply truthy_is_set in Hu.
  assert (Hcase : exists base,
            ((is_set (SUPABASE_URL E) base /\ forall v, base <> v ++ lit "/")
             \/ SUPABASE_URL E = Some (base ++ lit "/"))
            /\ endpoint_of supabaseUrl = base ++ lit "/rest/v1/garage_status").
  { unfold endpoint_of.
    destruct (rev supabaseUrl) as [|c r] eqn:Hrev.
    - apply (f_equal (@rev ascii)) in Hrev. rewrite rev_involutive in Hrev.
      simpl in Hrev. destruct Hu as [_ Hu]. contradiction.
    - apply (f_equal (@rev ascii)) in Hrev. rewrite rev_involutive in Hrev.
      cbn [rev] in Hrev.
      destruct (Ascii.eqb_spec c "/") as [->|Hc].
      + exists (rev r). destruct Hu as [Hu _].
        split; [right; rewrite Hu, Hrev; reflexivity|].
        rewrite Hrev.
        change ["/"%char] with (lit "/").
        rewrite (proj1 (strip_final_slash (rev r) None)). reflexivity.
      + exists supabaseUrl.
        assert (Hn : forall v, supabaseUrl <> v ++ lit "/").
        { intros v Hv. rewrite Hrev in Hv.
          change (lit "/") with ["/"%char] in Hv.
          apply app_inj_tail in Hv as [_ Hv]. contradiction. }
        split; [left; split; assumption|].
        rewrite (proj2 (strip_final_slash supabaseUrl None) Hn).
        reflexivity. }
  destruct Hcase as [base [Hbase Hend]].
  exists base, supabaseKey, batch. split; [exact Hk|].
  split; [exact Hbase|]. split; [exact Hne|].
  rewrite Hurl, Hend, Hinit. reflexivity.
Qed.

Lemma run_contacts_page_and_store_only_witness :
  In (EFetch (lit "https://db.example/rest/v1/garage_status")
        (store_init (lit "key") example_batch))
    (new_events [] (snd (handler env_ok example_request [])))
  /\ SUPABASE_URL env_ok = Some (lit "https://db.example" ++ lit "/").
Proof.
  assert (H : In (EFetch (lit "https://db.example/rest/v1/garage_status")
                    (store_init (lit "key") example_batch))
                (new_events [] (snd (handler env_ok example_request []))))
    by (vm_compute; right; right; left; reflexivity).
  split; [exact H|].
  destruct (run_contacts_page_and_store_only env_ok example_request [] _ H)
    as [Hx|[Hx|[Hx|Hx]]]; reflexivity.
Defined.

Lemma field_inj (k k' : string) (a b : str) :
  (k, JStr a) = (k', JStr b) -> a = b.
Proof. intros H. inversion H. reflexivity. Qed.

Lemma reply_to_write_facts (answer : Z * settled) (n : nat) (fetchedAt : str)
    (lastUpdated : option str) (statuses : object Z) :
  let reply := reply_to_write answer n fetchedAt lastUpdated statuses in
  (res_status reply = 200
   <-> fst answer < 10000
       /\ exists resp, snd answer = Resolves resp /\ ok resp = true)
  /\ (res_status reply = 200 ->
        In ("inserted"%string, JNum (Z.of_nat n)) (res_json reply))
  /\ (res_status reply <> 200 ->
        res_status reply = 502
        /\ In ("error"%string, JStr (lit "Supabase insert failed"))
             (res_json reply)
        /\ forall b, In ("body"%string, JStr b) (res_json reply) ->
                     (length b <= 2000)%nat).
Proof.
  assert (Hf : forall e b,
            ~ In ("body"%string, JStr b)
                (res_json (insert_failed e fetchedAt lastUpdated statuses))).
  { intros e b Hb. simpl in Hb.
    repeat (destruct Hb as [Hb|Hb]; [discriminate Hb|]). exact Hb. }
  cbv zeta. unfold reply_to_write.
  destruct answer as [latency [resp|e]]; cbn [fst snd];
    destruct (Z.ltb_spec latency 10000) as [Hlt|Hge].
  - destruct (ok resp) eqn:Hok.
    + split; [split; [intros _; split; [exact Hlt | eauto] | reflexivity]|].
      split; [intros _; simpl; auto|]. intros Hn. elim Hn. reflexivity.
    + split; [split; [discriminate|]|].
      { intros [_ [resp' [Hr' Hok']]]. inversion Hr'; subst. congruence. }
      split; [discriminate|]. intros _.
      split; [reflexivity|]. split; [left; reflexivity|].
      intros b Hb. cbn [res_json insert_refused In] in Hb.
      destruct Hb as [Hb|[Hb|[Hb|Hb]]]; try discriminate Hb.
      * apply field_inj in Hb. rewrite <- Hb. apply firstn_le_length.
      * repeat (destruct Hb as [Hb|Hb]; [discriminate Hb|]). destruct Hb.
  - split; [split; [discriminate | intros [Hx _]; lia]|].
    split; [discriminate|]. intros _.
    split; [reflexivity|]. split; [simpl; auto|].
    intros b Hb. elim (Hf _ _ Hb).
  - split; [split; [discriminate|]|].
    { intros [_ [resp' [Hr' _]]]. discriminate. }
    split; [discriminate|]. intros _.
    split; [reflexivity|]. split; [simpl; auto|].
    intros b Hb. elim (Hf _ _ Hb).
  - split; [split; [discriminate | intros [Hx _]; lia]|].
    split; [discriminate|]. intros _.
    split; [reflexivity|]. split; [simpl; auto|].
    intros b Hb. elim (Hf _ _ Hb).
Qed.

(** X11: the answer of the store to the write decides the reply.  The
    reply is 200, with the number of records of the batch (between one
    and four) as [inserted], exactly when the store answers within ten
    seconds with a status that is ok; otherwise it is 502 with the
    label of a failed insert (never the 500 of a failed run), with at
    most 2000 characters of the answer of the store as [body].  The
    write is the last event of the run: it is not tried again. *)
Theorem store_answer_decides_reply (E : env) (req : request)
    (t0 t : list event) (r : result http_response) (url : str)
    (init : request_init) (batch : list GarageStatusRow) :
  handler E req t0 = (r, t) ->
  In (EFetch url init) (new_events t0 t) ->
  i_body init = Some batch ->
  exists reply : http_response,
    r = Ok reply
    /\ (1 <= length batch <= 4)%nat
    /\ (res_status reply = 200
        <-> fst (net_fetch E url init) < 10000
            /\ exists resp, snd (net_fetch E url init) = Resolves resp
                            /\ ok resp = true)
    /\ (res_status reply = 200 ->
          In ("inserted"%string, JNum (Z.of_nat (length batch)))
            (res_json reply))
    /\ (res_status reply <> 200 ->
          res_status reply = 502
          /\ In ("error"%string, JStr (lit "Supabase insert failed"))
               (res_json reply)
          /\ forall b, In ("body"%string, JStr b) (res_json reply) ->
                       (length b <= 2000)%nat)
    /\ (exists before, t = before ++ [EFetch url init]
                       /\ ~ In (EFetch url init) (new_events t0 before)).
Proof.
  intros H Hin Hbody.
  destruct (store_write_run E req t0 t r url init batch H Hin Hbody)
    as [supabaseUrl [supabaseKey [pre [html [Hu [Hk [Hpre [Hbatch [Hne
       [Hurl [Hinit [Ht [Hr _]]]]]]]]]]]]].
  eexists. split; [exact Hr|]. split.
  { split; [destruct batch; [congruence | simpl; lia]|].
    rewrite Hbatch. unfold make_rows. rewrite length_map.
    pose proof (parseStatuses_NoDup (htmlToText html)) as Hnd.
    assert (Hincl : incl (map fst (parseStatuses (htmlToText html)))
                      garageNames).
    { intros g Hg. unfold parseStatuses in Hg.
      apply statuses_loop_keys in Hg as [Hg|Hg]; [destruct Hg|].
      apply in_map_iff in Hg as [p [<- Hp]].
      eapply positions_names; eassumption. }
    pose proof (NoDup_incl_length Hnd Hincl) as Hl.
    rewrite length_map in Hl. exact Hl. }
  pose proof (reply_to_write_facts (net_fetch E url init) (length batch)
                (now_iso E (length (t0 ++ pre)))
                (parseLastUpdated (htmlToText html))
                (parseStatuses (htmlToText html))) as [H1 [H2 H3]].
  split; [exact H1|]. split; [exact H2|]. split; [exact H3|].
  exists (t0 ++ pre ++ [EClock]). rewrite Ht, <- !app_assoc.
  split; [reflexivity|]. rewrite new_events_app. intros Hx.
  apply in_app_or in Hx as [Hx|[Hx|[]]]; [|discriminate].
  eapply page_events_no_write; eassumption.
Qed.

Lemma store_answer_decides_reply_witness :
  exists reply : http_response,
    fst (handler env_ok example_request []) = Ok reply
    /\ res_status reply = 200
    /\ In ("inserted"%string, JNum 2) (res_json reply).
Proof.
  set (run := handler env_ok example_request []).
  set (init := store_init (lit "key") example_batch).
  set (url := lit "https://db.example/rest/v1/garage_status").
  assert (H1 : handler env_ok example_request [] = (fst run, snd run))
    by (unfold run; destruct (handler env_ok example_request []);
        reflexivity).
  assert (H2 : In (EFetch url init) (new_events [] (snd run)))
    by (vm_compute; right; right; left; reflexivity).
  assert (H3 : i_body init = Some example_batch) by reflexivity.
  destruct (store_answer_decides_reply env_ok example_request [] (snd run)
              (fst run) url init example_batch H1 H2 H3)
    as [reply [Hr [_ [Hiff [Hins _]]]]].
  assert (Hs : res_status reply = 200).
  { apply Hiff. split; [vm_compute; reflexivity|].
    eexists. split; vm_compute; reflexivity. }
  exists reply. split; [exact Hr|]. split; [exact Hs|]. exact (Hins Hs).
Defined.

(** ** Ingestion handler: runs that end before the write *)

Lemma cleared_guards (E : env) (req : request) :
  cleared E req ->
  negb (str_eqb (method req) (lit "GET"))
  && negb (str_eqb (method req) (lit "HEAD")) = false
  /\ exists secret url key,
       truthy (CRON_SECRET E) = Some secret
       /\ str_eqb
            match truthy (authorization req) with Some a => a | None => [] end
            (lit "Bearer " ++ secret)
          || match getRequestToken req with
             | Some t => str_eqb t secret
             | None => false
             end = true
       /\ truthy (SUPABASE_URL E) = Some url
       /\ truthy (SUPABASE_KEY E) = Some key.
Proof.
  intros [Ha [[s [Hs Hp]] [[u Hu] [k Hk]]]].
  split; [apply allowed_iff; exact Ha|]. exists s, u, k.
  split; [apply truthy_is_set; exact Hs|].
  split; [apply authed_iff; exact Hp|].
  split; apply truthy_is_set; assumption.
Qed.

(** X12: when the site answers the request for the page with a status
    that is not ok, the run ends there: the reply is 502 with the
    status of the site and the first 500 characters of its answer (the
    empty text when the answer cannot be read); the clock is not read
    and nothing is written to the store. *)
Theorem page_failure_ends_the_run (E : env) (req : request)
    (t0 t1 : list event) (resp : response) :
  cleared E req ->
  fetchGarageStatusPage E sourceUrl t0 = (Ok resp, t1) ->
  ok resp = false ->
  handler E req t0
  = (Ok (Res [] 502
           [("error"%string, JStr (lit "Failed to fetch garage status page"));
            ("status"%string, JNum (r_status resp));
            ("body"%string,
             JStr (firstn 500 match r_text resp with
                              | TextOk s => s
                              | TextFails _ => []
                              end))]), t1)
  /\ (length (firstn 500 match r_text resp with
                         | TextOk s => s
                         | TextFails _ => []
                         end) <= 500)%nat
  /\ ~ In EClock (new_events t0 t1)
  /\ (forall url init, In (EFetch url init) (new_events t0 t1) ->
        i_body init = None).
Proof.
  intros Hadm Hpage Hok.
  destruct (cleared_guards E req Hadm) as [Hm [s [u [k [Hs [Ha [Hu Hk]]]]]]].
  split; [|split; [apply firstn_le_length|]].
  - unfold handler. rewrite Hm, Hs, Ha, Hu, Hk. cbn [negb].
    unfold try_catch at 1. unfold bind at 1. rewrite Hpage, Hok.
    reflexivity.
  - destruct (page_fetch_events E sourceUrl t0) as [res [pre [Hp Hpre]]].
    rewrite Hpage in Hp. inversion Hp; subst. rewrite new_events_app.
    split.
    + destruct Hpre as [-> | ->]; simpl; intuition discriminate.
    + intros url init Hin.
      destruct Hpre as [-> | ->]; simpl in Hin;
        repeat match goal with
               | Hx : _ \/ _ |- _ => destruct Hx as [Hx|Hx]
               | Hx : False |- _ => destruct Hx
               | Hx : EFetch _ _ = EFetch _ _ |- _ =>
                   inversion Hx; subst; clear Hx
               | Hx : EInsecureGet _ = EFetch _ _ |- _ => discriminate Hx
               end; reflexivity.
Qed.

Lemma page_failure_ends_the_run_witness :
  cleared env_down example_request
  /\ res_status
       match fst (handler env_down example_request []) with
       | Ok reply => reply
       | Thrown _ => Res [] 0 []
       end = 502.
Proof.
  assert (Ha : cleared env_down example_request).
  { split; [left; reflexivity|].
    split; [exists (lit "s3cret"); split;
            [split; [reflexivity | discriminate] | left; reflexivity]|].
    split; eexists; (split; [reflexivity | discriminate]). }
  split; [exact Ha|].
  rewrite (proj1 (page_failure_ends_the_run env_down example_request []
                    [EFetch sourceUrl empty_init]
                    (Response false 503 (TextOk (lit "Service Unavailable")))
                    Ha eq_refl eq_refl)).
  reflexivity.
Defined.

(** X13: when the page is fetched and read but the extractor finds no
    status in it, the run reads the clock and ends without a request
    to the store; the reply is 200 with [inserted] 0 and a note. *)
Theorem nothing_parsed_nothing_written (E : env) (req : request)
    (t0 t1 : list event) (resp : response) (html : str) :
  cleared E req ->
  fetchGarageStatusPage E sourceUrl t0 = (Ok resp, t1) ->
  ok resp = true ->
  r_text resp = TextOk html ->
  parseStatuses (htmlToText html) = [] ->
  exists reply : http_response,
    handler E req t0 = (Ok reply, t1 ++ [EClock])
    /\ res_status reply = 200
    /\ In ("inserted"%string, JNum 0) (res_json reply)
    /\ In ("statuses"%string, JStatuses []) (res_json reply)
    /\ In ("note"%string, JStr (lit "No statuses parsed; nothing inserted"))
         (res_json reply)
    /\ (forall url init, In (EFetch url init) (new_events t0 (t1 ++ [EClock])) ->
          i_body init = None).
Proof.
  intros Hadm Hpage Hok Htext Hnone.
  destruct (cleared_guards E req Hadm) as [Hm [s [u [k [Hs [Ha [Hu Hk]]]]]]].
  eexists. split; [|split; [|split; [|split; [|split]]]].
  - unfold handler. rewrite Hm, Hs, Ha, Hu, Hk. cbn [negb].
    unfold try_catch at 1. unfold bind at 1. rewrite Hpage, Hok.
    cbn [negb]. unfold bind at 1. unfold read_text. rewrite Htext.
    unfold ret at 1. unfold bind at 1. unfold new_date_iso.
    rewrite Hnone. reflexivity.
  - reflexivity.
  - simpl. auto 10.
  - simpl. auto 10.
  - simpl. auto 10.
  - destruct (page_fetch_events E sourceUrl t0) as [res [pre [Hp Hpre]]].
    rewrite Hpage in Hp. inversion Hp; subst.
    rewrite <- app_assoc, new_events_app.
    intros url init Hin.
    destruct Hpre as [-> | ->]; simpl in Hin;
      repeat match goal with
             | Hx : _ \/ _ |- _ => destruct Hx as [Hx|Hx]
             | Hx : False |- _ => destruct Hx
             | Hx : EFetch _ _ = EFetch _ _ |- _ =>
                 inversion Hx; subst; clear Hx
             | Hx : EInsecureGet _ = EFetch _ _ |- _ => discriminate Hx
             | Hx : EClock = EFetch _ _ |- _ => discriminate Hx
             end; reflexivity.
Qed.

Lemma nothing_parsed_nothing_written_witness :
  cleared env_blank example_request
  /\ exists reply : http_response,
       fst (handler env_blank example_request []) = Ok reply
       /\ In ("inserted"%string, JNum 0) (res_json reply).
Proof.
  assert (Ha : cleared env_blank example_request).
  { split; [left; reflexivity|].
    split; [exists (lit "s3cret"); split;
            [split; [reflexivity | discriminate] | left; reflexivity]|].
    split; eexists; (split; [reflexivity | discriminate]). }
  split; [exact Ha|].
  destruct (nothing_parsed_nothing_written env_blank example_request []
              [EFetch sourceUrl empty_init]
              (Response true 200
                 (TextOk (lit "<html><body><p>Under maintenance</p></body></html>")))
              (lit "<html><body><p>Under maintenance</p></body></html>")
              Ha eq_refl eq_refl eq_refl)
    as [reply [Hr [_ [Hi _]]]]; [vm_compute; reflexivity|].
  exists reply. rewrite Hr. split; [reflexivity | exact Hi].
Defined.

(** ** Page fetcher: the answer of the request that skips verification *)

(** X14: an answer that the page fetcher obtains by the request that
    skips the verification of the certificate is ok exactly when its
    status is from 200 to 299; a missing status code is taken as 0 (so
    not ok); the text of the answer can always be read.  When that
    request fails, the fetcher fails with its error, and when its
    socket stays idle for ten seconds, with a timeout error that has
    no cause code. *)
Theorem fallback_answer (E : env) (url : str) (t0 t : list event)
    (res : result response) :
  fetchGarageStatusPage E url t0 = (res, t) ->
  In (EInsecureGet url) (new_events t0 t) ->
  match res with
  | Ok resp =>
      (ok resp = true <-> 200 <= r_status resp < 300)
      /\ exists statusCode data,
           https_get E url = GetResponse statusCode data
           /\ r_status resp = match statusCode with Some c => c | None => 0 end
           /\ r_text resp = TextOk data
  | Thrown e =>
      https_get E url = GetError e
      \/ (https_get E url = GetIdle
          /\ e_message e = lit "Timeout fetching garage status page"
          /\ e_cause_code e = None)
  end.
Proof.
  unfold fetchGarageStatusPage, try_catch.
  pose proof (fetchWithTimeout_trace E url empty_init 10000 t0) as Ht.
  destruct (fetchWithTimeout E url empty_init 10000 t0) as [[resp|e] t1];
    simpl in Ht; subst t1.
  { intros H Hin. inversion H; subst. rewrite new_events_app in Hin.
    destruct Hin as [Hin|[]]. discriminate. }
  destruct (has_code tlsCodes (e_cause_code e)); cbn [negb].
  2:{ intros H Hin. inversion H; subst. rewrite new_events_app in Hin.
      destruct Hin as [Hin|[]]. discriminate. }
  unfold insecure_get, bind, emit.
  destruct (https_get E url) as [statusCode data|e'|];
    intros H _; inversion H; subst; clear H.
  - cbn [ok r_status r_text]. split.
    + rewrite andb_true_iff, Z.leb_le, Z.ltb_lt. reflexivity.
    + exists statusCode, data. auto.
  - left. reflexivity.
  - right. auto.
Qed.

Lemma fallback_answer_witness :
  In (EInsecureGet sourceUrl)
    (new_events [] (snd (fetchGarageStatusPage env_tls sourceUrl [])))
  /\ exists resp, fst (fetchGarageStatusPage env_tls sourceUrl []) = Ok resp
                  /\ (ok resp = true <-> 200 <= r_status resp < 300).
Proof.
  set (run := fetchGarageStatusPage env_tls sourceUrl []).
  assert (H1 : fetchGarageStatusPage env_tls sourceUrl []
               = (fst run, snd run))
    by (unfold run; destruct (fetchGarageStatusPage env_tls sourceUrl []);
        reflexivity).
  assert (H2 : In (EInsecureGet sourceUrl) (new_events [] (snd run)))
    by (vm_compute; right; left; reflexivity).
  split; [exact H2|].
  pose proof (fallback_answer env_tls sourceUrl [] (snd run) (fst run) H1 H2)
    as H.
  destruct (fst run) as [resp|e] eqn:Hr.
  - exists resp. split; [reflexivity | exact (proj1 H)].
  - exfalso. vm_compute in Hr. discriminate.
Defined.

(** ** Text normalizer: what the output never holds *)

Lemma no_tag_no_split (t a x b : str) :
  no_tag t = true -> x <> [] -> forallb not_gt x = true ->
  t <> a ++ "<"%char :: x ++ ">"%char :: b.
Proof.
  intros Ht Hx Hall He. subst t. apply no_tag_suffix, no_tag_at in Ht.
  destruct x as [|d x']; [congruence|]. cbn [app tag_at] in Ht.
  cbn [forallb] in Hall. apply andb_true_iff in Hall as [Hd _].
  rewrite Hd, has_gt_app in Ht. cbn in Ht.
  rewrite orb_true_r in Ht. discriminate.
Qed.

Lemma no_nbsp_no_split (t a b : str) :
  no_nbsp t = true -> t <> a ++ lit "&nbsp;" ++ b.
Proof.
  intros Ht He. subst t. apply no_nbsp_suffix in Ht.
  pose proof (starts_with_self (lit "&nbsp;") b) as Hs.
  destruct (lit "&nbsp;" ++ b) as [|c r] eqn:Hl; [discriminate|].
  cbn [no_nbsp] in Ht. rewrite Hs in Ht. discriminate.
Qed.

Lemma single_spaced_spec (t : str) :
  single_spaced t = true ->
  (forall c, In c t -> is_ws c = true -> c = " "%char)
  /\ (forall a c d b, t = a ++ c :: d :: b ->
        is_ws c = true -> is_ws d = false).
Proof.
  induction t as [|x t IH]; cbn [single_spaced].
  - intros _. split; [intros c []|]. intros [|? ?] c d b H; discriminate.
  - intros H. apply andb_true_iff in H as [Hx Ht].
    destruct (IH Ht) as [IH1 IH2]. split.
    + intros c [<-|Hin] Hc; [|auto]. rewrite Hc in Hx.
      apply andb_true_iff in Hx as [Hx _]. apply Ascii.eqb_eq in Hx. exact Hx.
    + intros [|y a] c d b He Hc.
      * inversion He; subst. rewrite Hc in Hx.
        apply andb_true_iff in Hx as [_ Hx]. apply negb_true_iff in Hx.
        exact Hx.
      * inversion He; subst. eapply IH2; [reflexivity | exact Hc].
Qed.

(** X15: the output of the normalizer holds no tag (no [<] followed
    by one or more characters other than [>] and a [>]) and no
    [&nbsp;]; its only white space is the space character, never two
    in a row, and never at the start or at the end. *)
Theorem htmlToText_output_is_clean (html : str) :
  let text := htmlToText html in
  (forall a x b, x <> [] -> forallb not_gt x = true ->
     text <> a ++ "<"%char :: x ++ ">"%char :: b)
  /\ (forall a b, text <> a ++ lit "&nbsp;" ++ b)
  /\ (forall c, In c text -> is_ws c = true -> c = " "%char)
  /\ (forall a c d b, text = a ++ c :: d :: b ->
        is_ws c = true -> is_ws d = false)
  /\ (forall c rest, text = c :: rest -> is_ws c = false)
  /\ (forall c front, text = front ++ [c] -> is_ws c = false).
Proof.
  cbv zeta.
  destruct (htmlToText_normal_form html) as [Ht [Hn [Hs [Ha Hb]]]].
  split; [intros a x b; apply no_tag_no_split; exact Ht|].
  split; [intros a b; apply no_nbsp_no_split; exact Hn|].
  destruct (single_spaced_spec _ Hs) as [H1 H2].
  split; [exact H1|]. split; [exact H2|]. split.
  - intros c rest He. rewrite He in Ha. exact Ha.
  - intros c front He. rewrite He, rev_app_distr in Hb. exact Hb.
Qed.

(** X16: the texts that the normalizer leaves as they are are exactly
    the texts in normal form, and every output is one of them. *)
Theorem htmlToText_fixed_points (t : str) :
  (htmlToText t = t <-> normal_form t)
  /\ (htmlToText t = t <-> exists html, htmlToText html = t).
Proof.
  assert (H : htmlToText t = t <-> normal_form t).
  { split; [|apply normal_form_fixed].
    intros He. rewrite <- He. apply htmlToText_normal_form. }
  split; [exact H|]. split; [eauto|].
  intros [html <-]. apply normal_form_fixed, htmlToText_normal_form.
Qed.

(** ** Text normalizer: the output is no longer than the input *)

Lemma replaced_length (f : str -> option str) (s t : str) :
  replaced f sp s t -> (length t <= length s)%nat.
Proof.
  induction 1 as [|c s t Hf Hr IH|x s t Hx Hf Hr IH]; simpl.
  - lia.
  - lia.
  - rewrite length_app. destruct x; [congruence|]. simpl. lia.
Qed.

Lemma drop_ws_length (s : str) : (length (drop_ws s) <= length s)%nat.
Proof.
  destruct (drop_ws_suffix s) as [w [H _]]. rewrite H at 2.
  rewrite length_app. lia.
Qed.

Lemma replaced_all_ws (f : str -> option str) (s t : str) :
  replaced f sp s t -> forallb is_ws s = true -> forallb is_ws t = true.
Proof.
  induction 1 as [|c s t Hf Hr IH|x s t Hx Hf Hr IH]; cbn [forallb].
  - auto.
  - intros H. apply andb_true_iff in H as [Hc Hs]. rewrite Hc. auto.
  - rewrite forallb_app. intros H. apply andb_true_iff in H as [_ Hs].
    cbn [sp app forallb]. auto.
Qed.

Lemma drop_ws_all_ws (s : str) : forallb is_ws s = true -> drop_ws s = [].
Proof.
  induction s as [|c s IH]; cbn [forallb drop_ws]; [reflexivity|].
  intros H. apply andb_true_iff in H as [Hc Hs]. rewrite Hc. auto.
Qed.

(** X17: the normalizer never lengthens a text: each pass replaces a
    match, of one character at least, by one space, and trimming only
    removes characters. *)
Theorem htmlToText_never_longer (html : str) :
  (length (htmlToText html) <= length html)%nat
  /\ (html = [] -> htmlToText html = [])
  /\ (forallb is_ws html = true -> htmlToText html = []).
Proof.
  assert (Hl : (length (htmlToText html) <= length html)%nat).
  { unfold htmlToText.
    pose proof (replaced_length _ _ _ (strip_script html)) as H1.
    pose proof (replaced_length _ _ _
                  (strip_style (replace_all script_re sp html))) as H2.
    pose proof (replaced_length _ _ _
                  (strip_tags
                     (replace_all style_re sp
                        (replace_all script_re sp html)))) as H3.
    pose proof (replaced_length _ _ _
                  (strip_nbsp
                     (replace_all tag_re sp
                        (replace_all style_re sp
                           (replace_all script_re sp html))))) as H4.
    pose proof (replaced_length _ _ _
                  (strip_spaces
                     (replace_all nbsp_re sp
                        (replace_all tag_re sp
                           (replace_all style_re sp
                              (replace_all script_re sp html)))))) as H5.
    match goal with |- (length (trim ?x) <= _)%nat =>
      assert (H6 : (length (trim x) <= length x)%nat)
    end.
    { unfold trim. rewrite length_rev.
      eapply Nat.le_trans; [apply drop_ws_length|]. rewrite length_rev.
      apply drop_ws_length. }
    lia. }
  split; [exact Hl|]. split.
  - intros ->. reflexivity.
  - intros Hws. unfold htmlToText, trim.
    match goal with |- context [drop_ws (replace_all spaces_re sp ?x)] =>
      rewrite (drop_ws_all_ws (replace_all spaces_re sp x))
    end; [reflexivity|].
    apply (replaced_all_ws _ _ _ (strip_spaces _)).
    apply (replaced_all_ws _ _ _ (strip_nbsp _)).
    apply (replaced_all_ws _ _ _ (strip_tags _)).
    apply (replaced_all_ws _ _ _ (strip_style _)).
    apply (replaced_all_ws _ _ _ (strip_script _)).
    exact Hws.
Qed.

(** ** Last-updated line *)

Lemma search_from_split (r : re) (s : str) (prev : option ascii)
    (m : mstate) :
  search_from r prev s = Some m ->
  exists a s', s = a ++ s' /\ exec r (last_char a prev) s' = Some m
               /\ forall a1 a2, a = a1 ++ a2 -> a2 <> [] ->
                    exec r (last_char a1 prev) (a2 ++ s') = None.
Proof.
  revert prev; induction s as [|c s IH]; intros prev; cbn [search_from].
  - destruct (exec r prev []) eqn:He; [|discriminate].
    intros H; inversion H; subst. exists [], []. split; [reflexivity|].
    split; [exact He|]. intros a1 a2 Ha Hn.
    destruct a1; destruct a2; try discriminate. congruence.
  - destruct (exec r prev (c :: s)) eqn:He.
    + intros H; inversion H; subst. exists [], (c :: s).
      split; [reflexivity|]. split; [exact He|]. intros a1 a2 Ha Hn.
      destruct a1; destruct a2; try discriminate. congruence.
    + intros H. apply IH in H as [a [s' [-> [H Hmin]]]].
      exists (c :: a), s'. split; [reflexivity|]. split; [exact H|].
      intros [|x a1] a2 Ha Hn.
      * cbn [app] in Ha. subst a2. exact He.
      * cbn [app] in Ha. inversion Ha; subst. apply Hmin; auto.
Qed.

Lemma search_from_none (r : re) (s : str) (prev : option ascii) :
  search_from r prev s = None ->
  forall a s', s = a ++ s' -> exec r (last_char a prev) s' = None.
Proof.
  revert prev; induction s as [|c s IH]; intros prev; cbn [search_from].
  - destruct (exec r prev []) eqn:He; [discriminate|].
    intros _ a s' Ha. destruct a; destruct s'; try discriminate. exact He.
  - destruct (exec r prev (c :: s)) eqn:He; [discriminate|].
    intros H [|x a] s' Ha.
    + cbn [app] in Ha. subst s'. exact He.
    + cbn [app] in Ha. inversion Ha; subst. apply (IH (Some x) H a s').
      reflexivity.
Qed.

Lemma matches_WordB_inv (st st' : mstate) :
  matches WordB st st' ->
  st' = st /\ xorb (prev_word st) (next_word st) = true.
Proof. intros H; inversion H; subst; auto. Qed.

Lemma matches_EndIn_inv (st st' : mstate) :
  matches EndIn st st' -> st' = st /\ m_rest st = [].
Proof. intros H; inversion H; subst; auto. Qed.

Lemma canon_word :
  forall c, implb (is_word (canon c)) (is_word c) = true.
Proof. char_fact. Qed.

Lemma canon_word_back :
  forall c, implb (is_word c) (is_word (canon c)) = true.
Proof. char_fact. Qed.

Lemma is_word_canon (c a : ascii) :
  canon c = canon a -> is_word c = is_word a.
Proof.
  intros H.
  pose proof (canon_word c) as H1. pose proof (canon_word_back c) as H2.
  pose proof (canon_word a) as H3. pose proof (canon_word_back a) as H4.
  rewrite H in H1, H2.
  destruct (is_word c), (is_word a), (is_word (canon a));
    simpl in *; congruence.
Qed.

Lemma last_char_canon (x l : str) (p : option ascii) :
  map canon x = map canon l -> l <> [] ->
  exists c a, last_char x p = Some c /\ last_char l p = Some a
              /\ canon c = canon a.
Proof.
  revert l p; induction x as [|c x IH]; intros [|a l] p H Hn;
    try discriminate; [congruence|].
  cbn [map] in H. inversion H as [[Hc Hx]].
  destruct l as [|a' l'].
  - destruct x; [|discriminate]. exists c, a. auto.
  - destruct (IH (a' :: l') (Some c) Hx ltac:(discriminate))
      as [c' [a'' [H1 [H2 H3]]]].
    exists c', a''. split; [exact H1|]. split; [|exact H3].
    unfold last_char in *. cbn [fold_left] in *.
    destruct l'; exact H2.
Qed.

Lemma matches_Rep_parts (g : bool) (n : nat) (p : ascii -> bool)
    (st st' : mstate) :
  matches (Rep g n p) st st' ->
  exists x, m_rest st = x ++ m_rest st' /\ forallb p x = true
            /\ (n <= length x)%nat
            /\ m_prev st' = last_char x (m_prev st)
            /\ m_cap st' = m_cap st.
Proof.
  intros H. apply matches_Rep_inv in H as [x [H1 [H2 [H3 H4]]]].
  exists x. rewrite H4 at 2 3. auto.
Qed.

Lemma matches_literal_prev (l : str) (st st' : mstate) :
  matches (literal true l) st st' ->
  exists x, m_rest st = x ++ m_rest st' /\ map canon x = map canon l
            /\ m_cap st' = m_cap st
            /\ m_prev st' = last_char x (m_prev st).
Proof.
  intros H. pose proof (matches_consumed _ _ _ H) as [y [Hy Hp]].
  apply matches_literal_ci in H as [x [Hx [Hm Hc]]].
  exists x. repeat split; auto. rewrite Hy in Hx.
  assert (Hl : length y = length x).
  { apply (f_equal (@length ascii)) in Hx. rewrite !length_app in Hx. lia. }
  apply app_same_length in Hx as [-> _]; [exact Hp | exact Hl].
Qed.

Lemma last_updated_match (prev : option ascii) (s : str) (m : mstate) :
  matches last_updated_re (MState prev s None) m ->
  exists label ws raw post,
    s = label ++ ws ++ raw ++ post
    /\ match prev with Some c => is_word c | None => false end = false
    /\ toLowerCase label = lit "last updated"
    /\ ws <> [] /\ forallb is_ws ws = true
    /\ raw <> [] /\ forallb dot raw = true
    /\ m_cap m = Some raw
    /\ (post = [] \/ refresh_follows post).
Proof.
  unfold last_updated_re. intros H.
  apply matches_Seq_inv in H as [st1 [H1 H]].
  apply matches_WordB_inv in H1 as [-> Hb1].
  apply matches_Seq_inv in H as [st2 [H2 H]].
  apply matches_literal_prev in H2 as [label [Hl [Hcl [Hc2 Hp2]]]].
  apply matches_Seq_inv in H as [st3 [H3 H]].
  apply matches_WordB_inv in H3 as [-> _].
  apply matches_Seq_inv in H as [st4 [H4 H]].
  apply matches_Rep_parts in H4 as [ws [Hws [Haw [Hlw [Hp4 Hc4]]]]].
  apply matches_Seq_inv in H as [st5 [H5 H]].
  apply matches_Cap_inv in H5 as [st6 [raw [H6 [Hraw ->]]]].
  apply matches_Rep_parts in H6 as [raw' [Hraw' [Hdot [Hlr [Hp6 Hc6]]]]].
  cbn [m_rest m_prev m_cap] in *.
  assert (raw' = raw).
  { rewrite Hraw in Hraw'. apply app_inv_tail in Hraw'. congruence. }
  subst raw'.
  assert (Hlabel : toLowerCase label = lit "last updated").
  { apply map_canon_lower in Hcl. rewrite Hcl. reflexivity. }
  assert (Hprev : match prev with Some c => is_word c | None => false end
                  = false).
  { unfold prev_word, next_word in Hb1. cbn [m_prev m_rest] in Hb1.
    rewrite Hl in Hb1. destruct label as [|c label']; [discriminate|].
    cbn [app] in Hb1. cbn [map] in Hcl.
    change (map canon (lit "Last updated"))
      with (canon "l" :: map canon (lit "ast updated")) in Hcl.
    injection Hcl as Hc _.
    rewrite (is_word_canon _ _ Hc) in Hb1.
    change (is_word "l") with true in Hb1.
    destruct (match prev with Some c0 => is_word c0 | None => false end);
      [discriminate | reflexivity]. }
  assert (Hwsn : ws <> []) by (destruct ws; [simpl in Hlw; lia | discriminate]).
  assert (Hrawn : raw <> [])
    by (destruct raw; [simpl in Hlr; lia | discriminate]).
  apply matches_Alt_inv in H as [H|H].
  - apply matches_Seq_inv in H as [st7 [H7 H]].
    apply matches_Rep_parts in H7 as [ws' [Hws' [Haw' [Hlw' [Hp7 Hc7]]]]].
    apply matches_Seq_inv in H as [st8 [H8 H]].
    apply matches_literal_prev in H8 as [r [Hr [Hcr [Hc8 Hp8]]]].
    apply matches_WordB_inv in H as [-> Hb2].
    cbn [m_rest m_prev m_cap] in *.
    exists label, ws, raw, (ws' ++ r ++ m_rest st8).
    split; [rewrite Hl, Hws, Hraw, Hws', Hr; reflexivity|].
    split; [exact Hprev|]. split; [exact Hlabel|].
    split; [exact Hwsn|]. split; [exact Haw|]. split; [exact Hrawn|].
    split; [exact Hdot|]. split; [rewrite Hc8, Hc7; reflexivity|]. right.
    exists ws', r, (m_rest st8). split; [reflexivity|].
    split; [destruct ws'; [simpl in Hlw'; lia | discriminate]|].
    split; [exact Haw'|].
    split; [apply map_canon_lower in Hcr; rewrite Hcr; reflexivity|].
    unfold prev_word, next_word in Hb2. rewrite Hp8 in Hb2.
    destruct (last_char_canon r (lit "Refresh")
                (m_prev st7) Hcr ltac:(discriminate))
      as [c [a [Hc [Ha Hca]]]].
    rewrite Hc in Hb2. unfold last_char in Ha. simpl in Ha.
    inversion Ha; subst a. rewrite (is_word_canon _ _ Hca) in Hb2.
    change (is_word "h") with true in Hb2. unfold starts_word.
    destruct (m_rest st8) as [|d rest]; [reflexivity|].
    destruct (is_word d); [discriminate | reflexivity].
  - apply matches_EndIn_inv in H as [-> Hend].
    cbn [m_rest m_prev m_cap] in *.
    exists label, ws, raw, []. rewrite Hl, Hws, Hraw, Hend.
    repeat split; auto.
Qed.

Lemma ends_word_prev (a : str) :
  match last_char a None with Some c => is_word c | None => false end
  = ends_word a.
Proof. reflexivity. Qed.

(** X18: a time of last update that the job reports was found in the
    text: after the words Last updated (in any case, not preceded by a
    character of a word) and some white space, a stretch of one or
    more characters without a line break, which ends at the end of the
    text or is followed by white space and the word Refresh; the value
    reported is that stretch without white space at its ends. *)
Theorem parseLastUpdated_sound (text v : str) :
  parseLastUpdated text = Some v ->
  exists pre label ws raw post,
    text = pre ++ label ++ ws ++ raw ++ post
    /\ ends_word pre = false
    /\ toLowerCase label = lit "last updated"
    /\ ws <> [] /\ forallb is_ws ws = true
    /\ raw <> [] /\ forallb dot raw = true
    /\ (post = [] \/ refresh_follows post)
    /\ v = trim raw
    /\ starts_ws v = false /\ starts_ws (rev v) = false.
Proof.
  unfold parseLastUpdated, search. intros H.
  destruct (search_from last_updated_re None text) as [m|] eqn:Hs;
    [|discriminate].
  apply search_from_split in Hs as [pre [s' [-> [He _]]]].
  apply exec_matches, last_updated_match in He
    as [label [ws [raw [post [-> [Hp [Hl [Hw [Haw [Hr [Hd [Hc Hpost]]]]]]]]]]]].
  rewrite Hc in H. simpl in H. inversion H; subst v.
  exists pre, label, ws, raw, post.
  repeat split; auto; apply trim_trimmed.
Qed.

Lemma parseLastUpdated_sound_witness :
  parseLastUpdated (htmlToText example_page)
  = Some (lit "2/3/2025 10:15:00 AM")
  /\ exists pre post : str,
       htmlToText example_page
       = pre ++ lit "Last updated" ++ lit " "
             ++ lit "2/3/2025 10:15:00 AM" ++ post.
Proof.
  assert (H : parseLastUpdated (htmlToText example_page)
              = Some (lit "2/3/2025 10:15:00 AM"))
    by (vm_compute; reflexivity).
  split; [exact H|].
  destruct (parseLastUpdated_sound _ _ H)
    as [pre [label [ws [raw [post _]]]]].
  exists (lit "Garage Status "),
    (lit " Refresh South Garage 377 S. 7th St., San Jose, CA 95112 45 % West Garage 350 S. 4th St. Full").
  vm_compute. reflexivity.
Defined.

Lemma last_updated_intro (pre label rest : str) :
  ends_word pre = false ->
  toLowerCase label = lit "last updated" ->
  rest <> [] -> forallb dot rest = true ->
  exists m, exec last_updated_re (last_char pre None)
              (label ++ " "%char :: rest) = Some m.
Proof.
  intros Hp Hl Hr Hd.
  assert (Hc : map canon label = map canon (lit "Last updated"))
    by (apply lower_same_canon; rewrite Hl; reflexivity).
  destruct (last_char_canon label (lit "Last updated") (last_char pre None)
              Hc ltac:(discriminate)) as [c [a [Hlc [Ha Hca]]]].
  unfold last_char in Ha. simpl in Ha. inversion Ha; subst a.
  apply matches_exec with
    (st' := MState (last_char rest (Some " "%char)) []
              (Some (firstn (length rest - length (@nil ascii)) rest))).
  unfold last_updated_re.
  apply M_Seq with (MState (last_char pre None) (label ++ " "%char :: rest)
                      None).
  { constructor. unfold prev_word, next_word. cbn [m_prev m_rest].
    fold (ends_word pre). rewrite Hp.
    destruct label as [|c0 label']; [discriminate|]. cbn [app].
    cbn [map] in Hc.
    change (map canon (lit "Last updated"))
      with (canon "l" :: map canon (lit "ast updated")) in Hc.
    injection Hc as Hc0 _. rewrite (is_word_canon _ _ Hc0). reflexivity. }
  apply M_Seq with (MState (last_char label (last_char pre None))
                      (" "%char :: rest) None).
  { apply matches_literal_intro. exact Hc. }
  apply M_Seq with (MState (last_char label (last_char pre None))
                      (" "%char :: rest) None).
  { constructor. unfold prev_word, next_word. cbn [m_prev m_rest].
    rewrite Hlc, (is_word_canon _ _ Hca). reflexivity. }
  apply M_Seq with (MState (Some " "%char) rest None).
  { apply (@M_Rep true 1%nat is_ws [" "%char] rest
             (last_char label (last_char pre None)) None);
      [reflexivity | simpl; lia]. }
  apply M_Seq with (MState (last_char rest (Some " "%char)) []
                      (Some (firstn (length rest - length (@nil ascii))
                               rest))).
  { apply (@M_Cap (lazy_plus dot) (MState (Some " "%char) rest None)
             (MState (last_char rest (Some " "%char)) [] None)).
    pose proof (@M_Rep false 1%nat dot rest [] (Some " "%char) None Hd) as Hm.
    rewrite app_nil_r in Hm. apply Hm.
    destruct rest; [congruence | simpl; lia]. }
  apply M_AltR. constructor.
Qed.

(** X19: on a normalized page, a time of last update is reported
    exactly when the text holds the words Last updated (in any case,
    not preceded by a character of a word) followed by a space. *)
Theorem parseLastUpdated_found_iff (html : str) :
  let text := htmlToText html in
  parseLastUpdated text <> None
  <-> exists pre label rest,
        text = pre ++ label ++ " "%char :: rest
        /\ ends_word pre = false
        /\ toLowerCase label = lit "last updated".
Proof.
  cbv zeta.
  destruct (htmlToText_normal_form html) as [_ [_ [Hs [_ Hend]]]].
  destruct (single_spaced_spec _ Hs) as [Hsp _].
  split.
  - unfold parseLastUpdated, search.
    destruct (search_from last_updated_re None (htmlToText html))
      as [m|] eqn:Hm; [|congruence]. intros _.
    apply search_from_split in Hm as [pre [s' [Ht [He _]]]].
    apply exec_matches, last_updated_match in He
      as [label [ws [raw [post [-> [Hp [Hl [Hw [Haw _]]]]]]]]].
    destruct ws as [|w ws']; [congruence|].
    cbn [forallb] in Haw. apply andb_true_iff in Haw as [Hw' _].
    assert (w = " "%char).
    { apply Hsp; [|exact Hw']. rewrite Ht.
      apply in_or_app; right. apply in_or_app; right. left. reflexivity. }
    subst w. exists pre, label, (ws' ++ raw ++ post).
    split; [exact Ht|]. split; [exact Hp | exact Hl].
  - intros [pre [label [rest [Ht [Hp Hl]]]]].
    assert (Hr : rest <> []).
    { intros ->. rewrite Ht, !rev_app_distr in Hend. simpl in Hend.
      discriminate. }
    assert (Hd : forallb dot rest = true).
    { apply forallb_forall. intros c Hc. unfold dot.
      pose proof (line_terminator_is_ws c) as Hlt.
      destruct (is_line_terminator c) eqn:Hc'; [|reflexivity].
      simpl in Hlt. apply andb_true_iff in Hlt as [Hws Hne].
      assert (c = " "%char).
      { apply Hsp; [|exact Hws]. rewrite Ht.
        apply in_or_app; right. apply in_or_app; right. right. exact Hc. }
      subst c. discriminate. }
    destruct (last_updated_intro pre label rest Hp Hl Hr Hd) as [m Hm].
    unfold parseLastUpdated, search.
    destruct (search_from last_updated_re None (htmlToText html))
      as [m'|] eqn:Hs'.
    + apply search_from_split in Hs' as [pre' [s' [_ [He _]]]].
      apply exec_matches, last_updated_match in He
        as [_ [_ [raw [_ [_ [_ [_ [_ [_ [_ [_ [Hc _]]]]]]]]]]]].
      rewrite Hc. discriminate.
    + pose proof (search_from_none _ _ _ Hs' pre _ Ht) as Hn. congruence.
Qed.

(** ** Daily averages: when the chart is empty, and the range of its values *)

(** X20: the chart has no point exactly when no record has a time
    stamp that is valid (not empty, and a date); it never has more
    points than there are records. *)
Theorem dailyData_empty_iff (zn : zone) (date_parse : str -> option Z)
    (format_date : option Z -> str) (rs : list GarageStatusRow) :
  (dailyData zn date_parse format_date rs = []
   <-> forall r, In r rs -> valid_time date_parse r = None)
  /\ (length (dailyData zn date_parse format_date rs) <= length rs)%nat.
Proof.
  assert (Hlen : length (dailyData zn date_parse format_date rs)
                 = length (map fst (build_dayMap zn date_parse rs))).
  { rewrite dailyData_points, length_map. unfold days_of, sortedDays.
    apply Permutation_length, js_sort_perm. }
  split.
  - split.
    + intros He r Hr. rewrite He in Hlen. simpl in Hlen.
      destruct (valid_time date_parse r) as [t|] eqn:Hv; [|reflexivity].
      assert (Hin : In (getDayKey zn t)
                      (map fst (build_dayMap zn date_parse rs))).
      { apply build_dayMap_keys. exists r, t. auto. }
      destruct (map fst (build_dayMap zn date_parse rs)); [destruct Hin|].
      discriminate.
    + intros Hn.
      destruct (map fst (build_dayMap zn date_parse rs)) as [|d l] eqn:Hk.
      * destruct (dailyData zn date_parse format_date rs);
          [reflexivity | discriminate].
      * assert (Hin : In d (map fst (build_dayMap zn date_parse rs)))
          by (rewrite Hk; left; reflexivity).
        apply build_dayMap_keys in Hin as [r [t [Hr [Hv _]]]].
        rewrite (Hn r Hr) in Hv. discriminate.
  - rewrite Hlen.
    assert (Hnd : NoDup (map fst (build_dayMap zn date_parse rs)))
      by apply build_dayMap_NoDup.
    set (key := fun r => match valid_time date_parse r with
                         | Some t => getDayKey zn t
                         | None => []
                         end).
    assert (Hincl : incl (map fst (build_dayMap zn date_parse rs))
                      (map key rs)).
    { intros d Hd. apply build_dayMap_keys in Hd as [r [t [Hr [Hv <-]]]].
      apply in_map_iff. exists r. split; [|exact Hr]. unfold key.
      rewrite Hv. reflexivity. }
    pose proof (NoDup_incl_length Hnd Hincl) as Hl.
    rewrite (length_map key) in Hl. exact Hl.
Qed.

Lemma sum_acc (l : list Z) (acc : Z) :
  fold_left Z.add l acc = acc + fold_left Z.add l 0.
Proof.
  revert acc; induction l as [|x l IH]; intros acc; cbn [fold_left]; [lia|].
  rewrite IH, (IH (0 + x)). lia.
Qed.

Lemma sum_bounds (l : list Z) (lo hi : Z) :
  (forall x, In x l -> lo <= x <= hi) ->
  Z.of_nat (length l) * lo <= sum l <= Z.of_nat (length l) * hi.
Proof.
  unfold sum. induction l as [|x l IH]; intros H; [simpl; lia|].
  cbn [fold_left length]. rewrite sum_acc.
  assert (Hx : lo <= x <= hi) by (apply H; left; reflexivity).
  assert (Hl : forall y, In y l -> lo <= y <= hi)
    by (intros y Hy; apply H; right; exact Hy).
  specialize (IH Hl). lia.
Qed.

Lemma mean_bounds (l : list Z) (lo hi : Z) :
  l <> [] -> (forall x, In x l -> lo <= x <= hi) ->
  lo <= mean l <= hi.
Proof.
  intros Hn H. unfold mean.
  destruct l as [|x l']; [congruence|].
  set (l := x :: l') in *.
  pose proof (sum_bounds l lo hi H) as Hs.
  set (n := Z.of_nat (length l)) in *.
  assert (Hpos : 0 < n) by (unfold n, l; simpl; lia).
  unfold round_div. split.
  - apply Z.div_le_lower_bound; nia.
  - apply Z.lt_succ_r, Z.div_lt_upper_bound; nia.
Qed.

(** X21: when the statuses are small against the number of records
    (so that the sums in doubles are exact), every value of the chart
    is an integer that lies between the smallest and the largest
    status of the records, or is the 0 of a garage without a reading:
    when all statuses are from 0 to 100, so are all values of the
    chart, which fits its axis. *)
Theorem chart_values_within_range (zn : zone) (date_parse : str -> option Z)
    (format_date : option Z -> str) (rs : list GarageStatusRow)
    (lo hi : Z) :
  lo <= 0 <= hi ->
  (forall r, In r rs -> lo <= status r <= hi) ->
  small_statuses rs ->
  forall point g v,
    In point (dailyData zn date_parse format_date rs) ->
    In (g, v) (values point) ->
    (exists n, v = Fin n /\ lo <= n <= hi) /\ In g GARAGES.
Proof.
  intros H0 Hr Hsmall point g v Hp Hv. rewrite dailyData_points in Hp.
  apply in_map_iff in Hp as [d [<- _]]. cbn [values] in Hv.
  apply in_map_iff in Hv as [g' [Hgv Hg]]. inversion Hgv; subst g' v.
  split; [|exact Hg].
  rewrite (statuses_on_exact zn date_parse rs d g Hsmall).
  eexists. split; [reflexivity|].
  destruct (statuses_on zn date_parse rs d g) as [|x l] eqn:Hs;
    [exact H0|].
  rewrite <- Hs. apply mean_bounds; [rewrite Hs; discriminate|].
  intros y Hy. unfold statuses_on in Hy.
  apply in_map_iff in Hy as [r [<- Hin]]. apply filter_In in Hin as [Hin _].
  apply Hr, Hin.
Qed.

Lemma chart_values_within_range_witness :
  In (Daily (lit "Jan 1")
        [(lit "South Garage", Fin 60); (lit "North Garage", Fin 100);
         (lit "West Garage", Fin 0); (lit "South Campus Garage", Fin 0)])
    (dailyData pacific_2024 iso_parse example_format known_example)
  /\ small_statuses known_example
  /\ (exists n, Fin 60 = Fin n /\ 0 <= n <= 100)
  /\ In (lit "South Garage") GARAGES.
Proof.
  assert (Hp : In (Daily (lit "Jan 1")
                     [(lit "South Garage", Fin 60);
                      (lit "North Garage", Fin 100);
                      (lit "West Garage", Fin 0);
                      (lit "South Campus Garage", Fin 0)])
                 (dailyData pacific_2024 iso_parse example_format
                    known_example))
    by (vm_compute; left; reflexivity).
  assert (Hs : small_statuses known_example)
    by (intros r [<-|[<-|[<-|[]]]]; vm_compute; reflexivity).
  split; [exact Hp|]. split; [exact Hs|].
  apply (chart_values_within_range pacific_2024 iso_parse example_format
           known_example 0 100 ltac:(lia)
           ltac:(intros r [<-|[<-|[<-|[]]]]; simpl; lia) Hs
           _ (lit "South Garage") (Fin 60) Hp).
  left. reflexivity.
Defined.

(** ** Day keys: from an instant to its key and back *)

(** The key of an instant depends on the number of its local day
    only, whatever the zone. *)
Lemma getDayKey_same_day (zn zn' : zone) (t t' : Z) :
  local_day zn t = local_day zn' t' ->
  getDayKey zn t = getDayKey zn' t'
  /\ getFullYear zn t = getFullYear zn' t'.
Proof.
  unfold local_day, getDayKey, getFullYear, getMonth, getDate, LocalTime.
  intros ->. split; reflexivity.
Qed.

(** Read at offset 0, the key of an instant gives the number of its
    local day. *)
Lemma key_day (zn : zone) (t : Z) :
  in_range zn t ->
  key_date (fixed_zone 0) (getDayKey zn t) = Some (local_day zn t * msPerDay).
Proof.
  intros H.
  assert (Hl : local_day zn t
               = local_day (fixed_zone 0) (local_day zn t * msPerDay)).
  { unfold local_day at 2. cbn [fixed_zone offset_at].
    rewrite Z.add_0_r, Z.div_mul; [reflexivity | discriminate]. }
  destruct (getDayKey_same_day _ _ _ _ Hl) as [Hk Hy].
  rewrite Hk, key_date_of_key.
  - rewrite <- Hl. cbn [fixed_zone offset_of_local]. f_equal. lia.
  - unfold in_range in *. rewrite <- Hy. exact H.
Qed.

Lemma same_key_same_day (zn : zone) (t1 t2 : Z) :
  in_range zn t1 -> in_range zn t2 ->
  (getDayKey zn t1 = getDayKey zn t2 <-> local_day zn t1 = local_day zn t2).
Proof.
  intros H1 H2. split; [|apply getDayKey_local_day].
  intros He. pose proof (key_day zn t1 H1) as K1.
  rewrite He, (key_day zn t2 H2) in K1. inversion K1.
  unfold msPerDay in *. lia.
Qed.

(** X22: for instants of the local years 100 to 275760, in a zone
    whose offset may change, the key of the day of an instant leads
    back to the instant that the local time 0:00 of that day has for
    [new Date]; two instants have the same key exactly when they are
    on the same local day; where the offset never changes by a day or
    more, the comparison of the sort orders keys as it orders the
    days; where the local time 0:00 of the day exists, or is skipped by
    less than a day, the instant it leads back to has the same key;
    and at a constant offset the day is the 24 hours that start
    there. *)
Theorem day_key_round_trip (zn : zone) (t1 t2 : Z) :
  in_range zn t1 -> in_range zn t2 ->
  let day := local_day zn t1 in
  let midnight := day * msPerDay - offset_of_local zn (day * msPerDay) in
  key_date zn (getDayKey zn t1) = Some midnight
  /\ (getDayKey zn t1 = getDayKey zn t2
      <-> local_day zn t1 = local_day zn t2)
  /\ (steady zn ->
      (compare_days zn (getDayKey zn t1) (getDayKey zn t2) < 0
       <-> local_day zn t1 < local_day zn t2))
  /\ (starts_in_day zn day -> getDayKey zn midnight = getDayKey zn t1)
  /\ (forall tz, zn = fixed_zone tz -> midnight <= t1 < midnight + msPerDay).
Proof.
  intros H1 H2. cbv zeta.
  pose proof (key_date_of_key zn t1 H1) as K1.
  pose proof (key_date_of_key zn t2 H2) as K2.
  split; [exact K1|]. split; [apply same_key_same_day; assumption|].
  split; [|split].
  - intros Hz. unfold compare_days. rewrite K1, K2.
    pose proof (day_order zn (local_day zn t1) (local_day zn t2) Hz). lia.
  - intros Hs. apply getDayKey_local_day. unfold starts_in_day in Hs.
    cbv zeta in Hs. unfold local_day at 1.
    set (t := local_day zn t1 * msPerDay) in *.
    set (o := offset_of_local zn t) in *.
    set (o' := offset_at zn (t - o)) in *.
    symmetry. apply Z.div_unique with (r := o' - o); [left; lia|].
    unfold t. lia.
  - intros tz ->. unfold local_day. cbn [fixed_zone offset_at offset_of_local].
    unfold msPerDay.
    pose proof (Z.div_mod (t1 + tz) 86400000 ltac:(lia)) as Hd.
    pose proof (Z.mod_pos_bound (t1 + tz) 86400000 ltac:(lia)) as Hm.
    lia.
Qed.

(** An instant of 10 March 2024, the day on which the clocks of the
    Pacific zone skip an hour: 5:00 in the morning, local time. *)
Lemma day_key_round_trip_witness :
  in_range pacific_2024 1710072000000
  /\ steady pacific_2024
  /\ starts_in_day pacific_2024 (local_day pacific_2024 1710072000000)
  /\ getDayKey pacific_2024 1710072000000 = lit "2024-2-10"
  /\ key_date pacific_2024 (lit "2024-2-10") = Some 1710057600000
  /\ getDayKey pacific_2024 1710057600000 = lit "2024-2-10".
Proof.
  assert (H : in_range pacific_2024 1710072000000)
    by (vm_compute; split; discriminate).
  assert (Hs : starts_in_day pacific_2024
                 (local_day pacific_2024 1710072000000))
    by (vm_compute; split; [discriminate | reflexivity]).
  split; [exact H|]. split; [exact pacific_2024_steady|]. split; [exact Hs|].
  split; [vm_compute; reflexivity|].
  destruct (day_key_round_trip pacific_2024 1710072000000 1710072000000 H H)
    as [K [_ [_ [Hk _]]]].
  split.
  - change (getDayKey pacific_2024 1710072000000) with (lit "2024-2-10") in K.
    rewrite K. vm_compute. reflexivity.
  - transitivity (getDayKey pacific_2024 1710072000000);
      [exact (Hk Hs) | vm_compute; reflexivity].
Defined.

(** ** Status extractor: the order of the entries *)

Lemma index_from_range (p s : str) (i : Z) :
  index_from p s i = -1 \/ i <= index_from p s i.
Proof.
  revert i; induction s as [|c s IH]; intros i; cbn [index_from].
  - destruct (starts_with p []); [right; lia | left; reflexivity].
  - destruct (starts_with p (c :: s)); [right; lia|].
    destruct (IH (i + 1)) as [H|H]; [left; exact H | right; lia].
Qed.

Lemma positions_spec (text : str) (p : position) :
  In p (positions text) ->
  p_idx p = indexOf (toLowerCase text) (toLowerCase (p_name p))
  /\ 0 <= p_idx p.
Proof.
  unfold positions. intros H.
  apply (Permutation_in _ (js_sort_perm _ _ _)) in H.
  apply filter_In in H as [H Hne].
  apply in_map_iff in H as [name [<- _]]. cbn [p_idx p_name] in *.
  split; [reflexivity|]. apply negb_true_iff, Z.eqb_neq in Hne.
  unfold indexOf in *.
  destruct (index_from_range (toLowerCase name) (toLowerCase text) 0);
    [contradiction | assumption].
Qed.

Lemma strongly_sorted_remove {A} (R : A -> A -> Prop) (a b : list A) (x : A) :
  StronglySorted R (a ++ x :: b) -> StronglySorted R (a ++ b).
Proof.
  induction a as [|y a IH]; cbn [app]; intros H.
  - inversion H; assumption.
  - inversion H as [|? ? Hs Hall]; subst. constructor; [apply IH, Hs|].
    rewrite Forall_forall in *. intros z Hz. apply Hall.
    apply in_app_or in Hz as [Hz|Hz]; apply in_or_app;
      [left | right; right]; exact Hz.
Qed.

Lemma statuses_loop_sorted (R : str -> str -> Prop) (text : str)
    (ps : list position) (acc : object Z) :
  StronglySorted R (map fst acc ++ map p_name ps) ->
  StronglySorted R (map fst (statuses_loop text ps acc)).
Proof.
  revert acc; induction ps as [|p ps IH]; intros acc H.
  - cbn [statuses_loop]. cbn [map] in H. rewrite app_nil_r in H. exact H.
  - cbn [map] in H.
    assert (Hskip : StronglySorted R
                      (map fst (statuses_loop text ps acc)))
      by (apply IH; eapply strongly_sorted_remove; exact H).
    assert (Hset : forall v,
              StronglySorted R
                (map fst (statuses_loop text ps (obj_set acc (p_name p) v)))).
    { intros v. apply IH. rewrite obj_set_keys.
      destruct (map_has acc (p_name p)).
      - eapply strongly_sorted_remove; exact H.
      - rewrite <- app_assoc. exact H. }
    cbn [statuses_loop]. destruct (search _ _) as [m|]; [|exact Hskip].
    destruct (str_eqb _ _); [apply Hset|].
    destruct (isFinite _); [apply Hset | exact Hskip].
Qed.

(** X23: the entries of the extractor follow the page: they are in
    the order in which the names of their garages first occur in the
    text (in any case), and a garage whose name does not occur in the
    text has no entry. *)
Theorem statuses_follow_the_page (text : str) :
  let idx := fun g => indexOf (toLowerCase text) (toLowerCase g) in
  StronglySorted (fun g1 g2 => idx g1 <= idx g2)
    (map fst (parseStatuses text))
  /\ (forall g, In g (map fst (parseStatuses text)) -> 0 <= idx g)
  /\ (forall g, idx g = -1 -> obj_get (parseStatuses text) g = None)
  /\ (forall fetchedAt lastUpdated,
        map garage (make_rows fetchedAt lastUpdated (parseStatuses text))
        = map fst (parseStatuses text)).
Proof.
  cbv zeta.
  assert (Hin : forall g, In g (map fst (parseStatuses text)) ->
            0 <= indexOf (toLowerCase text) (toLowerCase g)).
  { intros g Hg. unfold parseStatuses in Hg.
    apply statuses_loop_keys in Hg as [[]|Hg].
    apply in_map_iff in Hg as [p [<- Hp]].
    apply positions_spec in Hp as [<- Hp]. exact Hp. }
  split; [|split; [exact Hin|split]].
  - unfold parseStatuses. apply statuses_loop_sorted. cbn [map app].
    pose proof (js_sort_sorted _ p_idx
                  (filter (fun x => negb (p_idx x =? -1))
                     (map (fun name =>
                             Position name
                               (indexOf (toLowerCase text)
                                  (toLowerCase name)))
                        garageNames))) as Hs.
    fold (positions text) in Hs.
    assert (Hp : forall p, In p (positions text) ->
              p_idx p = indexOf (toLowerCase text) (toLowerCase (p_name p)))
      by (intros p Hp; apply positions_spec, Hp).
    induction Hs as [|p ps Hs IH Hall]; [constructor|].
    cbn [map]. constructor.
    + apply IH. intros q Hq. apply Hp. right. exact Hq.
    + rewrite Forall_forall in *. intros g Hg.
      apply in_map_iff in Hg as [q [<- Hq]].
      rewrite <- (Hp p (or_introl eq_refl)), <- (Hp q (or_intror Hq)).
      apply Hall, Hq.
  - intros g Hg. apply obj_get_None. intros Hk. apply Hin in Hk. lia.
  - intros fetchedAt lastUpdated. apply make_rows_garages.
Qed.

(** ** Status extractor: a text without a value *)

Lemma status_capture_part (name : str) (prev : option ascii) (s : str)
    (m : mstate) :
  exec (status_pattern name) prev s = Some m ->
  exists a b, s = a ++ group1 m ++ b.
Proof.
  intros H. apply exec_matches in H. unfold status_pattern in H.
  apply matches_Seq_inv in H as [st1 [H1 H]].
  apply matches_Seq_inv in H as [st2 [H2 H]].
  apply matches_Seq_inv in H as [st3 [H3 H]].
  apply matches_Seq_inv in H as [st4 [H4 H]].
  apply matches_Cap_inv in H as [st5 [x [H [Hx ->]]]].
  apply matches_consumed in H1 as [x1 [E1 _]].
  apply matches_consumed in H2 as [x2 [E2 _]].
  apply matches_consumed in H3 as [x3 [E3 _]].
  apply matches_consumed in H4 as [x4 [E4 _]].
  cbn [m_rest] in E1. unfold group1. cbn [m_cap].
  exists (x1 ++ x2 ++ x3 ++ x4), (m_rest st5).
  rewrite E1, E2, E3, E4, Hx, <- !app_assoc. reflexivity.
Qed.

Lemma no_occurrence (p t : str) :
  existsb
    (fun n => str_eqb (toLowerCase (firstn (length p) (skipn n t))) p)
    (seq 0 (S (length t))) = false ->
  forall a q b, t = a ++ q ++ b -> toLowerCase q <> p.
Proof.
  intros Hex a q b Ht Hq.
  assert (Hl : length q = length p).
  { apply (f_equal (@length ascii)) in Hq. unfold toLowerCase in Hq.
    rewrite length_map in Hq. exact Hq. }
  assert (Ht' : existsb
            (fun n => str_eqb (toLowerCase (firstn (length p) (skipn n t))) p)
            (seq 0 (S (length t))) = true).
  { apply existsb_exists. exists (length a). split.
    - apply in_seq. apply (f_equal (@length ascii)) in Ht.
      rewrite !length_app in Ht. lia.
    - rewrite Ht, skipn_app, skipn_all, Nat.sub_diag. cbn [skipn app].
      rewrite firstn_app, <- Hl, Nat.sub_diag, firstn_all. cbn [firstn].
      rewrite app_nil_r. apply str_eqb_eq. exact Hq. }
  congruence.
Qed.

(** X24: a text that holds no percent sign and nowhere the word full
    (in any case) yields no entry at all, whatever garages it names. *)
Theorem no_value_no_status (text : str) :
  (forall c, In c text -> c <> "%"%char) ->
  (forall a f b, text = a ++ f ++ b -> toLowerCase f <> lit "full") ->
  parseStatuses text = [].
Proof.
  intros Hpc Hfull.
  destruct (parseStatuses text) as [|[g v] rest] eqn:Hp; [reflexivity|].
  exfalso.
  assert (Hin : In (g, v) (parseStatuses text))
    by (rewrite Hp; left; reflexivity).
  pose proof (statuses_loop_values text (positions text) []
                ltac:(intros ? ? []) g v Hin) as [_ Hr].
  destruct Hr as [seg [m [[a [b Ht]] [Hs Hv]]]].
  apply search_from_exec in Hs as [prev [a' [s' [Hseg He]]]].
  apply status_capture_part in He as [a'' [b'' Hc]].
  assert (Hsub : text = (a ++ a' ++ a'') ++ group1 m ++ (b'' ++ b)).
  { rewrite Ht, Hseg, Hc, <- !app_assoc. reflexivity. }
  destruct Hv as [[Hf _]|[ds [[ws [Hd _]] _]]].
  - exact (Hfull _ _ _ Hsub Hf).
  - apply (Hpc "%"%char); [|reflexivity]. rewrite Hsub, Hd.
    apply in_or_app; right. apply in_or_app; left.
    apply in_or_app; right. apply in_or_app; right. left. reflexivity.
Qed.

Lemma no_value_no_status_witness :
  parseStatuses (lit "South Garage closed North Garage open") = [].
Proof.
  apply no_value_no_status.
  - intros c Hc. vm_compute in Hc.
    repeat (destruct Hc as [<-|Hc]; [discriminate|]). destruct Hc.
  - apply no_occurrence. vm_compute. reflexivity.
Defined.

(** ** Last-updated line: the value on a page with one such line *)

Section LazyFirst.
Variable R : Type.

Lemma rep_lazy_here (p : ascii -> bool) (prev : option ascii) (s : str)
    (k : option ascii -> str -> option R) (r : R) :
  k prev s = Some r -> rep_lazy p prev s k = Some r.
Proof. intros H. destruct s; cbn [rep_lazy]; rewrite H; reflexivity. Qed.

Lemma rep_lazy_skip (p : ascii -> bool)
    (k : option ascii -> str -> option R) (s : str) :
  forall (x : str) (prev : option ascii),
    forallb p x = true ->
    (forall x1 x2, x = x1 ++ x2 -> x2 <> [] ->
       k (last_char x1 prev) (x2 ++ s) = None) ->
    rep_lazy p prev (x ++ s) k = rep_lazy p (last_char x prev) s k.
Proof.
  induction x as [|c x IH]; intros prev Hp Hk; [reflexivity|].
  cbn [forallb] in Hp. apply andb_true_iff in Hp as [Hc Hx].
  cbn [app rep_lazy].
  pose proof (Hk [] (c :: x) eq_refl ltac:(discriminate)) as H0.
  change (k prev (c :: x ++ s) = None) in H0. rewrite H0, Hc.
  rewrite IH; [reflexivity | exact Hx|].
  intros x1 x2 He Hn. apply (Hk (c :: x1) x2); [|exact Hn].
  rewrite He. reflexivity.
Qed.

End LazyFirst.

Lemma once_no_earlier (p a1 a2 b : str) (c : ascii) :
  count_from p (a1 ++ c :: a2 ++ b) = 1%nat ->
  starts_with p b = true ->
  starts_with p (c :: a2 ++ b) = false.
Proof.
  intros Hc Hb. pose proof (count_from_app p a1 (c :: a2 ++ b)) as H1.
  pose proof (count_from_app p a2 b) as H2.
  pose proof (count_from_here p b Hb) as H3.
  cbn [count_from] in H1.
  destruct (starts_with p (c :: a2 ++ b)); [lia | reflexivity].
Qed.

Lemma search_from_first (r : re) (a s : str) (prev : option ascii)
    (m : mstate) :
  (forall a1 a2, a = a1 ++ a2 -> a2 <> [] ->
     exec r (last_char a1 prev) (a2 ++ s) = None) ->
  exec r (last_char a prev) s = Some m ->
  search_from r prev (a ++ s) = Some m.
Proof.
  revert prev; induction a as [|c a IH]; intros prev Hn He.
  - cbn [app last_char fold_left] in *. unfold last_char in He.
    destruct s; cbn [search_from]; cbn [fold_left] in He; rewrite He;
      reflexivity.
  - cbn [app search_from].
    pose proof (Hn [] (c :: a) eq_refl ltac:(discriminate)) as H0.
    change (exec r prev (c :: a ++ s) = None) in H0. rewrite H0.
    apply IH; [|exact He]. intros a1 a2 Ha Hne.
    apply (Hn (c :: a1) a2); [rewrite Ha; reflexivity | exact Hne].
Qed.

Lemma no_refresh_inside (x tail ws r rest : str) :
  x <> [] -> starts_ws (rev x) = false ->
  (forall a q b, x = a ++ q ++ b -> toLowerCase q <> lit "refresh") ->
  tail = [] \/ (exists t, tail = " "%char :: t) ->
  ws <> [] -> forallb is_ws ws = true ->
  toLowerCase r = lit "refresh" ->
  x ++ tail <> ws ++ r ++ rest.
Proof.
  intros Hx Hend Hno Htail Hws Haw Hr He.
  assert (Hnotws : forall l, x = ws ++ l -> l <> []).
  { intros l Hl ->. rewrite app_nil_r in Hl. subst x.
    destruct (exists_last Hws) as [w' [c Hc]]. rewrite Hc in Hend, Haw.
    rewrite rev_app_distr in Hend. cbn in Hend.
    rewrite forallb_app in Haw. apply andb_true_iff in Haw as [_ Haw].
    cbn in Haw. rewrite andb_true_r in Haw. congruence. }
  apply app_eq_app in He as [l [[Hx2 Ht]|[Hw Ht]]].
  - pose proof (Hnotws l Hx2) as Hl.
    symmetry in Ht. apply app_eq_app in Ht as [l' [[Hl' Ht']|[Hr' Ht']]].
    + apply (Hno ws r l'); [|exact Hr]. rewrite Hx2, Hl'. reflexivity.
    + destruct l' as [|c l'].
      * rewrite app_nil_r in Hr'. subst l.
        apply (Hno ws r []); [rewrite app_nil_r; exact Hx2 | exact Hr].
      * destruct Htail as [->|[t ->]]; [discriminate Ht'|].
        inversion Ht'; subst c.
        assert (Hin : In " "%char (toLowerCase r)).
        { rewrite Hr'. unfold toLowerCase. rewrite map_app.
          apply in_or_app. right. left. reflexivity. }
        rewrite Hr in Hin. cbn in Hin.
        repeat (destruct Hin as [Hin|Hin]; [discriminate Hin|]).
        exact Hin.
  - destruct (exists_last Hx) as [x' [c Hc]].
    rewrite Hc, rev_app_distr in Hend. cbn in Hend.
    rewrite Hw, Hc, !forallb_app in Haw.
    apply andb_true_iff in Haw as [Haw _].
    apply andb_true_iff in Haw as [_ Haw]. cbn in Haw.
    rewrite andb_true_r in Haw. congruence.
Qed.

Lemma refresh_part_inv (st st' : mstate) :
  matches refresh_part st st' ->
  m_cap st' = m_cap st
  /\ (m_rest st = []
      \/ exists ws r rest, m_rest st = ws ++ r ++ rest /\ ws <> []
                           /\ forallb is_ws ws = true
                           /\ toLowerCase r = lit "refresh").
Proof.
  unfold refresh_part. intros H. apply matches_Alt_inv in H as [H|H].
  - apply matches_Seq_inv in H as [st1 [H1 H]].
    apply matches_Rep_parts in H1 as [ws [Hws [Haw [Hlw [_ Hc1]]]]].
    apply matches_Seq_inv in H as [st2 [H2 H]].
    apply matches_literal_prev in H2 as [r [Hr [Hcr [Hc2 _]]]].
    apply matches_WordB_inv in H as [-> _].
    split; [congruence|]. right. exists ws, r, (m_rest st2).
    split; [rewrite Hws, Hr; reflexivity|].
    split; [destruct ws; [simpl in Hlw; lia | discriminate]|].
    split; [exact Haw|]. apply map_canon_lower in Hcr. rewrite Hcr.
    reflexivity.
  - apply matches_EndIn_inv in H as [-> H]. auto.
Qed.

Lemma refresh_part_intro (prev : option ascii) (tail : str)
    (cap : option str) :
  tail = []
  \/ (exists mark post, tail = " "%char :: mark ++ post
                        /\ toLowerCase mark = lit "refresh"
                        /\ starts_word post = false) ->
  exists st', matches refresh_part (MState prev tail cap) st'.
Proof.
  unfold refresh_part. intros [->|[mark [post [-> [Hm Hp]]]]].
  - eexists. apply M_AltR. constructor.
  - assert (Hc : map canon mark = map canon (lit "Refresh"))
      by (apply lower_same_canon; rewrite Hm; reflexivity).
    destruct (last_char_canon mark (lit "Refresh") (Some " "%char)
                Hc ltac:(discriminate)) as [c [a [Hlc [Ha Hca]]]].
    unfold last_char in Ha. simpl in Ha. inversion Ha; subst a.
    eexists. apply M_AltL.
    eapply M_Seq;
      [apply (@M_Rep true 1%nat is_ws [" "%char] (mark ++ post) prev cap);
       [reflexivity | simpl; lia]|].
    eapply M_Seq; [apply matches_literal_intro; exact Hc|].
    constructor. unfold prev_word, next_word. cbn [m_prev m_rest].
    change (last_char [" "%char] prev) with (Some " "%char).
    rewrite Hlc, (is_word_canon _ _ Hca).
    unfold starts_word in Hp. destruct post as [|d post'];
      [reflexivity|]. rewrite Hp. reflexivity.
Qed.

Lemma starts_ws_rev_suffix (x1 x2 : str) :
  x2 <> [] -> starts_ws (rev (x1 ++ x2)) = starts_ws (rev x2).
Proof.
  intros Hx. rewrite rev_app_distr.
  destruct (rev x2) as [|c r] eqn:Hr; [|reflexivity].
  apply (f_equal (@rev ascii)) in Hr. rewrite rev_involutive in Hr.
  simpl in Hr. contradiction.
Qed.

Lemma last_updated_capture (prev : option ascii) (v tail : str) :
  v <> [] -> forallb dot v = true ->
  starts_ws (rev v) = false ->
  (forall a q b, v = a ++ q ++ b -> toLowerCase q <> lit "refresh") ->
  tail = []
  \/ (exists mark post, tail = " "%char :: mark ++ post
                        /\ toLowerCase mark = lit "refresh"
                        /\ starts_word post = false) ->
  exists m,
    run (Seq (Cap (lazy_plus dot)) refresh_part)
      (MState prev (v ++ tail) None) (@Some mstate) = Some m
    /\ m_cap m = Some v.
Proof.
  intros Hv Hdot Hend Hno Htail.
  destruct v as [|c v']; [congruence|].
  cbn [forallb] in Hdot. apply andb_true_iff in Hdot as [Hc Hdot].
  set (whole := (c :: v') ++ tail).
  set (KK := fun (prev' : option ascii) (s' : str) =>
               run refresh_part
                 (MState prev' s'
                    (Some (firstn (length whole - length s') whole)))
                 (@Some mstate)).
  assert (Hrun : run (Seq (Cap (lazy_plus dot)) refresh_part)
                   (MState prev whole None) (@Some mstate)
                 = rep_lazy dot (Some c) (v' ++ tail) KK).
  { unfold whole. cbn [run lazy_plus m_rest m_prev m_cap rep_min app].
    rewrite Hc. reflexivity. }
  rewrite Hrun. clear Hrun.
  assert (Htail' : tail = [] \/ exists t, tail = " "%char :: t).
  { destruct Htail as [->|[mark [post [-> _]]]]; eauto. }
  rewrite rep_lazy_skip; [|exact Hdot|].
  2:{ intros x1 x2 Hx Hne. destruct (KK _ _) as [r|] eqn:Hk; [|reflexivity].
      exfalso. unfold KK in Hk. apply run_sound in Hk as [st' [Hm _]].
      apply refresh_part_inv in Hm as [_ [Hnil|[ws [q [rest [Hs [Hw [Haw Hq]]]]]]]];
        cbn [m_rest] in *.
      - destruct x2; [congruence | discriminate].
      - revert Hs. apply no_refresh_inside; auto.
        + rewrite <- (starts_ws_rev_suffix (c :: x1) x2 Hne).
          cbn [app]. rewrite <- Hx. exact Hend.
        + intros a q' b Hx2. apply (Hno (c :: x1 ++ a) q' b).
          rewrite Hx, Hx2. cbn [app]. rewrite <- app_assoc. reflexivity. }
  assert (Hcap : firstn (length whole - length tail) whole = c :: v')
    by apply firstn_consumed.
  destruct (refresh_part_intro (last_char v' (Some c)) tail
              (Some (c :: v')) Htail) as [st' Hm].
  destruct (KK (last_char v' (Some c)) tail) as [m|] eqn:Hk.
  - exists m. split; [apply rep_lazy_here; exact Hk|].
    unfold KK in Hk. rewrite Hcap in Hk.
    apply run_sound in Hk as [st'' [Hm' Heq]]. inversion Heq; subst st''.
    apply refresh_part_inv in Hm' as [Hc' _]. exact Hc'.
  - exfalso. unfold KK in Hk. rewrite Hcap in Hk.
    pose proof (run_complete _ _ _ _ Hk _ Hm). discriminate.
Qed.

Lemma run_wordb (R : Type) (st : mstate) (k : mstate -> option R) :
  xorb (prev_word st) (next_word st) = true -> run WordB st k = k st.
Proof. intros H. cbn [run]. rewrite H. reflexivity. Qed.

Lemma last_updated_exec (prev : option ascii) (label v tail : str) :
  match prev with Some c => is_word c | None => false end = false ->
  toLowerCase label = lit "last updated" ->
  v <> [] -> forallb dot v = true ->
  starts_ws v = false -> starts_ws (rev v) = false ->
  (forall a q b, v = a ++ q ++ b -> toLowerCase q <> lit "refresh") ->
  tail = []
  \/ (exists mark post, tail = " "%char :: mark ++ post
                        /\ toLowerCase mark = lit "refresh"
                        /\ starts_word post = false) ->
  exists m,
    exec last_updated_re prev (label ++ " "%char :: v ++ tail) = Some m
    /\ m_cap m = Some v.
Proof.
  intros Hprev Hl Hv Hdot Hstart Hend Hno Htail.
  destruct (last_updated_capture (Some " "%char) v tail Hv Hdot Hend Hno
              Htail) as [m [Hrun Hcap]].
  exists m. split; [|exact Hcap].
  assert (Hc : map canon label = map canon (lit "Last updated"))
    by (apply lower_same_canon; rewrite Hl; reflexivity).
  assert (Hlen : length label = length (lit "Last updated")).
  { apply (f_equal (@length ascii)) in Hc. rewrite !length_map in Hc.
    exact Hc. }
  destruct (last_char_canon label (lit "Last updated") prev
              Hc ltac:(discriminate)) as [d [a [Hld [Ha Hda]]]].
  unfold last_char in Ha. simpl in Ha. inversion Ha; subst a.
  unfold exec, last_updated_re. fold refresh_part.
  change (run (Seq WordB ?x) ?st ?k)
    with (run WordB st (fun st' => run x st' k)).
  rewrite run_wordb.
  2:{ unfold prev_word, next_word. cbn [m_prev m_rest]. rewrite Hprev.
      destruct label as [|c0 label']; [discriminate|]. cbn [app].
      cbn [map] in Hc.
      change (map canon (lit "Last updated"))
        with (canon "l" :: map canon (lit "ast updated")) in Hc.
      injection Hc as Hc0 _. rewrite (is_word_canon _ _ Hc0). reflexivity. }
  change (run (Seq (literal true (lit "Last updated")) ?x) ?st ?k)
    with (run (literal true (lit "Last updated")) st
            (fun st' => run x st' k)).
  rewrite run_literal. cbn [m_rest m_prev m_cap].
  rewrite (strip_prefix_app true _ label _ Hlen Hc).
  rewrite <- Hlen, firstn_app, Nat.sub_diag, firstn_all. cbn [firstn].
  rewrite app_nil_r.
  change (run (Seq WordB ?x) ?st ?k)
    with (run WordB st (fun st' => run x st' k)).
  rewrite run_wordb.
  2:{ unfold prev_word, next_word. cbn [m_prev m_rest].
      rewrite Hld, (is_word_canon _ _ Hda). reflexivity. }
  destruct v as [|c v']; [congruence|]. cbn [starts_ws] in Hstart.
  cbn [run plus rep_min m_prev m_rest m_cap app rep_greedy].
  change (is_ws " ") with true. cbv iota. rewrite Hstart.
  exact Hrun.
Qed.

(** X25: on a text that holds the words Last updated once, followed
    by a space, a value and then either the end of the text or a space
    and the word Refresh, the time of last update that is reported is
    that value, provided the value has no white space at its ends, no
    line break and nowhere the word Refresh. *)
Theorem parseLastUpdated_value (pre label v tail : str) :
  count_ci (lit "Last updated") (pre ++ label ++ " "%char :: v ++ tail)
  = 1%nat ->
  ends_word pre = false ->
  toLowerCase label = lit "last updated" ->
  v <> [] -> forallb dot v = true ->
  starts_ws v = false -> starts_ws (rev v) = false ->
  (forall a q b, v = a ++ q ++ b -> toLowerCase q <> lit "refresh") ->
  tail = []
  \/ (exists mark post, tail = " "%char :: mark ++ post
                        /\ toLowerCase mark = lit "refresh"
                        /\ starts_word post = false) ->
  parseLastUpdated (pre ++ label ++ " "%char :: v ++ tail) = Some v.
Proof.
  intros Hone Hpre Hl Hv Hdot Hstart Hend Hno Htail.
  destruct (last_updated_exec (last_char pre None) label v tail Hpre Hl Hv
              Hdot Hstart Hend Hno Htail) as [m [He Hcap]].
  unfold parseLastUpdated, search.
  rewrite (search_from_first last_updated_re pre _ None m); [|  |exact He].
  - rewrite Hcap. cbn [option_map]. f_equal. apply trim_id; assumption.
  - intros a1 a2 Hp Hne.
    destruct (exec last_updated_re (last_char a1 None)
                (a2 ++ label ++ " "%char :: v ++ tail)) as [m'|] eqn:He';
      [|reflexivity].
    exfalso. apply exec_matches, last_updated_match in He'
      as [label' [ws [raw [post [Hs [_ [Hl' _]]]]]]].
    destruct a2 as [|c a2']; [congruence|].
    unfold count_ci in Hone. rewrite Hp in Hone.
    unfold toLowerCase in Hone.
    rewrite <- app_assoc, map_app in Hone. cbn [app map] in Hone.
    rewrite map_app in Hone.
    pose proof (once_no_earlier _ _ _ _ _ Hone) as Hno'.
    assert (H1 : starts_with (map lower_char (lit "Last updated"))
                   (map lower_char (label ++ " "%char :: v ++ tail)) = true).
    { rewrite map_app. fold (toLowerCase label). rewrite Hl.
      apply starts_with_self. }
    specialize (Hno' H1).
    assert (H2 : starts_with (map lower_char (lit "Last updated"))
                   (lower_char c
                    :: map lower_char a2'
                       ++ map lower_char (label ++ " "%char :: v ++ tail))
                 = true).
    { rewrite <- map_app. change (lower_char c :: map lower_char ?x)
        with (map lower_char (c :: x)).
      change (c :: a2' ++ ?x) with ((c :: a2') ++ x). rewrite Hs, map_app.
      fold (toLowerCase label'). rewrite Hl'. apply starts_with_self. }
    congruence.
Qed.

Lemma parseLastUpdated_value_witness :
  parseLastUpdated (htmlToText example_page)
  = Some (lit "2/3/2025 10:15:00 AM").
Proof.
  change (htmlToText example_page)
    with (lit "Garage Status " ++ lit "Last updated"
          ++ " "%char :: lit "2/3/2025 10:15:00 AM"
          ++ lit " Refresh South Garage 377 S. 7th St., San Jose, CA 95112 45 % West Garage 350 S. 4th St. Full").
  apply parseLastUpdated_value; try (vm_compute; reflexivity).
  - discriminate.
  - apply no_occurrence. vm_compute. reflexivity.
  - right. exists (lit "Refresh"),
      (lit " South Garage 377 S. 7th St., San Jose, CA 95112 45 % West Garage 350 S. 4th St. Full").
    repeat split; vm_compute; reflexivity.
Defined.

(** ** Ingestion handler: the batch and the page *)

Lemma page_fetch_result (E : env) (url : str) (t0 t : list event)
    (resp : response) (html : str) :
  fetchGarageStatusPage E url t0 = (Ok resp, t) ->
  ok resp = true -> r_text resp = TextOk html ->
  (exists latency resp',
     net_fetch E url empty_init = (latency, Resolves resp')
     /\ latency < 10000 /\ ok resp' = true /\ r_text resp' = TextOk html)
  \/ (exists latency e statusCode,
        net_fetch E url empty_init = (latency, Rejects e)
        /\ latency < 10000 /\ is_tls_code (e_cause_code e)
        /\ https_get E url = GetResponse (Some statusCode) html
        /\ 200 <= statusCode < 300).
Proof.
  unfold fetchGarageStatusPage, try_catch, fetchWithTimeout, bind, emit.
  destruct (net_fetch E url empty_init) as [latency [resp'|e]];
    destruct (Z.ltb_spec latency 10000) as [Hlt|Hge]; cbn.
  - intros H Hok Ht. inversion H; subst. left. eauto 10.
  - intros H. discriminate H.
  - destruct (has_code tlsCodes (e_cause_code e)) eqn:Hcode; cbn;
      [|intros H; discriminate H].
    apply has_code_tls in Hcode.
    unfold insecure_get, bind, emit.
    destruct (https_get E url) as [code data|e'|]; cbn;
      try (intros H; discriminate H).
    intros H Hok Ht. injection H as Hresp _. subst resp.
    cbn [ok r_text] in Hok, Ht.
    inversion Ht; subst. apply andb_true_iff in Hok as [H1 H2].
    apply Z.leb_le in H1. apply Z.ltb_lt in H2.
    destruct code as [c|]; [|lia]. right. exists latency, e, c.
    repeat split; auto.
  - intros H. discriminate H.
Qed.

Lemma page_fetch_delivers (E : env) (t0 t : list event) (resp : response)
    (html : str) :
  fetchGarageStatusPage E sourceUrl t0 = (Ok resp, t) ->
  ok resp = true -> r_text resp = TextOk html ->
  page_delivered E html.
Proof. apply page_fetch_result. Qed.



(** X26: the batch that a run writes comes from the page that the
    site delivered in that run: its garages and statuses are the
    entries extracted from the normalized text of that page, every
    record carries the time of last update found in that text (none
    when there is none), and the reply reports the same entries and
    the same time. *)
Theorem batch_comes_from_the_page (E : env) (req : request)
    (t0 t : list event) (r : result http_response) (url : str)
    (init : request_init) (batch : list GarageStatusRow) :
  handler E req t0 = (r, t) ->
  In (EFetch url init) (new_events t0 t) ->
  i_body init = Some batch ->
  exists (html : str) (reply : http_response),
    page_delivered E html
    /\ map (fun row => (garage row, status row)) batch
       = parseStatuses (htmlToText html)
    /\ (forall row, In row batch ->
          last_updated row = parseLastUpdated (htmlToText html))
    /\ r = Ok reply
    /\ In ("statuses"%string, JStatuses (parseStatuses (htmlToText html)))
         (res_json reply)
    /\ In ("lastUpdated"%string,
           json_opt (parseLastUpdated (htmlToText html)) JNull)
         (res_json reply).
Proof.
  intros H Hin Hbody.
  destruct (store_write_run E req t0 t r url init batch H Hin Hbody)
    as [supabaseUrl [supabaseKey [pre [html [_ [_ [_ [Hbatch [_
       [_ [_ [_ [Hr [pageResp [Hpage [Hok Htext]]]]]]]]]]]]]]]].
  exists html. eexists. split; [eapply page_fetch_delivers; eassumption|].
  split; [rewrite Hbatch; apply make_rows_entries|]. split.
  - intros row Hrow. rewrite Hbatch in Hrow. unfold make_rows in Hrow.
    apply in_map_iff in Hrow as [[g v] [<- _]]. reflexivity.
  - split; [exact Hr|]. unfold reply_to_write.
    destruct (net_fetch E url init) as [latency [resp|e]];
      destruct (latency <? 10000); try destruct (ok resp);
      cbn [res_json inserted insert_refused insert_failed In]; auto 10.
Qed.

Lemma batch_comes_from_the_page_witness :
  exists html : str,
    page_delivered env_ok html
    /\ map (fun row => (garage row, status row)) example_batch
       = parseStatuses (htmlToText html).
Proof.
  set (run := handler env_ok example_request []).
  set (init := store_init (lit "key") example_batch).
  set (url := lit "https://db.example/rest/v1/garage_status").
  assert (H1 : handler env_ok example_request [] = (fst run, snd run))
    by (unfold run; destruct (handler env_ok example_request []);
        reflexivity).
  assert (H2 : In (EFetch url init) (new_events [] (snd run)))
    by (vm_compute; right; right; left; reflexivity).
  assert (H3 : i_body init = Some example_batch) by reflexivity.
  destruct (batch_comes_from_the_page env_ok example_request [] (snd run)
              (fst run) url init example_batch H1 H2 H3)
    as [html [reply [Hd [Hb _]]]].
  exists html. split; assumption.
Defined.

(** ** Escaping a name for a pattern *)

Lemma special_is_backslash : is_special "\"%char = true.
Proof. reflexivity. Qed.

Lemma special_is_syntax : forall c, is_special c = syntax_character c.
Proof.
  intros c. apply Bool.eqb_prop. revert c. char_fact.
Qed.

(** X27: escaping for a pattern puts a backslash in front of each
    syntax character of a pattern (the characters that would otherwise
    be read as operators) and of no other character; it leaves a text
    without such characters as it is (so the four garage names), never
    shortens a text and at most doubles its length, and loses nothing:
    different texts have different escaped forms. *)
Theorem escapeRegExp_is_faithful (s : str) :
  escaped_literal (escapeRegExp s) s
  /\ (forall c, is_special c = true <-> In c (lit "^$\.*+?()[]{}|"))
  /\ (forallb (fun c => negb (is_special c)) s = true -> escapeRegExp s = s)
  /\ (length s <= length (escapeRegExp s) <= 2 * length s)%nat
  /\ (forall s', escapeRegExp s = escapeRegExp s' -> s = s')
  /\ (forall g, In g garageNames -> escapeRegExp g = g).
Proof.
  split; [|split; [|split; [|split; [|split]]]].
  - unfold escapeRegExp. induction s as [|c s IH]; [constructor|].
    cbn [flat_map]. destruct (is_special c) eqn:Hc; cbn [app];
      rewrite special_is_syntax in Hc; constructor; assumption.
  - intros c. rewrite special_is_syntax. unfold syntax_character.
    rewrite existsb_exists. split.
    + intros [x [Hx He]]. apply Ascii.eqb_eq in He. subst x. exact Hx.
    + intros Hc. exists c. split; [exact Hc | apply Ascii.eqb_refl].
  - induction s as [|c s IH]; [reflexivity|]. cbn [forallb].
    intros H. apply andb_true_iff in H as [Hc Hs].
    apply negb_true_iff in Hc. unfold escapeRegExp in *. cbn [flat_map].
    rewrite Hc, (IH Hs). reflexivity.
  - unfold escapeRegExp. induction s as [|c s IH]; [simpl; lia|].
    cbn [flat_map]. rewrite length_app. cbn [length].
    destruct (is_special c); simpl; lia.
  - unfold escapeRegExp. induction s as [|c s IH]; intros [|d s']; cbn [flat_map].
    + reflexivity.
    + destruct (is_special d); discriminate.
    + destruct (is_special c); discriminate.
    + destruct (is_special c) eqn:Hc, (is_special d) eqn:Hd; cbn [app];
        intros H; inversion H; subst.
      * f_equal. apply IH. assumption.
      * rewrite special_is_backslash in Hd. discriminate.
      * rewrite special_is_backslash in Hc. discriminate.
      * f_equal. apply IH. assumption.
  - intros g [<-|[<-|[<-|[<-|[]]]]]; reflexivity.
Qed.

(** ** Daily averages: the order of the records does not matter *)

Lemma sum_perm (l l' : list Z) : Permutation l l' -> sum l = sum l'.
Proof.
  unfold sum. intros H.
  induction H as [|x l l' H IH|x y l|l l' l'' H1 IH1 H2 IH2];
    cbn [fold_left].
  - reflexivity.
  - rewrite sum_acc, (sum_acc l'). f_equal. exact IH.
  - f_equal. lia.
  - congruence.
Qed.

Lemma mean_perm (l l' : list Z) :
  Permutation l l' -> mean l = mean l'.
Proof.
  intros H. unfold mean.
  pose proof (Permutation_length H) as Hl.
  destruct l as [|x l0], l' as [|y l0']; try discriminate; [reflexivity|].
  rewrite (sum_perm _ _ H), Hl. reflexivity.
Qed.

Lemma filter_perm {A} (p : A -> bool) (l l' : list A) :
  Permutation l l' -> Permutation (filter p l) (filter p l').
Proof.
  induction 1 as [|x l l' H IH|x y l|l l' l'' H1 IH1 H2 IH2]; cbn [filter].
  - constructor.
  - destruct (p x); [constructor|]; exact IH.
  - destruct (p x), (p y); try apply Permutation_refl.
    apply perm_swap.
  - eapply Permutation_trans; eassumption.
Qed.

Lemma small_statuses_perm (rs rs' : list GarageStatusRow) :
  Permutation rs rs' -> small_statuses rs -> small_statuses rs'.
Proof.
  intros Hp Hs r Hr. rewrite <- (Permutation_length Hp).
  apply Hs. apply (Permutation_in _ (Permutation_sym Hp)). exact Hr.
Qed.

(** X28: in a zone whose offset never changes by a day or more, for
    records of the local years 100 to 275760 whose statuses are small
    against their number (so that the sums in doubles are exact), the
    chart is the same in whatever order the records are given. *)
Theorem chart_ignores_record_order (zn : zone)
    (date_parse : str -> option Z) (format_date : option Z -> str)
    (rs rs' : list GarageStatusRow) :
  steady zn ->
  (forall r t, In r rs -> valid_time date_parse r = Some t ->
               in_range zn t) ->
  small_statuses rs ->
  Permutation rs rs' ->
  dailyData zn date_parse format_date rs'
  = dailyData zn date_parse format_date rs.
Proof.
  intros Hz Hr Hs Hp. rewrite !dailyData_points.
  rewrite (days_of_perm zn date_parse rs rs' Hz Hr Hp).
  apply map_ext. intros d. f_equal. apply map_ext. intros g. f_equal.
  rewrite (statuses_on_exact zn date_parse rs d g Hs).
  rewrite (statuses_on_exact zn date_parse rs' d g
             (small_statuses_perm rs rs' Hp Hs)).
  f_equal. apply mean_perm. unfold statuses_on.
  apply Permutation_map, filter_perm, Permutation_sym, Hp.
Qed.

Lemma chart_ignores_record_order_witness :
  dailyData pacific_2024 iso_parse example_format (rev known_example)
  = dailyData pacific_2024 iso_parse example_format known_example.
Proof.
  apply chart_ignores_record_order.
  - exact pacific_2024_steady.
  - intros r t [<-|[<-|[<-|[]]]] Ht; vm_compute in Ht;
      inversion Ht; subst t; vm_compute; split; discriminate.
  - intros r [<-|[<-|[<-|[]]]]; vm_compute; reflexivity.
  - apply Permutation_rev.
Defined.

(** ** Ingestion handler: an error while the page is fetched or read *)

(** X29: when fetching the page fails with an error, whatever it is,
    or the text of an ok answer cannot be read, the run ends there
    with the reply 500 that carries the label of a failed run, the
    message of the error and its cause code; the clock is not read and
    nothing is written to the store. *)
Theorem page_error_ends_the_run (E : env) (req : request)
    (t0 t1 : list event) (e : error) :
  cleared E req ->
  fetchGarageStatusPage E sourceUrl t0 = (Thrown e, t1)
  \/ (exists resp, fetchGarageStatusPage E sourceUrl t0 = (Ok resp, t1)
                   /\ ok resp = true /\ r_text resp = TextFails e) ->
  handler E req t0
  = (Ok (Res [] 500
           [("error"%string, JStr (lit "Cron failed"));
            ("message"%string, JStr (e_message e));
            ("causeCode"%string,
             match e_cause_code e with
             | Some code => JStr code
             | None => JUndefined
             end)]), t1)
  /\ ~ In EClock (new_events t0 t1)
  /\ (forall url init, In (EFetch url init) (new_events t0 t1) ->
        i_body init = None).
Proof.
  intros Hadm Hpage.
  destruct (cleared_guards E req Hadm) as [Hm [s [u [k [Hs [Ha [Hu Hk]]]]]]].
  split.
  - unfold handler. rewrite Hm, Hs, Ha, Hu, Hk. cbn [negb].
    unfold try_catch at 1. unfold bind at 1.
    destruct Hpage as [Hpage|[resp [Hpage [Hok Htext]]]]; rewrite Hpage.
    + reflexivity.
    + rewrite Hok. cbn [negb]. unfold bind at 1. unfold read_text.
      rewrite Htext. reflexivity.
  - destruct (page_fetch_events E sourceUrl t0) as [res [pre [Hp Hpre]]].
    assert (Ht : t1 = t0 ++ pre).
    { destruct Hpage as [Hpage|[resp [Hpage _]]]; rewrite Hpage in Hp;
        inversion Hp; reflexivity. }
    subst t1. rewrite new_events_app. split.
    + destruct Hpre as [-> | ->]; simpl; intuition discriminate.
    + intros url init Hin.
      destruct Hpre as [-> | ->]; simpl in Hin;
        repeat match goal with
               | Hx : _ \/ _ |- _ => destruct Hx as [Hx|Hx]
               | Hx : False |- _ => destruct Hx
               | Hx : EFetch _ _ = EFetch _ _ |- _ =>
                   inversion Hx; subst; clear Hx
               | Hx : EInsecureGet _ = EFetch _ _ |- _ => discriminate Hx
               end; reflexivity.
Qed.

Lemma page_error_ends_the_run_witness :
  cleared env_refused example_request
  /\ fst (handler env_refused example_request [])
     = Ok (cron_failed refused_error).
Proof.
  assert (Ha : cleared env_refused example_request).
  { split; [left; reflexivity|].
    split; [exists (lit "s3cret"); split;
            [split; [reflexivity | discriminate] | left; reflexivity]|].
    split; eexists; (split; [reflexivity | discriminate]). }
  split; [exact Ha|].
  rewrite (proj1 (page_error_ends_the_run env_refused example_request []
                    [EFetch sourceUrl empty_init] refused_error Ha
                    (or_introl eq_refl))).
  reflexivity.
Defined.
